(** * frida-node: the runtime container, the script-world context and the
    Session binding

    A shallow embedding of [src/runtime.cc], [src/uv_context.cc] and
    [src/session.cc].  The script engine (V8), libuv and GLib are outside the
    sources: what the code asks of them is an interface ([V8.Engine],
    [Runtime.Isolate]) or a small model written next to its use. *)

From Stdlib Require Import ZArith List Bool String Ascii Lia Arith PeanoNat.
From Stdlib.Strings Require Import Byte.
Import ListNotations.

Set Implicit Arguments.
Set Warnings "-register-all".

(** ** Script values, as far as the bindings look at them *)

Module V8.

(** What the bindings ask of the engine about numbers and strings. *)
Class Engine : Type := {
  JSNumber : Type;
  JSString : Type;
  (** [value->ToInteger()->Value()], an [int64_t] *)
  IntegerValue : JSNumber -> Z;
  (** [*String::Utf8Value(s)]: the bytes of the UTF-8 buffer *)
  Utf8Value : JSString -> list byte;
  (** [String::NewFromUtf8(isolate, literal)] *)
  NewFromUtf8 : string -> JSString
}.

Definition gpointer := nat.

Section Values.
Context {E : Engine}.

Inductive Value : Type :=
| Undefined
| Null
| Boolean (b : bool)
| Number (n : JSNumber)
| String (s : JSString)
| External (p : gpointer)
| Object (o : nat)
| Function (o : nat).

Definition IsString (v : Value) : bool :=
  match v with String _ => true | _ => false end.

Definition IsNull (v : Value) : bool :=
  match v with Null => true | _ => false end.

Definition IsNumber (v : Value) : bool :=
  match v with Number _ => true | _ => false end.

Definition IsExternal (v : Value) : bool :=
  match v with External _ => true | _ => false end.

(** [args[i]]: [FunctionCallbackInfo::operator[]] yields undefined past the
    end of the argument list. *)
Definition arg (args : list Value) (i : nat) : Value := nth i args Undefined.

(** [args.Length()] *)
Definition Length (args : list Value) : nat := List.length args.

End Values.

(** An engine for concrete runs: numbers are integers, strings are byte
    strings that are their own UTF-8 form. *)
Definition ascii_engine : Engine :=
  {| JSNumber := Z;
     JSString := string;
     IntegerValue := fun z => z;
     Utf8Value := list_byte_of_string;
     NewFromUtf8 := fun s => s |}.

End V8.

(** ** The pieces of GLib and of C the bindings use *)

Module GLib.

(** [g_strdup]: a copy of the C string at the pointer, so of the bytes before
    the first NUL. *)
Fixpoint g_strdup (s : list byte) : list byte :=
  match s with
  | [] => []
  | b :: rest => if Byte.eqb b x00 then [] else b :: g_strdup rest
  end.

(** [static_cast<guint16>(x)] of a 64-bit integer: the value modulo 2^16. *)
Definition to_guint16 (x : Z) : Z := (x mod 65536)%Z.

Lemma g_strdup_no_nul (s : list byte) :
  ~ In x00 s -> g_strdup s = s.
Proof.
  induction s as [|b rest IH]; simpl; intros Hno; [reflexivity|].
  destruct (Byte.eqb b x00) eqn:Eb.
  - apply Byte.byte_dec_bl in Eb. exfalso. apply Hno. left. exact Eb.
  - f_equal. apply IH. intros Hin. apply Hno. right. exact Hin.
Qed.

Lemma g_strdup_has_no_nul (s : list byte) : ~ In x00 (g_strdup s).
Proof.
  induction s as [|b rest IH]; simpl; [tauto|].
  destruct (Byte.eqb b x00) eqn:Eb; simpl; [tauto|].
  intros [Hb | Hin]; [|exact (IH Hin)].
  subst b. vm_compute in Eb. discriminate.
Qed.

Lemma to_guint16_range (x : Z) : (0 <= to_guint16 x < 65536)%Z.
Proof. unfold to_guint16. apply Z.mod_pos_bound. lia. Qed.

Lemma to_guint16_low_bits (x : Z) : to_guint16 x = Z.land x 65535.
Proof.
  unfold to_guint16. change 65535%Z with (Z.ones 16).
  rewrite Z.land_ones by lia. reflexivity.
Qed.

(** [g_strdup] cuts at the first NUL: the copy has none, and what it leaves
    out is nothing or begins with one. *)
Lemma g_strdup_cuts (s : list byte) :
  exists tail,
    s = g_strdup s ++ tail
    /\ ~ In x00 (g_strdup s)
    /\ (tail = [] \/ exists t, tail = x00 :: t).
Proof.
  induction s as [|b rest (tail & Heq & Hno & Htail)]; simpl.
  - exists []. repeat split; [tauto | left; reflexivity].
  - destruct (Byte.eqb b x00) eqn:Eb.
    + apply Byte.byte_dec_bl in Eb. subst b. exists (x00 :: rest).
      repeat split; [simpl; tauto | right; exists rest; reflexivity].
    + exists tail. split; [simpl; f_equal; exact Heq|].
      split; [|exact Htail].
      intros [Hb | Hin]; [|exact (Hno Hin)].
      subst b. vm_compute in Eb. discriminate.
Qed.

End GLib.

(** ** [src/session.cc]: the Session binding *)

Module Session.
Import V8 GLib.

(** The operation descriptors of session.cc, with the fields their
    constructors store.  A [gchar*] is [None] for NULL. *)
Inductive Operation : Type :=
| DetachOperation
| CreateScriptOperation (name_ : option (list byte)) (source_ : list byte)
| EnableDebuggerOperation (port_ : Z)
| DisableDebuggerOperation.

(** The begin entry points of the native library, with the arguments that
    come from the script (the handle, [OnReady] and [this] are the same for
    every operation). *)
Inductive native_call : Type :=
| frida_session_detach
| frida_session_create_script (name : option (list byte)) (source : list byte)
| frida_session_enable_debugger (port : Z)
| frida_session_disable_debugger.

(** [Operation::Begin] of each descriptor. *)
Definition Begin (op : Operation) : native_call :=
  match op with
  | DetachOperation => frida_session_detach
  | CreateScriptOperation name_ source_ =>
      frida_session_create_script name_ source_
  | EnableDebuggerOperation port_ => frida_session_enable_debugger port_
  | DisableDebuggerOperation => frida_session_disable_debugger
  end.

Inductive Exception : Type :=
| TypeError (message : string).

Inductive ReturnValue : Type :=
| Promise (op : Operation)
| This
| EmptyHandle.

(** What a callback of session.cc does, in program order.
    [Operation_Schedule] is [operation->Schedule(isolate, wrapper)], which
    posts [Begin] to the native-world context (operation.h). *)
Inductive effect : Type :=
| ThrowException (e : Exception)
| new_Session (handle : gpointer)
| Wrap
| Set_events (handle : gpointer)
| UsageMonitor_Enable
| new_Operation (op : Operation)
| Operation_Schedule (op : Operation)
| SetReturnValue (v : ReturnValue).

Definition is_new_Session (e : effect) : bool :=
  match e with new_Session _ => true | _ => false end.


Definition is_Operation_Schedule (e : effect) : bool :=
  match e with Operation_Schedule _ => true | _ => false end.

Definition is_ThrowException (e : effect) : bool :=
  match e with ThrowException _ => true | _ => false end.

(** Modelled from the spec: [Operation::Schedule] of operation.h, which
    posts the [Begin] step of the operation to the native-world context and
    nothing else.  What a callback has posted there, in order. *)
Definition posted_to_native (es : list effect) : list native_call :=
  flat_map (fun e => match e with
                     | Operation_Schedule op => [Begin op]
                     | _ => []
                     end) es.

Definition creates_wrapper (es : list effect) : bool := existsb is_new_Session es.
Definition schedules (es : list effect) : bool := existsb is_Operation_Schedule es.
Definition throws (es : list effect) : bool := existsb is_ThrowException es.

Section Callbacks.
Context {E : Engine}.

(** [Local<External>::Cast(v)->Value()] *)
Definition External_Value (v : Value) : gpointer :=
  match v with External p => p | _ => 0 end.

(** [Session::New(const FunctionCallbackInfo<Value>&)], lines 76-104.  The
    plain call re-enters the constructor through
    [args.Callee()->NewInstance(0, NULL)], a construct call without
    arguments. *)
Definition New (IsConstructCall : bool) (args : list Value) : list effect :=
  let construct (args : list Value) :=
    if negb (Length args =? 1) || negb (IsExternal (arg args 0)) then
      [ThrowException (TypeError "Bad argument, expected raw handle")]
    else
      let handle := External_Value (arg args 0) in
      [new_Session handle; Wrap; Set_events handle; UsageMonitor_Enable;
       SetReturnValue This] in
  if IsConstructCall then construct args
  else construct [] ++ [SetReturnValue EmptyHandle].

(** [Session::Detach], lines 132-142 *)
Definition Detach (args : list Value) : list effect :=
  let operation := DetachOperation in
  [new_Operation operation; Operation_Schedule operation;
   SetReturnValue (Promise operation)].

(** [Session::CreateScript], lines 175-199 *)
Definition CreateScript (args : list Value) : list effect :=
  if (Length args <? 2)
     || negb (IsString (arg args 0) || IsNull (arg args 0))
     || negb (IsString (arg args 1)) then
    [ThrowException (TypeError "Bad argument, expected string|null and string")]
  else
    let name :=
      match arg args 0 with
      | String val => Some (g_strdup (Utf8Value val))
      | _ => None
      end in
    let source :=
      match arg args 1 with
      | String source => g_strdup (Utf8Value source)
      | _ => []
      end in
    let operation := CreateScriptOperation name source in
    [new_Operation operation; Operation_Schedule operation;
     SetReturnValue (Promise operation)].

(** [Session::EnableDebugger], lines 221-238 *)
Definition EnableDebugger (args : list Value) : list effect :=
  if (Length args <? 1) || negb (IsNumber (arg args 0)) then
    [ThrowException (TypeError "Bad argument, expected port number")]
  else
    let port :=
      match arg args 0 with
      | Number n => to_guint16 (IntegerValue n)
      | _ => 0%Z
      end in
    let operation := EnableDebuggerOperation port in
    [new_Operation operation; Operation_Schedule operation;
     SetReturnValue (Promise operation)].

(** [Session::DisableDebugger], lines 255-265 *)
Definition DisableDebugger (args : list Value) : list effect :=
  let operation := DisableDebuggerOperation in
  [new_Operation operation; Operation_Schedule operation;
   SetReturnValue (Promise operation)].

(** The prototype methods installed by [Session::Init], lines 54-57. *)
Inductive method : Type :=
| detach
| createScript
| enableDebugger
| disableDebugger.

Definition invoke (m : method) (args : list Value) : list effect :=
  match m with
  | detach => Detach args
  | createScript => CreateScript args
  | enableDebugger => EnableDebugger args
  | disableDebugger => DisableDebugger args
  end.

(** The parameters each method documents in its error message: one test
    per declared position. *)
Definition parameters (m : method) : list (Value -> bool) :=
  match m with
  | detach => []
  | createScript => [fun v => IsString v || IsNull v; IsString]
  | enableDebugger => [IsNumber]
  | disableDebugger => []
  end.

Definition message (m : method) : string :=
  match m with
  | createScript => "Bad argument, expected string|null and string"
  | enableDebugger => "Bad argument, expected port number"
  | _ => ""
  end.


Definition too_few (m : method) (args : list Value) : Prop :=
  Length args < List.length (parameters m).

Definition wrong_type (m : method) (args : list Value) : Prop :=
  exists i test, nth_error (parameters m) i = Some test
                 /\ i < Length args /\ test (arg args i) = false.

(** *** Argument checks *)

Lemma CreateScript_checks (args : list Value) :
  CreateScript args
  = [ThrowException (TypeError (message createScript))]
  \/ (2 <= Length args
      /\ (IsString (arg args 0) || IsNull (arg args 0)) = true
      /\ IsString (arg args 1) = true
      /\ throws (CreateScript args) = false
      /\ schedules (CreateScript args) = true).
Proof.
  unfold CreateScript.
  destruct (Length args <? 2) eqn:Hlen; simpl; [left; reflexivity|].
  apply Nat.ltb_ge in Hlen.
  destruct (IsString (arg args 0) || IsNull (arg args 0)) eqn:H0; simpl;
    [|left; reflexivity].
  destruct (IsString (arg args 1)) eqn:H1; simpl; [|left; reflexivity].
  right. repeat split; assumption.
Qed.

Lemma EnableDebugger_checks (args : list Value) :
  EnableDebugger args
  = [ThrowException (TypeError (message enableDebugger))]
  \/ (1 <= Length args
      /\ IsNumber (arg args 0) = true
      /\ throws (EnableDebugger args) = false
      /\ schedules (EnableDebugger args) = true).
Proof.
  unfold EnableDebugger.
  destruct (Length args <? 1) eqn:Hlen; simpl; [left; reflexivity|].
  apply Nat.ltb_ge in Hlen.
  destruct (IsNumber (arg args 0)) eqn:H0; simpl; [|left; reflexivity].
  right. repeat split; assumption.
Qed.


(** The other direction: a call that has a value of the right type at every
    declared position is scheduled, whatever follows those values. *)
Lemma conforming_arguments_schedule (m : method) (args : list Value) :
  ~ too_few m args -> ~ wrong_type m args ->
  throws (invoke m args) = false /\ schedules (invoke m args) = true.
Proof.
  intros Hfew Htype. destruct m; simpl; try (split; reflexivity).
  - destruct (CreateScript_checks args) as [Hthrow | (_ & _ & _ & Ht & Hs)];
      [|split; assumption].
    exfalso. unfold CreateScript in Hthrow.
    destruct (Length args <? 2) eqn:Hlen.
    { apply Nat.ltb_lt in Hlen. apply Hfew. exact Hlen. }
    apply Nat.ltb_ge in Hlen.
    destruct (IsString (arg args 0) || IsNull (arg args 0)) eqn:H0.
    + destruct (IsString (arg args 1)) eqn:H1; [discriminate Hthrow|].
      apply Htype. exists 1, IsString. repeat split; [exact Hlen | exact H1].
    + apply Htype. exists 0, (fun v => IsString v || IsNull v).
      repeat split; [unfold Length in *; lia | exact H0].
  - destruct (EnableDebugger_checks args) as [Hthrow | (_ & _ & Ht & Hs)];
      [|split; assumption].
    exfalso. unfold EnableDebugger in Hthrow.
    destruct (Length args <? 1) eqn:Hlen.
    { apply Nat.ltb_lt in Hlen. apply Hfew. exact Hlen. }
    apply Nat.ltb_ge in Hlen.
    destruct (IsNumber (arg args 0)) eqn:H0; [discriminate Hthrow|].
    apply Htype. exists 0, IsNumber. repeat split; [exact Hlen | exact H0].
Qed.

(** *** The constructor *)

Lemma New_plain_call_throws (args : list Value) :
  New false args
  = [ThrowException (TypeError "Bad argument, expected raw handle");
     SetReturnValue EmptyHandle].
Proof. reflexivity. Qed.

Lemma New_wraps_external (p : gpointer) :
  New true [External p]
  = [new_Session p; Wrap; Set_events p; UsageMonitor_Enable;
     SetReturnValue This].
Proof. reflexivity. Qed.

(** C7: a construct call whose argument list is not exactly one External
    value throws the type error and creates no wrapper; so does every plain
    call.  A wrapper is created only from a single External argument. *)
Theorem New_requires_external (args : list Value) :
  (forall p, args <> [External p]) ->
  New true args
  = [ThrowException (TypeError "Bad argument, expected raw handle")]
  /\ creates_wrapper (New true args) = false
  /\ creates_wrapper (New false args) = false.
Proof.
  intros Hnot.
  assert (Hthrow : New true args
    = [ThrowException (TypeError "Bad argument, expected raw handle")]).
  { unfold New. destruct args as [|v [|w rest]]; try reflexivity.
    destruct v; try reflexivity.
    exfalso. exact (Hnot p eq_refl). }
  rewrite Hthrow. repeat split.
Qed.

Lemma wrapper_only_from_external (b : bool) (args : list Value) :
  creates_wrapper (New b args) = true ->
  b = true /\ exists p, args = [External p].
Proof.
  destruct b; [|rewrite New_plain_call_throws; discriminate].
  intros Hw. split; [reflexivity|].
  destruct args as [|v [|w rest]]; try discriminate Hw.
  destruct v; try discriminate Hw.
  exists p. reflexivity.
Qed.

(** *** The operations handed to the native library *)

(** C9: enableDebugger with a number never throws; the port stored in the
    descriptor, and passed to [frida_session_enable_debugger] by [Begin], is
    the argument's integer value modulo 2^16, so a value outside 0..65535
    reaches the native library as a different port. *)
Theorem EnableDebugger_port_wraps (n : JSNumber) :
  let port := (IntegerValue n mod 2 ^ 16)%Z in
  let operation := EnableDebuggerOperation port in
  EnableDebugger [Number n]
  = [new_Operation operation; Operation_Schedule operation;
     SetReturnValue (Promise operation)]
  /\ posted_to_native (EnableDebugger [Number n])
     = [frida_session_enable_debugger port]
  /\ throws (EnableDebugger [Number n]) = false
  /\ (0 <= port < 65536)%Z
  /\ port = Z.land (IntegerValue n) 65535
  /\ ((IntegerValue n < 0 \/ 65535 < IntegerValue n)%Z
      -> port <> IntegerValue n).
Proof.
  intros port operation. split; [reflexivity|]. split; [reflexivity|].
  split; [reflexivity|].
  assert (Hrange : (0 <= port < 65536)%Z) by apply to_guint16_range.
  split; [exact Hrange|]. split; [apply to_guint16_low_bits|].
  intros Hout Heq. rewrite <- Heq in Hout. lia.
Qed.

Lemma EnableDebugger_ignores_surplus (n : JSNumber) (rest : list Value) :
  EnableDebugger (Number n :: rest) = EnableDebugger [Number n].
Proof. reflexivity. Qed.

(** C10, as amended: createScript takes null for the name.  With null and a
    string the call does not throw, the operation is scheduled, and [Begin]
    passes a NULL name.  With a string name [Begin] passes the bytes of the
    UTF-8 form of the name that come before its first NUL byte: what is
    passed holds no NUL, is a prefix of the UTF-8 form, and leaves out
    nothing or a rest that begins with a NUL; it is the UTF-8 form itself
    exactly when that form holds no NUL.  The source is passed the same
    way. *)
Theorem CreateScript_null_name (source : JSString) (rest : list Value) :
  exists source_ source_tail,
    Utf8Value source = source_ ++ source_tail
    /\ ~ In x00 source_
    /\ (source_tail = [] \/ exists t, source_tail = x00 :: t)
    /\ (let operation := CreateScriptOperation None source_ in
        CreateScript (Null :: String source :: rest)
        = [new_Operation operation; Operation_Schedule operation;
           SetReturnValue (Promise operation)]
        /\ throws (CreateScript (Null :: String source :: rest)) = false
        /\ posted_to_native (CreateScript (Null :: String source :: rest))
           = [frida_session_create_script None source_])
    /\ (forall name : JSString,
        exists name_ name_tail,
          Utf8Value name = name_ ++ name_tail
          /\ ~ In x00 name_
          /\ (name_tail = [] \/ exists t, name_tail = x00 :: t)
          /\ (name_ = Utf8Value name <-> ~ In x00 (Utf8Value name))
          /\ (let operation := CreateScriptOperation (Some name_) source_ in
              CreateScript (String name :: String source :: rest)
              = [new_Operation operation; Operation_Schedule operation;
                 SetReturnValue (Promise operation)]
              /\ throws (CreateScript (String name :: String source :: rest))
                 = false
              /\ posted_to_native
                   (CreateScript (String name :: String source :: rest))
                 = [frida_session_create_script (Some name_) source_])).
Proof.
  destruct (g_strdup_cuts (Utf8Value source)) as (ts & Hs & Hs0 & Hts).
  exists (g_strdup (Utf8Value source)), ts.
  split; [exact Hs|]. split; [exact Hs0|]. split; [exact Hts|].
  split; [repeat split|].
  intros name.
  destruct (g_strdup_cuts (Utf8Value name)) as (tn & Hn & Hn0 & Htn).
  exists (g_strdup (Utf8Value name)), tn.
  split; [exact Hn|]. split; [exact Hn0|]. split; [exact Htn|].
  split; [|repeat split].
  split.
  - intros Heq. rewrite <- Heq. exact Hn0.
  - intros Hno. apply g_strdup_no_nul. exact Hno.
Qed.

(** The copy is the whole UTF-8 form when that form has no NUL byte. *)
Lemma CreateScript_name_whole (name source : JSString) :
  ~ In x00 (Utf8Value name) ->
  exists src,
    CreateScript [String name; String source]
    = [new_Operation (CreateScriptOperation (Some (Utf8Value name)) src);
       Operation_Schedule (CreateScriptOperation (Some (Utf8Value name)) src);
       SetReturnValue
         (Promise (CreateScriptOperation (Some (Utf8Value name)) src))].
Proof.
  intros Hno. exists (g_strdup (Utf8Value source)).
  unfold CreateScript. simpl. rewrite (g_strdup_no_nul _ Hno). reflexivity.
Qed.

End Callbacks.

(** *** Concrete calls *)

Definition port_8080 : @Value ascii_engine := @Number ascii_engine 8080%Z.



Lemma New_requires_external_witness :
  @New ascii_engine true [@Null ascii_engine]
  = [ThrowException (TypeError "Bad argument, expected raw handle")]
  /\ creates_wrapper (@New ascii_engine true [@Null ascii_engine]) = false
  /\ creates_wrapper (@New ascii_engine false [@Null ascii_engine]) = false.
Proof.
  apply (@New_requires_external ascii_engine [@Null ascii_engine]).
  intros p. discriminate.
Defined.

Example EnableDebugger_65616 :
  @EnableDebugger ascii_engine [@Number ascii_engine 65616%Z]
  = [new_Operation (EnableDebuggerOperation 80);
     Operation_Schedule (EnableDebuggerOperation 80);
     SetReturnValue (Promise (EnableDebuggerOperation 80))].
Proof. reflexivity. Qed.

Example EnableDebugger_minus_one :
  @EnableDebugger ascii_engine [@Number ascii_engine (-1)%Z]
  = [new_Operation (EnableDebuggerOperation 65535);
     Operation_Schedule (EnableDebuggerOperation 65535);
     SetReturnValue (Promise (EnableDebuggerOperation 65535))].
Proof. reflexivity. Qed.

(** *** What the methods do with their arguments *)

Section Accepted.
Context {E : Engine}.

Lemma arg_app (args extra : list Value) (i : nat) :
  i < Length args -> arg (args ++ extra) i = arg args i.
Proof. intros Hi. unfold arg. apply app_nth1. exact Hi. Qed.

(** X11: a method looks at the declared positions only.  Once an argument
    list has a value for every declared parameter, whatever is appended to
    it changes nothing of what the method does. *)
Theorem surplus_arguments_are_ignored (m : method) (args extra : list Value) :
  List.length (parameters m) <= Length args ->
  invoke m (args ++ extra) = invoke m args.
Proof.
  intros Hlen. destruct m; simpl in *; try reflexivity.
  - unfold CreateScript.
    rewrite !arg_app by (unfold Length in *; lia).
    unfold Length in *. rewrite length_app.
    destruct (Nat.ltb_spec (List.length args + List.length extra) 2);
      destruct (Nat.ltb_spec (List.length args) 2); try lia; reflexivity.
  - unfold EnableDebugger.
    rewrite !arg_app by (unfold Length in *; lia).
    unfold Length in *. rewrite length_app.
    destruct (Nat.ltb_spec (List.length args + List.length extra) 1);
      destruct (Nat.ltb_spec (List.length args) 1); try lia; reflexivity.
Qed.

(** X12: a call that has a value of the right type at every declared
    position does exactly three things, in this order: it creates one
    operation descriptor, of the kind of the method, schedules that
    descriptor, and returns the promise of that descriptor. *)
Theorem accepted_call_schedules_its_operation (m : method) (args : list Value) :
  ~ too_few m args -> ~ wrong_type m args ->
  exists operation,
    invoke m args
    = [new_Operation operation; Operation_Schedule operation;
       SetReturnValue (Promise operation)]
    /\ match m, operation with
       | detach, DetachOperation => True
       | createScript, CreateScriptOperation _ _ => True
       | enableDebugger, EnableDebuggerOperation _ => True
       | disableDebugger, DisableDebuggerOperation => True
       | _, _ => False
       end.
Proof.
  intros Hfew Htype.
  destruct (conforming_arguments_schedule Hfew Htype) as [Hthrow _].
  destruct m; simpl in *.
  - eexists. split; [reflexivity | exact I].
  - unfold CreateScript in *.
    destruct ((Length args <? 2)
              || negb (IsString (arg args 0) || IsNull (arg args 0))
              || negb (IsString (arg args 1))); [discriminate Hthrow|].
    eexists. split; [reflexivity | exact I].
  - unfold EnableDebugger in *.
    destruct ((Length args <? 1) || negb (IsNumber (arg args 0)));
      [discriminate Hthrow|].
    eexists. split; [reflexivity | exact I].
  - eexists. split; [reflexivity | exact I].
Qed.

(** X13: createScript hands the native library the name and the source up
    to their first NUL byte: the stored name and source are prefixes of the
    UTF-8 forms, hold no NUL, and what is left out of each is nothing or
    begins with a NUL. *)
Theorem CreateScript_cuts_at_NUL (name source : JSString) (rest : list Value) :
  exists name_ source_ name_tail source_tail,
    CreateScript (String name :: String source :: rest)
    = (let operation := CreateScriptOperation (Some name_) source_ in
       [new_Operation operation; Operation_Schedule operation;
        SetReturnValue (Promise operation)])
    /\ Utf8Value name = name_ ++ name_tail
    /\ Utf8Value source = source_ ++ source_tail
    /\ ~ In x00 name_ /\ ~ In x00 source_
    /\ (name_tail = [] \/ exists t, name_tail = x00 :: t)
    /\ (source_tail = [] \/ exists t, source_tail = x00 :: t).
Proof.
  destruct (g_strdup_cuts (Utf8Value name)) as (tn & Hn & Hn0 & Htn).
  destruct (g_strdup_cuts (Utf8Value source)) as (ts & Hs & Hs0 & Hts).
  exists (g_strdup (Utf8Value name)), (g_strdup (Utf8Value source)), tn, ts.
  split; [reflexivity|]. repeat split; assumption.
Qed.

(** X14: enableDebugger stores the integer value of its argument as the
    port exactly when that value is in 0..65535. *)
Theorem EnableDebugger_port_unchanged_iff_in_range (n : JSNumber)
  (rest : list Value) :
  EnableDebugger (Number n :: rest)
  = (let operation := EnableDebuggerOperation (IntegerValue n) in
     [new_Operation operation; Operation_Schedule operation;
      SetReturnValue (Promise operation)])
  <-> (0 <= IntegerValue n <= 65535)%Z.
Proof.
  unfold EnableDebugger. simpl. split.
  - intros H. injection H as H _.
    pose proof (to_guint16_range (IntegerValue n)) as Hr. rewrite H in Hr. lia.
  - intros Hr. unfold to_guint16. rewrite Z.mod_small by lia. reflexivity.
Qed.

End Accepted.

Lemma surplus_arguments_are_ignored_witness :
  @invoke ascii_engine createScript
    ([@Null ascii_engine; @String ascii_engine "send(1)"%string]
     ++ [port_8080; @Undefined ascii_engine])
  = @invoke ascii_engine createScript
      [@Null ascii_engine; @String ascii_engine "send(1)"%string].
Proof.
  apply (@surplus_arguments_are_ignored ascii_engine createScript
           [@Null ascii_engine; @String ascii_engine "send(1)"%string]
           [port_8080; @Undefined ascii_engine]).
  simpl. lia.
Defined.

Lemma accepted_call_schedules_its_operation_witness :
  exists operation,
    @invoke ascii_engine enableDebugger [port_8080]
    = [new_Operation operation; Operation_Schedule operation;
       SetReturnValue (Promise operation)]
    /\ match operation with
       | EnableDebuggerOperation _ => True
       | _ => False
       end.
Proof.
  apply (@accepted_call_schedules_its_operation ascii_engine enableDebugger
           [port_8080]).
  - unfold too_few. simpl. lia.
  - intros (i & test & Hnth & Hi & Htest).
    destruct i as [|i]; simpl in Hnth; [|destruct i; discriminate Hnth].
    injection Hnth as <-. discriminate Htest.
Defined.

(** C10, as stated, fails for a name that holds a NUL byte: with the name
    "a", NUL, "b" the native library is passed the one byte of "a", which
    is not the UTF-8 form of the name. *)
Lemma name_with_NUL_is_cut :
  posted_to_native
    (@CreateScript ascii_engine
       [@String ascii_engine
          (String.String "a" (String.String Ascii.zero "b"%string));
        @String ascii_engine "send(1)"%string])
  = [frida_session_create_script (Some [x61])
       (list_byte_of_string "send(1)"%string)]
  /\ Some [x61]
     <> Some (@Utf8Value ascii_engine
                (String.String "a" (String.String Ascii.zero "b"%string))).
Proof.
  split; [reflexivity|]. intros H. discriminate H.
Qed.

(** A source with a NUL byte after its first character: the native library
    is handed the one character. *)
Example CreateScript_source_with_NUL :
  @CreateScript ascii_engine
    [@Null ascii_engine;
     @String ascii_engine
       (String.String "a" (String.String Ascii.zero "b"%string))]
  = [new_Operation (CreateScriptOperation None [x61]);
     Operation_Schedule (CreateScriptOperation None [x61]);
     SetReturnValue (Promise (CreateScriptOperation None [x61]))].
Proof. reflexivity. Qed.

End Session.

(** ** Order of steps *)

Module Order.

(** [x] is done before [y] in a sequence of steps. *)
Definition precedes {A : Type} (x y : A) (steps : list A) : Prop :=
  exists a b c, steps = a ++ x :: b ++ y :: c.

(** A step that satisfies [P] is done before one that satisfies [Q]. *)
Definition happens_before {A : Type} (P Q : A -> Prop) (steps : list A) : Prop :=
  exists a x b y c, steps = a ++ x :: b ++ y :: c /\ P x /\ Q y.

Lemma precedes_nil {A : Type} (x y : A) : ~ precedes x y [].
Proof.
  intros (a & b & c & H). destruct a; discriminate H.
Qed.

Lemma precedes_cons_inv {A : Type} (x y z : A) (l : list A) :
  precedes x y (z :: l) -> (z = x /\ In y l) \/ precedes x y l.
Proof.
  intros (a & b & c & H). destruct a as [|z' a]; simpl in H.
  - injection H as -> ->. left. split; [reflexivity|].
    apply in_or_app. right. left. reflexivity.
  - injection H as -> ->. right. exists a, b, c. reflexivity.
Qed.

Lemma precedes_cons {A : Type} (x y z : A) (l : list A) :
  precedes x y l -> precedes x y (z :: l).
Proof.
  intros (a & b & c & ->). exists (z :: a), b, c. reflexivity.
Qed.

Lemma precedes_here {A : Type} (x y : A) (l : list A) :
  In y l -> precedes x y (x :: l).
Proof.
  intros Hin. apply in_split in Hin. destruct Hin as (b & c & ->).
  exists [], b, c. reflexivity.
Qed.

Lemma snoc_split {A : Type} (l a b : list A) (e x : A) :
  l ++ [e] = a ++ x :: b ->
  (b = [] /\ a = l /\ x = e) \/ (exists b', b = b' ++ [e] /\ l = a ++ x :: b').
Proof.
  intros H. induction b as [|y b' _] using rev_ind.
  - left. apply app_inj_tail in H. destruct H as [-> ->].
    repeat split.
  - right. exists b'.
    replace (a ++ x :: b' ++ [y]) with ((a ++ x :: b') ++ [y]) in H
      by (rewrite <- app_assoc; reflexivity).
    apply app_inj_tail in H. destruct H as [-> ->]. split; reflexivity.
Qed.

End Order.

(** ** [src/runtime.cc]: the runtime container *)

Module Runtime.
Import V8 Order.

(** What the container asks of the engine about objects and functions:
    the global object of the current context, property lookup and function
    call.  [Call f recv argv] is [None] when the call throws (the handle it
    returns is empty). *)
Class Isolate {E : Engine} : Type := {
  Global : Value;
  Get : Value -> JSString -> Value;
  Call : Value -> Value -> list Value -> option Value
}.

(** The steps of the destructor, lines 30-39. *)
Inductive teardown : Type :=
| Reset_json_parse
| Reset_json_stringify
| Reset_json_module
| g_hash_table_unref
| delete_GLibContext (glib_context : nat)
| delete_UVContext (uv_context : nat).

Section Container.
Context {E : Engine} {I : Isolate}.

(** The fields of the class.  A context is named by its address; a
    persistent handle is [None] once reset; [data_] is the GHashTable with
    [g_str_hash] and [g_str_equal]. *)
Record Runtime : Type := {
  uv_context_ : nat;
  glib_context_ : nat;
  data_ : string -> option gpointer;
  json_module_ : option Value;
  json_stringify_ : option Value;
  json_parse_ : option Value
}.

(** [Runtime::Runtime], lines 13-28 *)
Definition Runtime_new (uv_context glib_context : nat) : Runtime :=
  let json_module := Get Global (NewFromUtf8 "JSON") in
  let json_stringify := Get json_module (NewFromUtf8 "stringify") in
  let json_parse := Get json_module (NewFromUtf8 "parse") in
  {| uv_context_ := uv_context;
     glib_context_ := glib_context;
     data_ := fun _ => None;
     json_module_ := Some json_module;
     json_stringify_ := Some json_stringify;
     json_parse_ := Some json_parse |}.

(** [Runtime::~Runtime], lines 30-39 *)
Definition Runtime_delete (r : Runtime) : list teardown :=
  [Reset_json_parse; Reset_json_stringify; Reset_json_module;
   g_hash_table_unref;
   delete_GLibContext (glib_context_ r);
   delete_UVContext (uv_context_ r)].

Definition GetUVContext (r : Runtime) : nat := uv_context_ r.

Definition GetGLibContext (r : Runtime) : nat := glib_context_ r.

(** [Runtime::GetDataPointer]: NULL ([None]) for a key never set *)
Definition GetDataPointer (r : Runtime) (id : string) : option gpointer :=
  data_ r id.

(** [Runtime::SetDataPointer] *)
Definition SetDataPointer (r : Runtime) (id : string) (value : gpointer)
  : Runtime :=
  {| uv_context_ := uv_context_ r;
     glib_context_ := glib_context_ r;
     data_ := fun k => if String.eqb k id then Some value else data_ r k;
     json_module_ := json_module_ r;
     json_stringify_ := json_stringify_ r;
     json_parse_ := json_parse_ r |}.

(** [Runtime::ValueToJson], lines 57-62 *)
Definition ValueToJson (r : Runtime) (value : Value) : option Value :=
  match json_module_ r, json_stringify_ r with
  | Some module, Some stringify => Call stringify module [value]
  | _, _ => None
  end.

(** [Runtime::ValueFromJson], lines 64-69 *)
Definition ValueFromJson (r : Runtime) (json : Value) : option Value :=
  match json_module_ r, json_parse_ r with
  | Some module, Some parse => Call parse module [json]
  | _, _ => None
  end.

(** The script expressions [JSON.stringify(v)] and [JSON.parse(j)], read
    off the global object. *)
Definition JSON : Value := Get Global (NewFromUtf8 "JSON").

Definition JSON_stringify (v : Value) : option Value :=
  Call (Get JSON (NewFromUtf8 "stringify")) JSON [v].

Definition JSON_parse (j : Value) : option Value :=
  Call (Get JSON (NewFromUtf8 "parse")) JSON [j].

(** A value is JSON-round-trippable, for a notion of equivalence of script
    values, when stringify yields a text for it and parse reads that text
    back as an equivalent value. *)
Definition round_trippable (equivalent : Value -> Value -> Prop) (v : Value)
  : Prop :=
  exists j v', JSON_stringify v = Some j /\ JSON_parse j = Some v'
               /\ equivalent v' v.

(** *** Teardown order *)

Ltac find_step :=
  repeat (first [ apply precedes_here; simpl; tauto | apply precedes_cons ]).

(** C1, as amended: the destructor first resets the three JSON handles and
    releases the registry, then deletes the two contexts, the native-world
    (GLib) context before the script-world (UV) context. *)
Theorem glib_context_deleted_first (r : Runtime) :
  precedes (delete_GLibContext (glib_context_ r))
           (delete_UVContext (uv_context_ r)) (Runtime_delete r)
  /\ precedes Reset_json_parse (delete_GLibContext (glib_context_ r))
              (Runtime_delete r)
  /\ precedes Reset_json_stringify (delete_GLibContext (glib_context_ r))
              (Runtime_delete r)
  /\ precedes Reset_json_module (delete_GLibContext (glib_context_ r))
              (Runtime_delete r)
  /\ precedes g_hash_table_unref (delete_GLibContext (glib_context_ r))
              (Runtime_delete r)
  /\ (forall step, In step (Runtime_delete r) ->
        step <> delete_UVContext (uv_context_ r) ->
        precedes step (delete_UVContext (uv_context_ r)) (Runtime_delete r)).
Proof.
  unfold Runtime_delete.
  do 5 (split; [find_step|]).
  intros step Hin Hne. simpl in Hin.
  do 5 (destruct Hin as [<- | Hin]; [find_step|]).
  destruct Hin as [<- | []]. contradiction.
Qed.

(** *** JSON round trip *)

Lemma ValueToJson_is_stringify (uv glib : nat) (v : Value) :
  ValueToJson (Runtime_new uv glib) v = JSON_stringify v.
Proof. reflexivity. Qed.

Lemma ValueFromJson_is_parse (uv glib : nat) (j : Value) :
  ValueFromJson (Runtime_new uv glib) j = JSON_parse j.
Proof. reflexivity. Qed.

Lemma SetDataPointer_keeps_json (r : Runtime) (id : string) (p : gpointer)
  (v : Value) :
  ValueToJson (SetDataPointer r id p) v = ValueToJson r v
  /\ ValueFromJson (SetDataPointer r id p) v = ValueFromJson r v.
Proof. split; reflexivity. Qed.

(** C8: on a container built by the constructor, [ValueToJson] is the
    JSON.stringify resolved at construction and [ValueFromJson] the
    JSON.parse resolved at construction; for a round-trippable value,
    encoding then decoding succeeds and yields an equivalent value. *)
Theorem json_round_trip (equivalent : Value -> Value -> Prop)
  (uv glib : nat) (v : Value) :
  round_trippable equivalent v ->
  let r := Runtime_new uv glib in
  ValueToJson r v = JSON_stringify v
  /\ (forall j, ValueFromJson r j = JSON_parse j)
  /\ exists j v', ValueToJson r v = Some j
                  /\ ValueFromJson r j = Some v'
                  /\ equivalent v' v.
Proof.
  intros (j & v' & Hs & Hp & Heq) r.
  split; [apply ValueToJson_is_stringify|].
  split; [intros j0; apply ValueFromJson_is_parse|].
  exists j, v'. subst r.
  rewrite ValueToJson_is_stringify, ValueFromJson_is_parse.
  repeat split; assumption.
Qed.

Lemma uv_context_never_deleted_first (r : Runtime) :
  ~ precedes (delete_UVContext (uv_context_ r))
             (delete_GLibContext (glib_context_ r)) (Runtime_delete r).
Proof.
  unfold Runtime_delete. intros H.
  do 5 (apply precedes_cons_inv in H;
        destruct H as [[Heq _] | H]; [discriminate Heq|]).
  apply precedes_cons_inv in H. destruct H as [[_ []] | H].
  exact (precedes_nil H).
Qed.

End Container.

(** *** A concrete container *)

(** An isolate for concrete runs, over [ascii_engine]: the global object 0
    has JSON (object 1), whose stringify (function 2) and parse (function
    3) know null, true and false. *)
Definition json_isolate : @Isolate ascii_engine :=
  {| Global := @Object ascii_engine 0;
     Get := fun (o : @Value ascii_engine) (k : string) =>
       match o with
       | Object 0 => if String.eqb k "JSON" then Object 1 else Undefined
       | Object 1 =>
           if String.eqb k "stringify" then Function 2
           else if String.eqb k "parse" then Function 3
           else Undefined
       | _ => Undefined
       end;
     Call := fun (f recv : @Value ascii_engine) argv =>
       match f, argv with
       | Function 2, [Null] => Some (@String ascii_engine "null"%string)
       | Function 2, [Boolean true] =>
           Some (@String ascii_engine "true"%string)
       | Function 2, [Boolean false] =>
           Some (@String ascii_engine "false"%string)
       | Function 3, [String s] =>
           if String.eqb s "null" then Some Null
           else if String.eqb s "true" then Some (Boolean true)
           else if String.eqb s "false" then Some (Boolean false)
           else None
       | _, _ => None
       end |}.

Definition demo_runtime : @Runtime ascii_engine :=
  @Runtime_new ascii_engine json_isolate 1 2.

(** C1, as stated, fails: in the destructor of a container whose UV context
    is at address 1 and whose GLib context is at address 2, deleting the UV
    context does not come before deleting the GLib context. *)
Lemma uv_context_deleted_last :
  Runtime_delete demo_runtime
  = [Reset_json_parse; Reset_json_stringify; Reset_json_module;
     g_hash_table_unref; delete_GLibContext 2; delete_UVContext 1]
  /\ ~ precedes (delete_UVContext 1) (delete_GLibContext 2)
               (Runtime_delete demo_runtime).
Proof.
  split; [reflexivity|].
  exact (@uv_context_never_deleted_first ascii_engine demo_runtime).
Qed.

Lemma json_round_trip_witness :
  let r := demo_runtime in
  let v := @Boolean ascii_engine true in
  @ValueToJson ascii_engine json_isolate r v
  = @JSON_stringify ascii_engine json_isolate v
  /\ (forall j, @ValueFromJson ascii_engine json_isolate r j
                = @JSON_parse ascii_engine json_isolate j)
  /\ exists j v', @ValueToJson ascii_engine json_isolate r v = Some j
                  /\ @ValueFromJson ascii_engine json_isolate r j = Some v'
                  /\ v' = v.
Proof.
  apply (@json_round_trip ascii_engine json_isolate eq 1 2
           (@Boolean ascii_engine true)).
  exists (@String ascii_engine "true"%string), (@Boolean ascii_engine true).
  repeat split.
Defined.

Example demo_round_trip :
  @ValueToJson ascii_engine json_isolate demo_runtime (@Null ascii_engine)
  = Some (@String ascii_engine "null"%string)
  /\ @ValueFromJson ascii_engine json_isolate demo_runtime
       (@String ascii_engine "null"%string)
     = Some (@Null ascii_engine).
Proof. split; reflexivity. Qed.

(** *** The registry *)

Section Registry.
Context {E : Engine} {I : Isolate}.

(** [SetDataPointer] called for each pair of a list, in order. *)
Definition SetDataPointers (r : Runtime) (sets : list (string * gpointer))
  : Runtime :=
  fold_left (fun r kv => SetDataPointer r (fst kv) (snd kv)) sets r.

(** The value of the last pair of a list that has the key, if any. *)
Definition last_set (sets : list (string * gpointer)) (id : string)
  : option gpointer :=
  option_map snd (find (fun kv => String.eqb (fst kv) id) (rev sets)).

Lemma SetDataPointers_snoc (r : Runtime) (sets : list (string * gpointer))
  (k : string) (p : gpointer) :
  SetDataPointers r (sets ++ [(k, p)])
  = SetDataPointer (SetDataPointers r sets) k p.
Proof. unfold SetDataPointers. rewrite fold_left_app. reflexivity. Qed.

Lemma GetDataPointer_SetDataPointers (r : Runtime)
  (sets : list (string * gpointer)) (id : string) :
  GetDataPointer (SetDataPointers r sets) id
  = match last_set sets id with
    | Some p => Some p
    | None => GetDataPointer r id
    end.
Proof.
  unfold last_set.
  induction sets as [|[k p] sets IH] using rev_ind; [reflexivity|].
  rewrite SetDataPointers_snoc, rev_app_distr. simpl.
  unfold GetDataPointer at 1. simpl. rewrite String.eqb_sym.
  destruct (String.eqb k id); [reflexivity | exact IH].
Qed.

(** X10: after any sequence of [SetDataPointer] calls, [GetDataPointer]
    yields for a key the value of the last call with that key (keys are
    compared as strings), and what it yielded before when there is none:
    NULL on a container just built.  The calls change nothing else: the two
    contexts, the JSON helpers and the teardown stay as they were. *)
Theorem registry_last_writer_wins (r : Runtime)
  (sets : list (string * gpointer)) (id : string) :
  let r' := SetDataPointers r sets in
  GetDataPointer r' id
  = match last_set sets id with
    | Some p => Some p
    | None => GetDataPointer r id
    end
  /\ (forall uv glib,
        GetDataPointer (SetDataPointers (Runtime_new uv glib) sets) id
        = last_set sets id)
  /\ GetUVContext r' = GetUVContext r
  /\ GetGLibContext r' = GetGLibContext r
  /\ (forall v, ValueToJson r' v = ValueToJson r v)
  /\ (forall j, ValueFromJson r' j = ValueFromJson r j)
  /\ Runtime_delete r' = Runtime_delete r.
Proof.
  intros r'. split; [apply GetDataPointer_SetDataPointers|].
  split.
  { intros uv glib. rewrite GetDataPointer_SetDataPointers.
    destruct (last_set sets id); reflexivity. }
  subst r'. induction sets as [|[k p] sets IH] using rev_ind;
    [repeat split|].
  rewrite SetDataPointers_snoc.
  destruct IH as (Huv & Hglib & Hto & Hfrom & Hdel).
  split; [exact Huv|]. split; [exact Hglib|].
  split; [intros v; rewrite <- Hto; reflexivity|].
  split; [intros j; rewrite <- Hfrom; reflexivity|].
  rewrite <- Hdel. reflexivity.
Qed.

End Registry.

(** Two modules register under their own keys, and the first registers
    again. *)
Example registry_demo :
  let r := SetDataPointers demo_runtime
             [("session:ctor"%string, 10); ("script:ctor"%string, 20);
              ("session:ctor"%string, 30)] in
  GetDataPointer r "session:ctor" = Some 30
  /\ GetDataPointer r "script:ctor" = Some 20
  /\ GetDataPointer r "device:ctor" = None.
Proof. repeat split. Qed.

End Runtime.

(** ** [src/session.cc]: registration and the factory *)

Module SessionFactory.
Import V8 Session Runtime.

(** [SESSION_DATA_CONSTRUCTOR], line 10 *)
Definition SESSION_DATA_CONSTRUCTOR : string := "session:ctor".

(** What [Session::Init] asks of the engine, in program order. *)
Inductive init_step : Type :=
| CreateTemplate (name : string)
| SetAccessor (name : string) (read_only : bool)
| NODE_SET_PROTOTYPE_METHOD (name : string) (callback : method)
| GetFunction
| exports_Set (name : string)
| new_Persistent (address : gpointer).

Section Factory.
Context {E : Engine} {I : Isolate}.

(** [ctor->NewInstance(argc, argv)] on the function held by the persistent
    handle at address [ctor]. *)
Inductive construct_call : Type :=
| NewInstance (ctor : gpointer) (argv : list Value).

(** [Session::Init], lines 42-63.  [persistent] is the address of the
    handle made at line 62, which holds the constructor function of the
    template whose callback is [Session::New]. *)
Definition Init (r : Runtime) (persistent : gpointer)
  : Runtime * list init_step :=
  (SetDataPointer r SESSION_DATA_CONSTRUCTOR persistent,
   [CreateTemplate "Session";
    SetAccessor "pid" true;
    NODE_SET_PROTOTYPE_METHOD "detach" detach;
    NODE_SET_PROTOTYPE_METHOD "createScript" createScript;
    NODE_SET_PROTOTYPE_METHOD "enableDebugger" enableDebugger;
    NODE_SET_PROTOTYPE_METHOD "disableDebugger" disableDebugger;
    GetFunction;
    exports_Set "Session";
    new_Persistent persistent]).

(** The factory [Session::New] for a raw handle, lines 65-74.  [None]: the
    registry has nothing under the key, and line 68 dereferences NULL. *)
Definition New_of_handle (r : Runtime) (handle : gpointer)
  : option construct_call :=
  match GetDataPointer r SESSION_DATA_CONSTRUCTOR with
  | Some ctor => Some (NewInstance ctor [External handle])
  | None => None
  end.

Lemma last_set_other_keys (sets : list (string * gpointer)) (id : string) :
  (forall kv, In kv sets -> fst kv <> id) -> last_set sets id = None.
Proof.
  intros Hne. unfold last_set.
  destruct (find (fun kv => String.eqb (fst kv) id) (rev sets)) as [kv|] eqn:Hf;
    [|reflexivity].
  apply find_some in Hf. destruct Hf as [Hin Heq].
  apply in_rev in Hin. apply String.eqb_eq in Heq.
  exfalso. exact (Hne kv Hin Heq).
Qed.

(** X15: once [Session::Init] has run, whatever is registered afterwards
    under other keys, the factory finds the constructor that [Init] stored
    and calls it with one argument, the External of the handle; that
    argument list passes the check of the constructor callback, which
    wraps the handle.  On a container where nothing was registered under
    the key, the factory dereferences NULL. *)
Theorem factory_finds_constructor (r : Runtime) (persistent handle : gpointer)
  (sets : list (string * gpointer)) :
  (forall kv, In kv sets -> fst kv <> SESSION_DATA_CONSTRUCTOR) ->
  (exists argv,
     New_of_handle (SetDataPointers (fst (Init r persistent)) sets) handle
     = Some (NewInstance persistent argv)
     /\ New true argv
        = [new_Session handle; Wrap; Set_events handle; UsageMonitor_Enable;
           SetReturnValue This])
  /\ (forall uv glib,
        New_of_handle (SetDataPointers (Runtime_new uv glib) sets) handle
        = None).
Proof.
  intros Hne. pose proof (last_set_other_keys sets Hne) as Hlast. split.
  - exists [External handle]. split; [|reflexivity].
    unfold New_of_handle.
    rewrite GetDataPointer_SetDataPointers, Hlast. reflexivity.
  - intros uv glib. unfold New_of_handle.
    rewrite GetDataPointer_SetDataPointers, Hlast. reflexivity.
Qed.

End Factory.

Lemma factory_finds_constructor_witness :
  let r := fst (Init demo_runtime 10) in
  let sets := [("script:ctor"%string, 20); ("device:ctor"%string, 30)] in
  exists argv,
    New_of_handle (SetDataPointers r sets) 7 = Some (NewInstance 10 argv)
    /\ @New ascii_engine true argv
       = [new_Session 7; Wrap; Set_events 7; UsageMonitor_Enable;
          SetReturnValue This].
Proof.
  refine (proj1 (@factory_finds_constructor ascii_engine json_isolate
                   demo_runtime 10 7
                   [("script:ctor"%string, 20); ("device:ctor"%string, 30)] _)).
  intros kv [<- | [<- | []]]; discriminate.
Defined.

End SessionFactory.

(** ** [src/uv_context.cc]: the script-world context *)

Module UVContext.
Import Order.

(** *** Data *)

Definition tid := nat.

(** The thread of the event loop, on which libuv runs the async callback. *)
Definition script_thread : tid := 0.

(** A [std::function<void ()>] handed to the context.  What such a closure
    does to this context when it runs is a sequence of [Schedule] calls, one
    per element of [posts], in order; [name] tells closures apart.  A
    closure that never returns, or that calls [Perform] on the context it
    runs on, has no counterpart here. *)
Inductive closure : Type :=
| Fn (name : nat) (posts : list closure).

(** The flag of one [Perform] activation: the local [finished] of line 69,
    named by its address and by the closure the activation was given. *)
Definition flag : Type := nat * closure.

(** What [Schedule] is given: a closure of the caller, or the lambda of
    lines 71-78, which captures [f] and [&finished]. *)
Inductive work : Type :=
| Plain (f : closure)
| PerformLambda (f : closure) (finished : nat).

(** A queue element: the heap copy made at line 61.  [ptr] numbers the
    copies in the order in which [Schedule] makes them: it names the copy,
    and is not the address the allocator gives it, which may be given out
    again after the [delete] at line 93. *)
Record item : Type := { ptr : nat; fn : work }.

(** The async handle as libuv sees it. *)
Record uv_async_t : Type := { referenced : bool; sent : bool }.

(** [uv_async_init] leaves the handle referenced. *)
Definition uv_async_init : uv_async_t := {| referenced := true; sent := false |}.

Definition uv_ref (h : uv_async_t) : uv_async_t :=
  {| referenced := true; sent := sent h |}.

Definition uv_unref (h : uv_async_t) : uv_async_t :=
  {| referenced := false; sent := sent h |}.

Definition uv_async_send (h : uv_async_t) : uv_async_t :=
  {| referenced := referenced h; sent := true |}.

Definition uv_async_clear (h : uv_async_t) : uv_async_t :=
  {| referenced := referenced h; sent := false |}.

(** The fields of the class: [mutex_] is its owner, [pending_] the GSList
    from head to tail.  [cond_] has no state of its own. *)
Record UVContext : Type := {
  usage_count_ : Z;
  async_ : uv_async_t;
  mutex_ : option tid;
  pending_ : list item
}.

Definition set_usage_count (c : UVContext) (n : Z) : UVContext :=
  {| usage_count_ := n; async_ := async_ c; mutex_ := mutex_ c;
     pending_ := pending_ c |}.

Definition set_async (c : UVContext) (h : uv_async_t) : UVContext :=
  {| usage_count_ := usage_count_ c; async_ := h; mutex_ := mutex_ c;
     pending_ := pending_ c |}.

Definition set_mutex (c : UVContext) (m : option tid) : UVContext :=
  {| usage_count_ := usage_count_ c; async_ := async_ c; mutex_ := m;
     pending_ := pending_ c |}.

Definition set_pending (c : UVContext) (q : list item) : UVContext :=
  {| usage_count_ := usage_count_ c; async_ := async_ c; mutex_ := mutex_ c;
     pending_ := q |}.

(** [UVContext::UVContext], lines 24-29 *)
Definition UVContext_new : UVContext :=
  {| usage_count_ := 0;
     async_ := uv_unref uv_async_init;
     mutex_ := None;
     pending_ := [] |}.

(** *** The usage counter *)

(** Calls into libuv made by the two counter operations. *)
Inductive loop_call : Type :=
| call_uv_ref
| call_uv_unref.

Section Usage.

(** The integer type of [usage_count_] is declared in uv_context.h: [wrap]
    is how a value is stored in it, and it stores the values from 0 to
    [count_max] as they are. *)
Variable wrap : Z -> Z.
Variable count_max : Z.
Hypothesis count_max_positive : (1 <= count_max)%Z.
Hypothesis wrap_in_range : forall z, (0 <= z <= count_max)%Z -> wrap z = z.

(** [UVContext::IncreaseUsage], lines 50-53 *)
Definition IncreaseUsage (c : UVContext) : UVContext * list loop_call :=
  let usage_count := wrap (usage_count_ c + 1) in
  let c := set_usage_count c usage_count in
  if (usage_count =? 1)%Z then (set_async c (uv_ref (async_ c)), [call_uv_ref])
  else (c, []).

(** [UVContext::DecreaseUsage], lines 55-58 *)
Definition DecreaseUsage (c : UVContext) : UVContext * list loop_call :=
  let usage_count := usage_count_ c in
  let c := set_usage_count c (wrap (usage_count - 1)) in
  if (usage_count =? 1)%Z then
    (set_async c (uv_unref (async_ c)), [call_uv_unref])
  else (c, []).

(** The states of the counter: every decrease answers an earlier increase,
    and the count stays within the range of its type. *)
Inductive usage_reachable : UVContext -> Prop :=
| usage_new : usage_reachable UVContext_new
| usage_increase (c : UVContext) :
    usage_reachable c -> (usage_count_ c < count_max)%Z ->
    usage_reachable (fst (IncreaseUsage c))
| usage_decrease (c : UVContext) :
    usage_reachable c -> (0 < usage_count_ c)%Z ->
    usage_reachable (fst (DecreaseUsage c)).

Inductive usage_call : Type :=
| increase
| decrease.

(** A sequence of counter calls, with the libuv calls it makes. *)
Fixpoint usage_run (calls : list usage_call) (c : UVContext)
  : UVContext * list loop_call :=
  match calls with
  | [] => (c, [])
  | increase :: rest =>
      let (c1, l1) := IncreaseUsage c in
      let (c2, l2) := usage_run rest c1 in (c2, l1 ++ l2)
  | decrease :: rest =>
      let (c1, l1) := DecreaseUsage c in
      let (c2, l2) := usage_run rest c1 in (c2, l1 ++ l2)
  end.

(** The running count stays between 0 and [count_max]. *)
Fixpoint usage_ok (calls : list usage_call) (count : Z) : bool :=
  match calls with
  | [] => true
  | increase :: rest => (count <? count_max)%Z && usage_ok rest (count + 1)
  | decrease :: rest => (0 <? count)%Z && usage_ok rest (count - 1)
  end.

Lemma IncreaseUsage_count (c : UVContext) :
  (0 <= usage_count_ c < count_max)%Z ->
  usage_count_ (fst (IncreaseUsage c)) = (usage_count_ c + 1)%Z.
Proof.
  intros Hc. unfold IncreaseUsage.
  rewrite wrap_in_range by lia.
  destruct (usage_count_ c + 1 =? 1)%Z; reflexivity.
Qed.

Lemma DecreaseUsage_count (c : UVContext) :
  (0 < usage_count_ c <= count_max)%Z ->
  usage_count_ (fst (DecreaseUsage c)) = (usage_count_ c - 1)%Z.
Proof.
  intros Hc. unfold DecreaseUsage.
  rewrite wrap_in_range by lia.
  destruct (usage_count_ c =? 1)%Z; reflexivity.
Qed.

Lemma usage_reachable_referenced (c : UVContext) :
  usage_reachable c ->
  (0 <= usage_count_ c <= count_max)%Z
  /\ referenced (async_ c) = (0 <? usage_count_ c)%Z.
Proof.
  induction 1 as [|c Hc [IHr IHf] Hlt|c Hc [IHr IHf] Hpos].
  - simpl. split; [lia|reflexivity].
  - split; [rewrite IncreaseUsage_count by lia; lia|].
    unfold IncreaseUsage. rewrite wrap_in_range by lia.
    destruct (usage_count_ c + 1 =? 1)%Z eqn:E1; simpl.
    + apply Z.eqb_eq in E1. rewrite E1. reflexivity.
    + apply Z.eqb_neq in E1. rewrite IHf.
      destruct (Z.ltb_spec 0 (usage_count_ c));
        destruct (Z.ltb_spec 0 (usage_count_ c + 1)); try reflexivity; lia.
  - split; [rewrite DecreaseUsage_count by lia; lia|].
    unfold DecreaseUsage. rewrite wrap_in_range by lia.
    destruct (usage_count_ c =? 1)%Z eqn:E1; simpl.
    + apply Z.eqb_eq in E1. rewrite E1. reflexivity.
    + apply Z.eqb_neq in E1. rewrite IHf.
      destruct (Z.ltb_spec 0 (usage_count_ c));
        destruct (Z.ltb_spec 0 (usage_count_ c - 1)); try reflexivity; lia.
Qed.

Lemma usage_run_reachable (calls : list usage_call) :
  forall c, usage_reachable c ->
  usage_ok calls (usage_count_ c) = true ->
  usage_reachable (fst (usage_run calls c)).
Proof.
  induction calls as [|[|] rest IH]; intros c Hc Hok; simpl in *.
  - exact Hc.
  - apply andb_prop in Hok. destruct Hok as [Hlt Hok].
    apply Z.ltb_lt in Hlt.
    destruct (usage_reachable_referenced Hc) as [Hr _].
    specialize (IH (fst (IncreaseUsage c)) (usage_increase Hc Hlt)).
    rewrite IncreaseUsage_count in IH by lia. specialize (IH Hok).
    destruct (IncreaseUsage c) as [c1 l1]. simpl in IH.
    destruct (usage_run rest c1) as [c2 l2]. exact IH.
  - apply andb_prop in Hok. destruct Hok as [Hpos Hok].
    apply Z.ltb_lt in Hpos.
    destruct (usage_reachable_referenced Hc) as [Hr _].
    specialize (IH (fst (DecreaseUsage c)) (usage_decrease Hc Hpos)).
    rewrite DecreaseUsage_count in IH by lia. specialize (IH Hok).
    destruct (DecreaseUsage c) as [c1 l1]. simpl in IH.
    destruct (usage_run rest c1) as [c2 l2]. exact IH.
Qed.

(** C2: the handle starts unreferenced with the counter at zero; in every
    reachable state it is unreferenced iff the counter is zero and
    referenced iff the counter is positive; the increase from 0 makes the
    one call [uv_ref], the decrease from 1 makes the one call [uv_unref],
    and every other increase or decrease calls nothing and leaves the
    handle as it was. *)
Theorem usage_counter_tracks_reference (c : UVContext) :
  usage_reachable c ->
  (usage_count_ UVContext_new = 0%Z
   /\ referenced (async_ UVContext_new) = false)
  /\ (referenced (async_ c) = false <-> usage_count_ c = 0%Z)
  /\ (referenced (async_ c) = true <-> (0 < usage_count_ c)%Z)
  /\ (usage_count_ c = 0%Z ->
      IncreaseUsage c
      = (set_async (set_usage_count c 1) (uv_ref (async_ c)), [call_uv_ref]))
  /\ ((0 < usage_count_ c < count_max)%Z ->
      IncreaseUsage c = (set_usage_count c (usage_count_ c + 1), []))
  /\ (usage_count_ c = 1%Z ->
      DecreaseUsage c
      = (set_async (set_usage_count c 0) (uv_unref (async_ c)),
         [call_uv_unref]))
  /\ ((1 < usage_count_ c)%Z ->
      DecreaseUsage c = (set_usage_count c (usage_count_ c - 1), [])).
Proof.
  intros Hc. destruct (usage_reachable_referenced Hc) as [Hr Hf].
  split; [split; reflexivity|].
  split.
  { rewrite Hf. destruct (Z.ltb_spec 0 (usage_count_ c)); split; intros;
      try reflexivity; try discriminate; lia. }
  split.
  { rewrite Hf. destruct (Z.ltb_spec 0 (usage_count_ c)); split; intros;
      try reflexivity; try discriminate; lia. }
  split.
  { intros H0. unfold IncreaseUsage. rewrite H0. simpl.
    rewrite wrap_in_range by lia. reflexivity. }
  split.
  { intros Hn. unfold IncreaseUsage. rewrite wrap_in_range by lia.
    destruct (usage_count_ c + 1 =? 1)%Z eqn:E1; [|reflexivity].
    apply Z.eqb_eq in E1. lia. }
  split.
  { intros H1. unfold DecreaseUsage. rewrite H1. simpl.
    rewrite wrap_in_range by lia. reflexivity. }
  intros Hn. unfold DecreaseUsage. rewrite wrap_in_range by lia.
  destruct (usage_count_ c =? 1)%Z eqn:E1; [|reflexivity].
  apply Z.eqb_eq in E1. lia.
Qed.

(** Without the pairing of decreases with increases: as long as the count
    stays in a range [count_min..count_max] that the type stores as it is,
    the handle is referenced exactly when the count is positive. *)
Variable count_min : Z.
Hypothesis count_min_negative : (count_min <= 0)%Z.
Hypothesis wrap_below : forall z, (count_min <= z <= 0)%Z -> wrap z = z.

Inductive usage_any : UVContext -> Prop :=
| any_new : usage_any UVContext_new
| any_increase (c : UVContext) :
    usage_any c -> (usage_count_ c < count_max)%Z ->
    usage_any (fst (IncreaseUsage c))
| any_decrease (c : UVContext) :
    usage_any c -> (count_min < usage_count_ c)%Z ->
    usage_any (fst (DecreaseUsage c)).

Lemma wrap_between (z : Z) : (count_min <= z <= count_max)%Z -> wrap z = z.
Proof.
  intros Hz. destruct (Z.le_gt_cases z 0);
    [apply wrap_below | apply wrap_in_range]; lia.
Qed.

Lemma reference_tracks_sign (c : UVContext) :
  usage_any c ->
  (count_min <= usage_count_ c <= count_max)%Z
  /\ referenced (async_ c) = (0 <? usage_count_ c)%Z.
Proof.
  induction 1 as [|c Hc [IHr IHf] Hlt|c Hc [IHr IHf] Hgt].
  - simpl. split; [lia|reflexivity].
  - unfold IncreaseUsage. rewrite wrap_between by lia.
    destruct (usage_count_ c + 1 =? 1)%Z eqn:E1; simpl.
    + apply Z.eqb_eq in E1. rewrite E1. split; [lia|reflexivity].
    + apply Z.eqb_neq in E1. split; [lia|]. rewrite IHf.
      destruct (Z.ltb_spec 0 (usage_count_ c));
        destruct (Z.ltb_spec 0 (usage_count_ c + 1)); try reflexivity; lia.
  - unfold DecreaseUsage. rewrite wrap_between by lia.
    destruct (usage_count_ c =? 1)%Z eqn:E1; simpl.
    + apply Z.eqb_eq in E1. rewrite E1. split; [lia|reflexivity].
    + apply Z.eqb_neq in E1. split; [lia|]. rewrite IHf.
      destruct (Z.ltb_spec 0 (usage_count_ c));
        destruct (Z.ltb_spec 0 (usage_count_ c - 1)); try reflexivity; lia.
Qed.

End Usage.

(** [int]: 32 bits, two's complement. *)
Definition wrap_int (z : Z) : Z := ((z + 2 ^ 31) mod 2 ^ 32 - 2 ^ 31)%Z.

Definition INT_MAX : Z := (2 ^ 31 - 1)%Z.

Lemma wrap_int_in_range (z : Z) : (0 <= z <= INT_MAX)%Z -> wrap_int z = z.
Proof.
  unfold wrap_int, INT_MAX. intros Hz.
  rewrite Z.mod_small by lia. lia.
Qed.

Lemma INT_MAX_positive : (1 <= INT_MAX)%Z.
Proof. unfold INT_MAX. lia. Qed.

(** Two usages taken and one given back. *)
Definition two_up_one_down : UVContext :=
  fst (usage_run wrap_int [increase; increase; decrease] UVContext_new).

Lemma usage_counter_tracks_reference_witness :
  usage_count_ two_up_one_down = 1%Z
  /\ referenced (async_ two_up_one_down) = true
  /\ (referenced (async_ two_up_one_down) = true
      <-> (0 < usage_count_ two_up_one_down)%Z).
Proof.
  split; [reflexivity|]. split; [reflexivity|].
  refine (proj1 (proj2 (proj2
    (@usage_counter_tracks_reference wrap_int INT_MAX INT_MAX_positive
       wrap_int_in_range two_up_one_down _)))).
  apply (@usage_run_reachable wrap_int INT_MAX INT_MAX_positive
           wrap_int_in_range [increase; increase; decrease] UVContext_new).
  - apply usage_new.
  - reflexivity.
Defined.

(** Ten wrappers made and destroyed: one [uv_ref], one [uv_unref], and the
    handle ends unreferenced. *)
Example ten_wrappers :
  let calls := repeat increase 10 ++ repeat decrease 10 in
  snd (usage_run wrap_int calls UVContext_new) = [call_uv_ref; call_uv_unref]
  /\ referenced (async_ (fst (usage_run wrap_int calls UVContext_new))) = false
  /\ usage_count_ (fst (usage_run wrap_int calls UVContext_new)) = 0%Z.
Proof. repeat split. Qed.

(** A decrease that answers no increase is not a transition of
    [usage_reachable]: on a new context the code takes the counter to -1 and
    calls nothing. *)
Example unanswered_decrease :
  DecreaseUsage wrap_int UVContext_new
  = (set_usage_count UVContext_new (-1), []).
Proof. reflexivity. Qed.

(** *** Runs of the usage counter *)

(** Increases less decreases. *)
Fixpoint net (calls : list usage_call) : Z :=
  match calls with
  | [] => 0
  | increase :: rest => 1 + net rest
  | decrease :: rest => net rest - 1
  end.

(** The libuv calls of a run take turns, [uv_ref] first when the handle is
    not referenced: [Some r] when they do and leave the handle referenced
    ([r] true) or not. *)
Fixpoint alternate (referenced : bool) (calls : list loop_call) : option bool :=
  match calls with
  | [] => Some referenced
  | call_uv_ref :: rest => if referenced then None else alternate true rest
  | call_uv_unref :: rest => if referenced then alternate false rest else None
  end.

(** The running count stays between [count_min] and [count_max]. *)
Fixpoint usage_within (count_min count_max : Z) (calls : list usage_call)
  (count : Z) : bool :=
  match calls with
  | [] => true
  | increase :: rest =>
      (count <? count_max)%Z && usage_within count_min count_max rest (count + 1)
  | decrease :: rest =>
      (count_min <? count)%Z && usage_within count_min count_max rest (count - 1)
  end.

Section UsageRuns.

Variable wrap : Z -> Z.
Variable count_max : Z.
Hypothesis count_max_positive : (1 <= count_max)%Z.
Hypothesis wrap_in_range : forall z, (0 <= z <= count_max)%Z -> wrap z = z.

Lemma reachable_referenced (c : UVContext) :
  @usage_reachable wrap count_max c ->
  (0 <= usage_count_ c <= count_max)%Z
  /\ referenced (async_ c) = (0 <? usage_count_ c)%Z.
Proof.
  exact (@usage_reachable_referenced wrap count_max count_max_positive
           wrap_in_range c).
Qed.

(** The counter operations leave the mutex, the queue and the pending signal
    of the handle alone. *)
Lemma usage_run_frame (calls : list usage_call) :
  forall c,
  mutex_ (fst (usage_run wrap calls c)) = mutex_ c
  /\ pending_ (fst (usage_run wrap calls c)) = pending_ c
  /\ sent (async_ (fst (usage_run wrap calls c))) = sent (async_ c).
Proof.
  induction calls as [|[|] rest IH]; intros c; simpl; [repeat split| |].
  - unfold IncreaseUsage.
    destruct (wrap (usage_count_ c + 1) =? 1)%Z;
      match goal with |- context [usage_run wrap rest ?c1] =>
        specialize (IH c1); destruct (usage_run wrap rest c1) end;
      exact IH.
  - unfold DecreaseUsage.
    destruct (usage_count_ c =? 1)%Z;
      match goal with |- context [usage_run wrap rest ?c1] =>
        specialize (IH c1); destruct (usage_run wrap rest c1) end;
      exact IH.
Qed.

(** The count after a run that stays in range: one up for each increase,
    one down for each decrease. *)
Lemma usage_run_count (calls : list usage_call) :
  forall c,
  @usage_reachable wrap count_max c ->
  usage_ok count_max calls (usage_count_ c) = true ->
  usage_count_ (fst (usage_run wrap calls c)) = (usage_count_ c + net calls)%Z.
Proof.
  induction calls as [|[|] rest IH]; intros c Hc Hok;
    cbn [usage_run usage_ok net] in *.
  - cbn [fst]. lia.
  - apply andb_prop in Hok. destruct Hok as [Hlt Hok].
    apply Z.ltb_lt in Hlt.
    destruct (reachable_referenced Hc) as [Hr _].
    specialize (IH (fst (IncreaseUsage wrap c)) (usage_increase Hc Hlt)).
    rewrite (@IncreaseUsage_count wrap count_max wrap_in_range) in IH by lia.
    specialize (IH Hok).
    destruct (IncreaseUsage wrap c) as [c1 l1]. cbn [fst] in IH.
    destruct (usage_run wrap rest c1) as [c2 l2]. cbn [fst] in *. lia.
  - apply andb_prop in Hok. destruct Hok as [Hpos Hok].
    apply Z.ltb_lt in Hpos.
    destruct (reachable_referenced Hc) as [Hr _].
    specialize (IH (fst (DecreaseUsage wrap c)) (usage_decrease Hc Hpos)).
    rewrite (@DecreaseUsage_count wrap count_max wrap_in_range) in IH by lia.
    specialize (IH Hok).
    destruct (DecreaseUsage wrap c) as [c1 l1]. cbn [fst] in IH.
    destruct (usage_run wrap rest c1) as [c2 l2]. cbn [fst] in *. lia.
Qed.

(** X7: a run of paired counter calls that stays in the range of the type
    moves the count by the number of increases less the number of
    decreases; with as many decreases as increases it gives back the very
    context it started from: count, reference, pending signal, mutex and
    queue. *)
Theorem balanced_usage_restores (calls : list usage_call) (c : UVContext) :
  @usage_reachable wrap count_max c ->
  usage_ok count_max calls (usage_count_ c) = true ->
  usage_count_ (fst (usage_run wrap calls c)) = (usage_count_ c + net calls)%Z
  /\ (net calls = 0%Z -> fst (usage_run wrap calls c) = c).
Proof.
  intros Hc Hok.
  pose proof (usage_run_count calls Hc Hok) as Hcount.
  split; [exact Hcount|]. intros Hnet. rewrite Hnet, Z.add_0_r in Hcount.
  pose proof (@usage_run_reachable wrap count_max count_max_positive
                wrap_in_range calls c Hc Hok) as Hc'.
  destruct (reachable_referenced Hc) as [_ Hf].
  destruct (reachable_referenced Hc') as [_ Hf'].
  destruct (usage_run_frame calls c) as (Hm & Hp & Hs).
  destruct (fst (usage_run wrap calls c)) as [n' [r' s'] m' p'].
  destruct c as [n [r s] m p]. simpl in *. congruence.
Qed.

(** X8: over a run of paired counter calls the calls into libuv take turns:
    a [uv_ref] is made only on an unreferenced handle and a [uv_unref] only
    on a referenced one, so the handle never holds two references and is
    never released twice. *)
Theorem loop_calls_alternate (calls : list usage_call) :
  forall c,
  @usage_reachable wrap count_max c ->
  usage_ok count_max calls (usage_count_ c) = true ->
  alternate (referenced (async_ c)) (snd (usage_run wrap calls c))
  = Some (referenced (async_ (fst (usage_run wrap calls c)))).
Proof.
  induction calls as [|[|] rest IH]; intros c Hc Hok; simpl in *.
  - reflexivity.
  - apply andb_prop in Hok. destruct Hok as [Hlt Hok].
    apply Z.ltb_lt in Hlt.
    destruct (reachable_referenced Hc) as [Hr Hf].
    specialize (IH (fst (IncreaseUsage wrap c)) (usage_increase Hc Hlt)).
    rewrite (@IncreaseUsage_count wrap count_max wrap_in_range) in IH by lia.
    specialize (IH Hok). revert IH.
    unfold IncreaseUsage. rewrite wrap_in_range by lia.
    destruct (usage_count_ c + 1 =? 1)%Z eqn:E1; simpl;
      destruct (usage_run wrap rest _) as [c2 l2]; simpl; intros IH.
    + apply Z.eqb_eq in E1. rewrite Hf.
      replace (usage_count_ c) with 0%Z by lia. exact IH.
    + exact IH.
  - apply andb_prop in Hok. destruct Hok as [Hpos Hok].
    apply Z.ltb_lt in Hpos.
    destruct (reachable_referenced Hc) as [Hr Hf].
    specialize (IH (fst (DecreaseUsage wrap c)) (usage_decrease Hc Hpos)).
    rewrite (@DecreaseUsage_count wrap count_max wrap_in_range) in IH by lia.
    specialize (IH Hok). revert IH.
    unfold DecreaseUsage.
    destruct (usage_count_ c =? 1)%Z eqn:E1; simpl;
      destruct (usage_run wrap rest _) as [c2 l2]; simpl; intros IH.
    + apply Z.eqb_eq in E1. rewrite Hf, E1. exact IH.
    + exact IH.
Qed.

(** Without the pairing of decreases with increases: the count may go below
    zero, down to [count_min]. *)
Variable count_min : Z.
Hypothesis count_min_negative : (count_min <= 0)%Z.
Hypothesis wrap_below : forall z, (count_min <= z <= 0)%Z -> wrap z = z.

Lemma usage_run_any (calls : list usage_call) :
  forall c,
  @usage_any wrap count_max count_min c ->
  usage_within count_min count_max calls (usage_count_ c) = true ->
  @usage_any wrap count_max count_min (fst (usage_run wrap calls c))
  /\ usage_count_ (fst (usage_run wrap calls c)) = (usage_count_ c + net calls)%Z.
Proof.
  induction calls as [|[|] rest IH]; intros c Hc Hok;
    cbn [usage_run usage_within net] in *.
  - cbn [fst]. split; [exact Hc | lia].
  - apply andb_prop in Hok. destruct Hok as [Hlt Hok].
    apply Z.ltb_lt in Hlt.
    destruct (@reference_tracks_sign wrap count_max count_max_positive
                wrap_in_range count_min count_min_negative wrap_below c Hc)
      as [Hr _].
    assert (Hcount : usage_count_ (fst (IncreaseUsage wrap c))
                     = (usage_count_ c + 1)%Z).
    { unfold IncreaseUsage.
      rewrite (@wrap_between wrap count_max wrap_in_range count_min wrap_below)
        by lia.
      destruct (usage_count_ c + 1 =? 1)%Z; reflexivity. }
    specialize (IH (fst (IncreaseUsage wrap c))
                  (@any_increase wrap count_max count_min c Hc Hlt)).
    rewrite Hcount in IH. specialize (IH Hok).
    destruct (IncreaseUsage wrap c) as [c1 l1]. cbn [fst] in IH.
    destruct (usage_run wrap rest c1) as [c2 l2]. cbn [fst] in *.
    split; [apply IH | lia].
  - apply andb_prop in Hok. destruct Hok as [Hgt Hok].
    apply Z.ltb_lt in Hgt.
    destruct (@reference_tracks_sign wrap count_max count_max_positive
                wrap_in_range count_min count_min_negative wrap_below c Hc)
      as [Hr _].
    assert (Hcount : usage_count_ (fst (DecreaseUsage wrap c))
                     = (usage_count_ c - 1)%Z).
    { unfold DecreaseUsage.
      rewrite (@wrap_between wrap count_max wrap_in_range count_min wrap_below)
        by lia.
      destruct (usage_count_ c =? 1)%Z; reflexivity. }
    specialize (IH (fst (DecreaseUsage wrap c))
                  (@any_decrease wrap count_max count_min c Hc Hgt)).
    rewrite Hcount in IH. specialize (IH Hok).
    destruct (DecreaseUsage wrap c) as [c1 l1]. cbn [fst] in IH.
    destruct (usage_run wrap rest c1) as [c2 l2]. cbn [fst] in *.
    split; [apply IH | lia].
Qed.

(** X9: counter calls in any order on a new context, decreases that answer
    no increase included, as long as the count stays in a range the type
    stores as it is: the count ends at the number of increases less the
    number of decreases, and the handle ends referenced exactly when that
    number is positive. *)
Theorem reference_follows_count (calls : list usage_call) :
  usage_within count_min count_max calls 0 = true ->
  let c := fst (usage_run wrap calls UVContext_new) in
  usage_count_ c = net calls
  /\ referenced (async_ c) = (0 <? net calls)%Z.
Proof.
  intros Hok c.
  destruct (@usage_run_any calls UVContext_new
              (any_new wrap count_max count_min) Hok)
    as [Hany Hcount].
  fold c in Hany, Hcount. simpl in Hcount.
  split; [exact Hcount|]. rewrite <- Hcount.
  exact (proj2 (@reference_tracks_sign wrap count_max count_max_positive
                  wrap_in_range count_min count_min_negative wrap_below
                  c Hany)).
Qed.

End UsageRuns.

Definition INT_MIN : Z := (- 2 ^ 31)%Z.

Lemma wrap_int_below (z : Z) : (INT_MIN <= z <= 0)%Z -> wrap_int z = z.
Proof.
  unfold wrap_int, INT_MIN. intros Hz.
  rewrite Z.mod_small by lia. lia.
Qed.

Lemma INT_MIN_negative : (INT_MIN <= 0)%Z.
Proof. unfold INT_MIN. lia. Qed.

Lemma balanced_usage_restores_witness :
  let calls := [increase; increase; decrease; increase; decrease; decrease] in
  usage_count_ (fst (usage_run wrap_int calls UVContext_new)) = 0%Z
  /\ fst (usage_run wrap_int calls UVContext_new) = UVContext_new.
Proof.
  intros calls.
  destruct (@balanced_usage_restores wrap_int INT_MAX INT_MAX_positive
              wrap_int_in_range calls UVContext_new
              (usage_new wrap_int INT_MAX) eq_refl)
    as [Hcount Hsame].
  split; [exact Hcount | exact (Hsame eq_refl)].
Defined.

Lemma loop_calls_alternate_witness :
  let calls := [increase; increase; decrease; decrease; increase] in
  alternate false (snd (usage_run wrap_int calls UVContext_new)) = Some true.
Proof.
  intros calls.
  exact (@loop_calls_alternate wrap_int INT_MAX INT_MAX_positive
           wrap_int_in_range calls UVContext_new
           (usage_new wrap_int INT_MAX) eq_refl).
Defined.

Lemma reference_follows_count_witness :
  let c := fst (usage_run wrap_int [decrease; decrease; increase] UVContext_new) in
  usage_count_ c = (-1)%Z /\ referenced (async_ c) = false.
Proof.
  exact (@reference_follows_count wrap_int INT_MAX INT_MAX_positive
           wrap_int_in_range INT_MIN INT_MIN_negative wrap_int_below
           [decrease; decrease; increase] eq_refl).
Defined.

(** *** Threads

    [Schedule], [Perform] and [ProcessPending] run on several threads at
    once, so each is a sequence of instructions, one per line of the source
    that touches the context, and a thread is the sequence it still has to
    run.  A step of the system is one instruction of one thread. *)

Inductive instr : Type :=
| Call_Schedule (f : work)         (* entry of Schedule, with line 61 *)
| Call_Perform (f : closure)       (* entry of Perform, with line 69 *)
| Call_ProcessPending
| LOCK                             (* UV_CONTEXT_LOCK *)
| UNLOCK                           (* UV_CONTEXT_UNLOCK *)
| SIGNAL                           (* UV_CONTEXT_SIGNAL *)
| WAKE                             (* the return of g_cond_wait *)
| Append (work : item)             (* line 63 *)
| Async_send                       (* line 65 *)
| Return_Schedule (work : item)
| While_not_finished (finished : flag)   (* lines 81-82 *)
| Return_Perform (finished : flag)
| While_pending                    (* lines 88-90 *)
| Invoke (work : item)             (* line 92 *)
| Delete (work : item)             (* line 93 *)
| Return_ProcessPending
| Returned_f (finished : flag)     (* line 72 has returned *)
| Set_finished (finished : flag).  (* line 75 *)

(** [UVContext::Schedule], lines 62-66, for the copy [work] of line 61 *)
Definition Schedule (work : item) : list instr :=
  [LOCK; Append work; UNLOCK; Async_send; Return_Schedule work].

(** [UVContext::Perform], lines 71-84, for the flag of line 69 *)
Definition Perform (f : closure) (finished : nat) : list instr :=
  [Call_Schedule (PerformLambda f finished);
   LOCK; While_not_finished (finished, f); UNLOCK;
   Return_Perform (finished, f)].

(** [UVContext::ProcessPending], lines 87-88 and 96 *)
Definition ProcessPending : list instr :=
  [LOCK; While_pending; UNLOCK; Return_ProcessPending].

(** The body of the loop for the element taken at lines 89-90: lines 91-94
    and back to the test. *)
Definition loop_body (work : item) : list instr :=
  [UNLOCK; Invoke work; Delete work; LOCK; While_pending].

(** A call of a closure of the caller: its [Schedule] calls. *)
Definition call (f : closure) : list instr :=
  match f with
  | Fn _ posts => map (fun g => Call_Schedule (Plain g)) posts
  end.

(** The lambda of [Perform], lines 72-77 *)
Definition lambda (f : closure) (finished : nat) : list instr :=
  call f ++ [Returned_f (finished, f);
             LOCK; Set_finished (finished, f); SIGNAL; UNLOCK].

(** The call of a queue element, line 92 *)
Definition body (w : work) : list instr :=
  match w with
  | Plain f => call f
  | PerformLambda f finished => lambda f finished
  end.

(** What a step leaves in the trace. *)
Inductive event : Type :=
| ScheduleBegin (work : item)
| Appended (work : item)
| AsyncSent
| ScheduleEnd (work : item)
| PerformBegin (finished : flag)
| Waiting (finished : flag)
| SeenFinished (finished : flag)
| PerformEnd (finished : flag)
| ProcessPendingBegin
| Popped (work : item)
| QueueEmpty
| Executing (work : item)
| Executed (work : item)
| ProcessPendingEnd
| FReturned (finished : flag)
| FinishedSet (finished : flag)
| Locked
| Unlocked
| Signalled
| Woken.

(** An event, the thread whose step it was, and the owner of the mutex when
    the step was taken. *)
Record entry : Type := { thread : tid; what : event; holder : option tid }.

Fixpoint closure_eqb (a b : closure) {struct a} : bool :=
  match a, b with
  | Fn n ps, Fn m qs =>
      Nat.eqb n m
      && (fix all_eqb (ps qs : list closure) {struct ps} : bool :=
            match ps, qs with
            | [], [] => true
            | p :: ps', q :: qs' => closure_eqb p q && all_eqb ps' qs'
            | _, _ => false
            end) ps qs
  end.

Definition flag_eqb (a b : flag) : bool :=
  Nat.eqb (fst a) (fst b) && closure_eqb (snd a) (snd b).

Definition upd {A : Type} (f : tid -> A) (t : tid) (v : A) : tid -> A :=
  fun t' => if Nat.eqb t' t then v else f t'.

Definition set_flag (fl : flag -> bool) (k : flag) (v : bool) : flag -> bool :=
  fun k' => if flag_eqb k' k then v else fl k'.

(** The context, the flags of the [Perform] activations, what each thread
    has left to run, the next free address, and the trace so far. *)
Record system : Type := {
  context : UVContext;
  finished : flag -> bool;
  stack : tid -> list instr;
  next : nat;
  trace : list entry
}.

(** The system after a step of thread [t] that leaves [stk] to run and
    records [e]. *)
Definition after (s : system) (t : tid) (c : UVContext) (fl : flag -> bool)
  (stk : list instr) (n : nat) (e : event) : system :=
  {| context := c;
     finished := fl;
     stack := upd (stack s) t stk;
     next := n;
     trace := trace s
              ++ [{| thread := t; what := e; holder := mutex_ (context s) |}] |}.

Definition owns (s : system) (t : tid) : bool :=
  match mutex_ (context s) with
  | Some o => Nat.eqb o t
  | None => false
  end.

(** One instruction [i] of thread [t], with [rest] to follow.  [None]: the
    thread cannot take the step now (the mutex is taken), or the step is
    undefined (unlocking or waiting on a mutex the thread does not own). *)
Definition exec (t : tid) (i : instr) (rest : list instr) (s : system)
  : option system :=
  let c := context s in
  let keep := after s t c (finished s) rest (next s) in
  match i with
  | Call_Schedule f =>
      let work := {| ptr := next s; fn := f |} in
      Some (after s t c (finished s) (Schedule work ++ rest) (S (next s))
              (ScheduleBegin work))
  | Call_Perform f =>
      let k := (next s, f) in
      Some (after s t c (set_flag (finished s) k false)
              (Perform f (next s) ++ rest) (S (next s)) (PerformBegin k))
  | Call_ProcessPending =>
      Some (after s t c (finished s) (ProcessPending ++ rest) (next s)
              ProcessPendingBegin)
  | LOCK =>
      match mutex_ c with
      | None =>
          Some (after s t (set_mutex c (Some t)) (finished s) rest (next s)
                  Locked)
      | Some _ => None
      end
  | UNLOCK =>
      if owns s t then
        Some (after s t (set_mutex c None) (finished s) rest (next s) Unlocked)
      else None
  | SIGNAL => Some (keep Signalled)
  | WAKE =>
      match mutex_ c with
      | None =>
          Some (after s t (set_mutex c (Some t)) (finished s) rest (next s)
                  Woken)
      | Some _ => None
      end
  | Append work =>
      Some (after s t (set_pending c (pending_ c ++ [work])) (finished s) rest
              (next s) (Appended work))
  | Async_send =>
      Some (after s t (set_async c (uv_async_send (async_ c))) (finished s)
              rest (next s) AsyncSent)
  | Return_Schedule work => Some (keep (ScheduleEnd work))
  | While_not_finished k =>
      if finished s k then Some (keep (SeenFinished k))
      else if owns s t then
        Some (after s t (set_mutex c None) (finished s)
                (WAKE :: While_not_finished k :: rest) (next s) (Waiting k))
      else None
  | Return_Perform k => Some (keep (PerformEnd k))
  | While_pending =>
      match pending_ c with
      | [] => Some (keep QueueEmpty)
      | work :: q =>
          Some (after s t (set_pending c q) (finished s)
                  (loop_body work ++ rest) (next s) (Popped work))
      end
  | Invoke work =>
      Some (after s t c (finished s) (body (fn work) ++ rest) (next s)
              (Executing work))
  | Delete work => Some (keep (Executed work))
  | Return_ProcessPending => Some (keep ProcessPendingEnd)
  | Returned_f k => Some (keep (FReturned k))
  | Set_finished k =>
      Some (after s t c (set_flag (finished s) k true) rest (next s)
              (FinishedSet k))
  end.

(** The calls a thread can make into the context. *)
Inductive api : Type :=
| api_Schedule (f : closure)
| api_Perform (f : closure).

Definition entry_point (c : api) : instr :=
  match c with
  | api_Schedule f => Call_Schedule (Plain f)
  | api_Perform f => Call_Perform f
  end.

(** What can happen next: a thread runs its next instruction; a thread with
    nothing to run calls into the context; the loop, on the script thread,
    finds the async handle signalled and runs its callback, which is
    [ProcessPending] (lines 99-113). *)
Inductive action : Type :=
| Step (t : tid)
| Enter (t : tid) (c : api)
| Dispatch.

(** A thread with nothing to run starts on [i]; the async handle becomes
    [h]. *)
Definition start (s : system) (t : tid) (i : instr) (h : uv_async_t) : system :=
  {| context := set_async (context s) h;
     finished := finished s;
     stack := upd (stack s) t [i];
     next := next s;
     trace := trace s |}.

Definition do_action (a : action) (s : system) : option system :=
  match a with
  | Step t =>
      match stack s t with
      | [] => None
      | i :: rest => exec t i rest s
      end
  | Enter t c =>
      match stack s t with
      | [] => Some (start s t (entry_point c) (async_ (context s)))
      | _ :: _ => None
      end
  | Dispatch =>
      match stack s script_thread with
      | [] =>
          if sent (async_ (context s)) then
            Some (start s script_thread Call_ProcessPending
                    (uv_async_clear (async_ (context s))))
          else None
      | _ :: _ => None
      end
  end.

(** The system around a new context: no thread has anything to run. *)
Definition init : system :=
  {| context := UVContext_new;
     finished := fun _ => false;
     stack := fun _ => [];
     next := 0;
     trace := [] |}.

Inductive reachable : system -> Prop :=
| reachable_init : reachable init
| reachable_step (s s' : system) (a : action) :
    reachable s -> do_action a s = Some s' -> reachable s'.

(** A run: the actions are taken in order; an action that cannot be taken
    is skipped. *)
Fixpoint run (acts : list action) (s : system) : system :=
  match acts with
  | [] => s
  | a :: rest =>
      match do_action a s with
      | Some s' => run rest s'
      | None => run rest s
      end
  end.

(** [n] steps of thread [t] alone. *)
Fixpoint steps (n : nat) (t : tid) (s : system) : option system :=
  match n with
  | O => Some s
  | S n' =>
      match do_action (Step t) s with
      | Some s' => steps n' t s'
      | None => None
      end
  end.

(** Projections of a trace. *)
Definition appended_of (tr : list entry) : list item :=
  flat_map (fun e => match what e with Appended w => [w] | _ => [] end) tr.

Definition executing_of (tr : list entry) : list item :=
  flat_map (fun e => match what e with Executing w => [w] | _ => [] end) tr.

Definition events (tr : list entry) : list event := map what tr.

(** *** Invariants of the threads: definitions *)

(** Induction on a closure, with the property known for what it posts. *)
Definition closure_induction (P : closure -> Prop)
  (step : forall n posts, Forall P posts -> P (Fn n posts))
  : forall c, P c :=
  fix go (c : closure) : P c :=
    match c with
    | Fn n posts =>
        step n posts
          ((fix all (ps : list closure) : Forall P ps :=
              match ps with
              | [] => Forall_nil P
              | p :: ps' => Forall_cons p (go p) (all ps')
              end) posts)
    end.

(** Whether a thread holds the mutex before an instruction, and after it:
    [LOCK] and the return of [g_cond_wait] take it, [UNLOCK] gives it back,
    the instructions of the critical sections keep it, the others run
    without it. *)
Definition lock_class (i : instr) : bool * bool :=
  match i with
  | LOCK | WAKE => (false, true)
  | UNLOCK => (true, false)
  | Append _ | While_not_finished _ | While_pending | Set_finished _ | SIGNAL =>
      (true, true)
  | _ => (false, false)
  end.

(** A stack takes and gives back the mutex in turn, starting from [held],
    and ends without it. *)
Fixpoint lock_ok (held : bool) (stk : list instr) : bool :=
  match stk with
  | [] => negb held
  | i :: rest =>
      Bool.eqb held (fst (lock_class i)) && lock_ok (snd (lock_class i)) rest
  end.

(** Instructions of [ProcessPending] and of the elements it calls. *)
Definition drain_instr (i : instr) : bool :=
  match i with
  | Call_ProcessPending | While_pending | Invoke _ | Delete _
  | Return_ProcessPending | Returned_f _ | Set_finished _ | SIGNAL => true
  | _ => false
  end.

Definition no_drain (stk : list instr) : bool :=
  forallb (fun i => negb (drain_instr i)) stk.

(** Addresses of the elements a stack is still to append. *)
Definition appends (stk : list instr) : list nat :=
  flat_map (fun i => match i with Append w => [ptr w] | _ => [] end) stk.

(** Elements taken from the queue that a stack is still to call. *)
Definition inflight (stk : list instr) : list item :=
  flat_map (fun i => match i with Invoke w => [w] | _ => [] end) stk.

(** Addresses are fresh: every element a stack is still to append, and every
    element appended so far, has its own address, below [next]. *)
Definition fresh (s : system) : Prop :=
  (forall t p, In p (appends (stack s t)) -> p < next s)
  /\ (forall w, In w (appended_of (trace s)) -> ptr w < next s)
  /\ (forall t, NoDup (appends (stack s t)))
  /\ (forall t t' p, t <> t' -> In p (appends (stack s t)) ->
                     ~ In p (appends (stack s t')))
  /\ (forall t p, In p (appends (stack s t)) ->
                  ~ In p (map ptr (appended_of (trace s))))
  /\ NoDup (map ptr (appended_of (trace s))).

(** No element is waiting to be called below a drain loop: [in_loop] says
    whether the instructions before were a loop test or the entry of
    [ProcessPending]. *)
Fixpoint one_drain (in_loop : bool) (stk : list instr) : bool :=
  match stk with
  | [] => true
  | Invoke _ :: r => negb in_loop && one_drain in_loop r
  | While_pending :: r => one_drain true r
  | Call_ProcessPending :: r => one_drain true r
  | _ :: r => one_drain in_loop r
  end.

(** Events of steps taken with the mutex held by the thread that steps. *)
Definition under_lock (e : event) : bool :=
  match e with
  | Appended _ | Popped _ | QueueEmpty | FinishedSet _ | Waiting _
  | SeenFinished _ | Signalled | Unlocked => true
  | _ => false
  end.

(** Events of steps of the drain and of the elements it calls. *)
Definition script_only (e : event) : bool :=
  match e with
  | ProcessPendingBegin | Popped _ | QueueEmpty | Executing _ | Executed _
  | ProcessPendingEnd | FReturned _ | FinishedSet _ | Signalled => true
  | _ => false
  end.

(** An entry agrees with the mutex and with the thread of the drain. *)
Definition entry_ok (e : entry) : Prop :=
  (if under_lock (what e) then holder e = Some (thread e)
   else holder e <> Some (thread e))
  /\ (script_only (what e) = true -> thread e = script_thread).

(** [preceded need give ok seen stk]: every instruction of [stk] that needs
    [a] comes after an instruction of [stk] that gives [a], or [a] is in
    [seen], or [ok a] holds already. *)
Fixpoint preceded {A : Type} (need give : instr -> option A) (ok : A -> Prop)
  (seen : list A) (stk : list instr) : Prop :=
  match stk with
  | [] => True
  | i :: r =>
      match need i with Some a => In a seen \/ ok a | None => True end
      /\ preceded need give ok
           (match give i with Some a => a :: seen | None => seen end) r
  end.

(** What the instructions of a stack need. *)
Fixpoint needs {A : Type} (need : instr -> option A) (stk : list instr)
  : list A :=
  match stk with
  | [] => []
  | i :: r => match need i with Some a => a :: needs need r | None => needs need r end
  end.

(** An instruction that neither needs nor gives. *)
Definition silent {A : Type} (need give : instr -> option A) (i : instr)
  : Prop :=
  need i = None /\ give i = None.

(** The return of [Schedule] needs its element appended. *)
Definition need_appended (i : instr) : option item :=
  match i with Return_Schedule w => Some w | _ => None end.

Definition give_appended (i : instr) : option item :=
  match i with Append w => Some w | _ => None end.

(** The entry records the event [ev]. *)
Definition did (ev : event) (e : entry) : Prop := what e = ev.

(** The entry records the event [ev], of a step of thread [t]. *)
Definition did_on (t : tid) (ev : event) (e : entry) : Prop :=
  what e = ev /\ thread e = t.

(** Setting the flag needs [f] returned. *)
Definition need_returned (i : instr) : option flag :=
  match i with Set_finished k => Some k | _ => None end.

Definition give_returned (i : instr) : option flag :=
  match i with Returned_f k => Some k | _ => None end.

(** The return of [Perform] needs the flag seen set by the loop of lines
    81-82. *)
Definition need_seen (i : instr) : option flag :=
  match i with Return_Perform k => Some k | _ => None end.

Definition give_seen (i : instr) : option flag :=
  match i with While_not_finished k => Some k | _ => None end.

(** Thread [t] has seen the flag set. *)
Definition seen_by (tr : list entry) (t : tid) (k : flag) : Prop :=
  exists e, In e tr /\ what e = SeenFinished k /\ thread e = t.

(** The return of [f] in the lambda needs the lambda called. *)
Definition need_called (i : instr) : option flag :=
  match i with Returned_f k => Some k | _ => None end.

Definition give_nothing (i : instr) : option flag := None.

(** The lambda of the activation [k] has been called. *)
Definition lambda_called (tr : list entry) (k : flag) : Prop :=
  exists w, fn w = PerformLambda (snd k) (fst k) /\ In (Executing w) (events tr).

(** *** The script thread on its own

    What the script thread sees while no other thread moves: its stack, the
    mutex, the queue, the next address, and the trace, latest entry
    first. *)
Record view : Type := {
  v_stack : list instr;
  v_mutex : option tid;
  v_pending : list item;
  v_next : nat;
  v_log : list entry
}.

(** The view the script thread has of a system. *)
Definition view_of (s : system) : view :=
  {| v_stack := stack s script_thread;
     v_mutex := mutex_ (context s);
     v_pending := pending_ (context s);
     v_next := next s;
     v_log := rev (trace s) |}.

(** An entry of the script thread, taken with the mutex held by it or
    free. *)
Definition on_script (held : bool) (e : event) : entry :=
  {| thread := script_thread; what := e;
     holder := if held then Some script_thread else None |}.

(** The view after a step that records [e]. *)
Definition seen (v : view) (stk : list instr) (m : option tid)
  (q : list item) (n : nat) (e : event) : view :=
  {| v_stack := stk; v_mutex := m; v_pending := q; v_next := n;
     v_log := {| thread := script_thread; what := e; holder := v_mutex v |}
              :: v_log v |}.

(** [exec] on the view, for the instructions of a drain. *)
Definition local_step (v : view) : option view :=
  match v_stack v with
  | [] => None
  | i :: rest =>
      let stay := seen v rest (v_mutex v) (v_pending v) (v_next v) in
      match i with
      | Call_Schedule f =>
          let work := {| ptr := v_next v; fn := f |} in
          Some (seen v (Schedule work ++ rest) (v_mutex v) (v_pending v)
                  (S (v_next v)) (ScheduleBegin work))
      | Call_ProcessPending =>
          Some (seen v (ProcessPending ++ rest) (v_mutex v) (v_pending v)
                  (v_next v) ProcessPendingBegin)
      | LOCK =>
          match v_mutex v with
          | None => Some (seen v rest (Some script_thread) (v_pending v)
                            (v_next v) Locked)
          | Some _ => None
          end
      | UNLOCK =>
          match v_mutex v with
          | Some 0 => Some (seen v rest None (v_pending v) (v_next v) Unlocked)
          | _ => None
          end
      | Append w =>
          Some (seen v rest (v_mutex v) (v_pending v ++ [w]) (v_next v)
                  (Appended w))
      | While_pending =>
          match v_pending v with
          | [] => Some (stay QueueEmpty)
          | w :: q =>
              Some (seen v (loop_body w ++ rest) (v_mutex v) q (v_next v)
                      (Popped w))
          end
      | Invoke w =>
          Some (seen v (body (fn w) ++ rest) (v_mutex v) (v_pending v)
                  (v_next v) (Executing w))
      | Async_send => Some (stay AsyncSent)
      | Return_Schedule w => Some (stay (ScheduleEnd w))
      | SIGNAL => Some (stay Signalled)
      | Delete w => Some (stay (Executed w))
      | Return_ProcessPending => Some (stay ProcessPendingEnd)
      | Returned_f k => Some (stay (FReturned k))
      | Set_finished k => Some (stay (FinishedSet k))
      | Call_Perform _ | While_not_finished _ | Return_Perform _ | WAKE => None
      end
  end.

Fixpoint local_steps (n : nat) (v : view) : option view :=
  match n with
  | O => Some v
  | S n' =>
      match local_step v with
      | Some v' => local_steps n' v'
      | None => None
      end
  end.

(** Size of a closure: the closure and everything it posts, and so on. *)
Fixpoint size (f : closure) : nat :=
  match f with
  | Fn _ posts =>
      S ((fix sum (ps : list closure) : nat :=
            match ps with
            | [] => 0
            | p :: ps' => size p + sum ps'
            end) posts)
  end.

Definition sizes (ps : list closure) : nat :=
  fold_right (fun p n => size p + n) 0 ps.

(** The closure of the caller inside a queue element. *)
Definition closure_of (w : work) : closure :=
  match w with Plain f => f | PerformLambda f _ => f end.

Definition posts_of (w : work) : list closure :=
  match closure_of w with Fn _ posts => posts end.

(** Size of what a queue holds: a bound on the calls a drain makes. *)
Definition weight (q : list item) : nat :=
  fold_right (fun w n => size (closure_of (fn w)) + n) 0 q.

(** The elements made by the [Schedule] calls of a closure, from address
    [k] on. *)
Fixpoint posted (posts : list closure) (k : nat) : list item :=
  match posts with
  | [] => []
  | g :: rest => {| ptr := k; fn := Plain g |} :: posted rest (S k)
  end.

(** **** The drain, as the specification words it *)

(** One [Schedule] call on the script thread. *)
Definition spec_schedule (w : item) : list entry :=
  [on_script false (ScheduleBegin w); on_script false Locked;
   on_script true (Appended w); on_script true Unlocked;
   on_script false AsyncSent; on_script false (ScheduleEnd w)].

(** The execution of an element: the [Schedule] calls of its closure, and
    for the lambda of [Perform] the setting of the flag. *)
Definition spec_execute (w : work) (k : nat) : list entry :=
  flat_map spec_schedule (posted (posts_of w) k)
  ++ match w with
     | Plain _ => []
     | PerformLambda f fin =>
         [on_script false (FReturned (fin, f)); on_script false Locked;
          on_script true (FinishedSet (fin, f)); on_script true Signalled;
          on_script true Unlocked]
     end.

(** Holding the lock: take the head of the queue, release the lock, execute
    the element, free it, take the lock again; repeat until the queue is
    seen empty under the lock. *)
Fixpoint spec_loop (fuel : nat) (q : list item) (k : nat) : list entry :=
  match fuel with
  | O => []
  | S fuel' =>
      match q with
      | [] => [on_script true QueueEmpty]
      | w :: q' =>
          [on_script true (Popped w); on_script true Unlocked;
           on_script false (Executing w)]
          ++ spec_execute (fn w) k
          ++ [on_script false (Executed w); on_script false Locked]
          ++ spec_loop fuel' (q' ++ posted (posts_of (fn w)) k)
               (k + List.length (posts_of (fn w)))
      end
  end.

(** A whole drain of the queue [q], with [k] the next free address. *)
Definition spec_ProcessPending (q : list item) (k : nat) : list entry :=
  [on_script false ProcessPendingBegin; on_script false Locked]
  ++ spec_loop (S (weight q)) q k
  ++ [on_script true Unlocked; on_script false ProcessPendingEnd].

(** *** More invariants of the threads: definitions *)

(** Instructions of [Perform] itself. *)
Definition perform_instr (i : instr) : bool :=
  match i with
  | Call_Perform _ | While_not_finished _ | Return_Perform _ => true
  | _ => false
  end.

(** Instructions after which [ProcessPending] still tests the queue. *)
Definition tests_queue (i : instr) : bool :=
  match i with
  | Call_ProcessPending | While_pending => true
  | _ => false
  end.

Definition is_Async_send (i : instr) : bool :=
  match i with
  | Async_send => true
  | _ => false
  end.

(** Every append of a stack is followed by a signal to the loop. *)
Fixpoint signals_after_append (stk : list instr) : bool :=
  match stk with
  | [] => true
  | Append _ :: r => existsb is_Async_send r && signals_after_append r
  | _ :: r => signals_after_append r
  end.

(** The instructions of the call of a queue element. *)
Definition body_instr (i : instr) : Prop :=
  match i with
  | Call_Schedule (Plain _) | Returned_f _ | LOCK | Set_finished _ | SIGNAL
  | UNLOCK => True
  | _ => False
  end.

(** What the trace says before a stack gets an instruction: an append comes
    after the entry of its [Schedule], the [Schedule] of a lambda after the
    entry of its [Perform]. *)
Definition announced (i : instr) : option event :=
  match i with
  | Append w => Some (ScheduleBegin w)
  | Call_Schedule (PerformLambda f k) => Some (PerformBegin (k, f))
  | _ => None
  end.

(** The elements deleted so far (line 93). *)
Definition executed_of (tr : list entry) : list item :=
  flat_map (fun e => match what e with Executed w => [w] | _ => [] end) tr.

(** Elements a stack is still to delete. *)
Definition deletes (stk : list instr) : list item :=
  flat_map (fun i => match i with Delete w => [w] | _ => [] end) stk.

Definition need_invoked (i : instr) : option item :=
  match i with Delete w => Some w | _ => None end.

Definition give_invoked (i : instr) : option item :=
  match i with Invoke w => Some w | _ => None end.

(** *** The closure of a lambda, and the condition: definitions *)






Definition is_Returned_f (i : instr) : bool :=
  match i with Returned_f _ => true | _ => false end.

(** No closure of a lambda is still to return. *)
Definition lambda_free (stk : list instr) : bool :=
  forallb (fun i => negb (is_Returned_f i)) stk.



(** The steps of a trace: who did what. *)
Definition steps_of (tr : list entry) : list (tid * event) :=
  map (fun e => (thread e, what e)) tr.

(** The condition variable, replayed over the steps of a run.  [parked] are
    the threads inside [g_cond_wait], [released] those among them that a
    [g_cond_signal] has woken and that have not yet taken the mutex back.  A
    signal wakes a waiter; which one, when there are several, is not
    known, so only a signal that finds one waiter counts as waking it.
    [None]: some thread left [g_cond_wait] without such a signal. *)
Fixpoint cond_replay (parked released : list tid) (l : list (tid * event))
  : option (list tid * list tid) :=
  match l with
  | [] => Some (parked, released)
  | (t, ev) :: rest =>
      match ev with
      | Waiting _ => cond_replay (t :: parked) released rest
      | Signalled =>
          match parked with
          | [u] => cond_replay [] (u :: released) rest
          | _ => cond_replay parked released rest
          end
      | Woken =>
          if existsb (Nat.eqb t) released
          then cond_replay parked (remove Nat.eq_dec t released) rest
          else None
      | _ => cond_replay parked released rest
      end
  end.

(** Steps that neither enter nor leave [g_cond_wait]. *)
Definition no_wait (st : tid * event) : bool :=
  match snd st with
  | Waiting _ | Woken => false
  | _ => true
  end.

(** *** Invariants of the threads: proofs *)

(** [closure_eqb] decides equality. *)
Lemma closure_eqb_eq (a b : closure) : closure_eqb a b = true <-> a = b.
Proof.
  revert b. induction a as [n posts IH] using closure_induction.
  intros [m qs]. simpl.
  rewrite andb_true_iff, Nat.eqb_eq.
  assert (Hall : forall qs,
    (fix all_eqb (ps qs : list closure) {struct ps} : bool :=
       match ps, qs with
       | [], [] => true
       | p :: ps', q :: qs' => closure_eqb p q && all_eqb ps' qs'
       | _, _ => false
       end) posts qs = true <-> posts = qs).
  { clear qs. induction IH as [|p ps Hp _ IHps]; intros [|q qs]; simpl;
      try (split; [discriminate|discriminate]); try tauto.
    rewrite andb_true_iff, Hp, IHps. split.
    - intros [-> ->]. reflexivity.
    - intros H. injection H as -> ->. split; reflexivity. }
  rewrite Hall. split.
  - intros [-> ->]. reflexivity.
  - intros H. injection H as -> ->. split; reflexivity.
Qed.

Lemma flag_eqb_eq (a b : flag) : flag_eqb a b = true <-> a = b.
Proof.
  destruct a as [k f], b as [k' f']. unfold flag_eqb. simpl.
  rewrite andb_true_iff, Nat.eqb_eq, closure_eqb_eq. split.
  - intros [-> ->]. reflexivity.
  - intros H. injection H as -> ->. split; reflexivity.
Qed.

Lemma upd_same {A : Type} (f : tid -> A) (t : tid) (v : A) : upd f t v t = v.
Proof. unfold upd. rewrite Nat.eqb_refl. reflexivity. Qed.

Lemma upd_other {A : Type} (f : tid -> A) (t t' : tid) (v : A) :
  t' <> t -> upd f t v t' = f t'.
Proof.
  intros Hne. unfold upd. destruct (Nat.eqb_spec t' t); [contradiction|reflexivity].
Qed.

Ltac exec_inv H :=
  unfold exec in H;
  repeat match type of H with
  | match ?x with _ => _ end = Some _ => destruct x eqn:?
  | (if ?b then _ else _) = Some _ => destruct b eqn:?
  end; try discriminate H; injection H as <-.

(** An action is a step of a thread that has an instruction to run, or the
    start of a thread that has none. *)
Lemma do_action_inv (a : action) (s s' : system) :
  do_action a s = Some s' ->
  exists t,
    (exists i rest, stack s t = i :: rest /\ exec t i rest s = Some s')
    \/ (exists i h, stack s t = [] /\ s' = start s t i h
                    /\ ((exists f, i = Call_Schedule (Plain f))
                        \/ (exists f, i = Call_Perform f)
                        \/ (i = Call_ProcessPending /\ t = script_thread))).
Proof.
  destruct a as [t | t c | ]; simpl.
  - destruct (stack s t) as [|i rest] eqn:Hstk; [discriminate|].
    intros H. exists t. left. exists i, rest. split; [exact Hstk | exact H].
  - destruct (stack s t) eqn:Hstk; [|discriminate].
    intros H. injection H as <-. exists t. right.
    exists (entry_point c), (async_ (context s)).
    split; [exact Hstk|]. split; [reflexivity|].
    destruct c as [f | f]; [left | right; left]; exists f; reflexivity.
  - destruct (stack s script_thread) eqn:Hstk; [|discriminate].
    destruct (sent (async_ (context s))); [|discriminate].
    intros H. injection H as <-. exists script_thread. right.
    exists Call_ProcessPending, (uv_async_clear (async_ (context s))).
    split; [exact Hstk|]. split; [reflexivity|]. right. right.
    split; reflexivity.
Qed.

Tactic Notation "action_inv" hyp(H) ident(t) ident(i) ident(rest) ident(Hstk) :=
  apply do_action_inv in H;
  destruct H as (t & [(i & rest & Hstk & H)
                     | (i & ? & Hstk & -> & [(? & ->) | [(? & ->) | [-> ?]]])]);
  [exec_inv H| | |].

Lemma lock_ok_call (f : closure) (rest : list instr) :
  lock_ok false (call f ++ rest) = lock_ok false rest.
Proof.
  destruct f as [n posts]. simpl.
  induction posts as [|g posts IH]; simpl; [reflexivity | exact IH].
Qed.

Lemma lock_ok_body (w : work) (rest : list instr) :
  lock_ok false (body w ++ rest) = lock_ok false rest.
Proof.
  destruct w as [f | f k]; simpl; [apply lock_ok_call|].
  unfold lambda. rewrite <- app_assoc, lock_ok_call. reflexivity.
Qed.

Ltac eqb_cases :=
  repeat match goal with
  | |- context [Nat.eqb ?a ?b] => destruct (Nat.eqb_spec a b)
  | H : context [Nat.eqb ?a ?b] |- _ => destruct (Nat.eqb_spec a b)
  end.

(** Every thread takes and gives back the mutex in turn, and holds it exactly
    inside its critical sections. *)
Lemma lock_discipline (s : system) :
  reachable s -> forall t, lock_ok (owns s t) (stack s t) = true.
Proof.
  induction 1 as [|s s' a Hs IH Hstep]; intros t'; [reflexivity|].
  action_inv Hstep t i rest Hstk;
    pose proof (IH t) as IHt; pose proof (IH t') as IHt';
    try rewrite Hstk in IHt; unfold owns in *; simpl in *; unfold upd;
    try rewrite lock_ok_body;
    destruct (mutex_ (context s)) as [o|]; simpl in *;
    eqb_cases; subst; simpl in *; try congruence;
    repeat match goal with
    | H : _ && _ = true |- _ => apply andb_prop in H; destruct H
    end;
    try discriminate; try assumption; try reflexivity;
    try (rewrite lock_ok_body; assumption).
Qed.

(** Only the script thread runs [ProcessPending] and the elements. *)
Lemma only_script_drains (s : system) :
  reachable s -> forall t, t <> script_thread -> no_drain (stack s t) = true.
Proof.
  induction 1 as [|s s' a Hs IH Hstep]; intros t' Hne; [reflexivity|].
  action_inv Hstep t i rest Hstk;
    pose proof (IH t') as IHt'; simpl; unfold upd;
    destruct (Nat.eqb_spec t' t); subst; try (apply IHt'; assumption);
    specialize (IHt' Hne); try rewrite Hstk in IHt'; simpl in *;
    try discriminate; try assumption; try reflexivity.
  contradiction.
Qed.

Lemma NoDup_snoc {A : Type} (l : list A) (x : A) :
  NoDup l -> ~ In x l -> NoDup (l ++ [x]).
Proof.
  induction l as [|y l IH]; simpl; intros Hnd Hni.
  - constructor; [intros []|constructor].
  - inversion Hnd as [|? ? Hy Hl]; subst. constructor.
    + rewrite in_app_iff. simpl. intros [Hin | [-> | []]]; [exact (Hy Hin)|].
      apply Hni. left. reflexivity.
    + apply IH; [exact Hl|]. intros Hin. apply Hni. right. exact Hin.
Qed.

Lemma appends_app (p r : list instr) : appends (p ++ r) = appends p ++ appends r.
Proof. apply flat_map_app. Qed.

Lemma inflight_app (p r : list instr) :
  inflight (p ++ r) = inflight p ++ inflight r.
Proof. apply flat_map_app. Qed.

Lemma appends_call (f : closure) : appends (call f) = [].
Proof.
  destruct f as [n posts]. simpl.
  induction posts as [|g posts IH]; simpl; [reflexivity | exact IH].
Qed.

Lemma appends_body (w : work) : appends (body w) = [].
Proof.
  destruct w as [f | f k]; simpl; [apply appends_call|].
  unfold lambda. rewrite appends_app, appends_call. reflexivity.
Qed.

Lemma inflight_call (f : closure) : inflight (call f) = [].
Proof.
  destruct f as [n posts]. simpl.
  induction posts as [|g posts IH]; simpl; [reflexivity | exact IH].
Qed.

Lemma inflight_body (w : work) : inflight (body w) = [].
Proof.
  destruct w as [f | f k]; simpl; [apply inflight_call|].
  unfold lambda. rewrite inflight_app, inflight_call. reflexivity.
Qed.

Lemma appended_of_snoc (tr : list entry) (e : entry) :
  appended_of (tr ++ [e])
  = appended_of tr ++ match what e with Appended w => [w] | _ => [] end.
Proof.
  unfold appended_of. rewrite flat_map_app. simpl. rewrite app_nil_r.
  reflexivity.
Qed.

Lemma executing_of_snoc (tr : list entry) (e : entry) :
  executing_of (tr ++ [e])
  = executing_of tr ++ match what e with Executing w => [w] | _ => [] end.
Proof.
  unfold executing_of. rewrite flat_map_app. simpl. rewrite app_nil_r.
  reflexivity.
Qed.

(** What a step does to the addresses in play. *)
Lemma exec_appends (t : tid) (i : instr) (rest : list instr) (s s' : system) :
  exec t i rest s = Some s' ->
  (forall t', t' <> t -> stack s' t' = stack s t')
  /\ ((exists f, i = Call_Schedule f
                 /\ appends (stack s' t) = next s :: appends rest
                 /\ appended_of (trace s') = appended_of (trace s)
                 /\ next s' = S (next s))
      \/ (exists w, i = Append w
                    /\ appends (stack s' t) = appends rest
                    /\ appended_of (trace s') = appended_of (trace s) ++ [w]
                    /\ next s' = next s)
      \/ (appends (i :: rest) = appends rest
          /\ appends (stack s' t) = appends rest
          /\ appended_of (trace s') = appended_of (trace s)
          /\ next s <= next s')).
Proof.
  intros H. split.
  { intros t' Hne. exec_inv H; simpl; apply upd_other; assumption. }
  exec_inv H; simpl; rewrite upd_same, appended_of_snoc; simpl;
    rewrite ?app_nil_r, ?appends_app, ?appends_body;
    first [ left; eexists; repeat split; reflexivity
          | right; left; eexists; repeat split; reflexivity
          | right; right; repeat split; auto ].
Qed.

Lemma start_appends (s : system) (t : tid) (i : instr) (h : uv_async_t) :
  appends [i] = [] -> stack s t = [] ->
  forall t', appends (stack (start s t i h) t') = appends (stack s t').
Proof.
  intros Hi Hstk t'. simpl. unfold upd.
  destruct (Nat.eqb_spec t' t); [subst; rewrite Hstk; exact Hi | reflexivity].
Qed.

Lemma fresh_start (s : system) (t : tid) (i : instr) (h : uv_async_t) :
  appends [i] = [] -> stack s t = [] -> fresh s -> fresh (start s t i h).
Proof.
  intros Hi Hstk (F1 & F2 & F3 & F4 & F5 & F6).
  pose proof (@start_appends s t i h Hi Hstk) as Heq.
  unfold fresh. repeat split.
  - intros t' p. rewrite Heq. apply F1.
  - exact F2.
  - intros t'. rewrite Heq. apply F3.
  - intros t1 t2 p. rewrite !Heq. apply F4.
  - intros t' p. rewrite Heq. apply F5.
  - exact F6.
Qed.

(** Addresses stay fresh. *)
Lemma fresh_items (s : system) : reachable s -> fresh s.
Proof.
  induction 1 as [|s s' a Hs IH Hstep].
  { unfold fresh. simpl. repeat split; try (intros; contradiction);
      intros; constructor. }
  apply do_action_inv in Hstep.
  destruct Hstep as (t & [(i & rest & Hstk & Hexec)
                         | (i & h & Hstk & -> & Hi)]).
  2:{ apply fresh_start; try assumption.
      destruct Hi as [(f & ->) | [(f & ->) | [-> _]]]; reflexivity. }
  destruct IH as (F1 & F2 & F3 & F4 & F5 & F6).
  pose proof Hexec as Hx. apply exec_appends in Hx.
  destruct Hx as [Hother Hcases].
  assert (Hold : appends (stack s t) = appends (i :: rest))
    by (rewrite Hstk; reflexivity).
  assert (Hstk' : forall t', t' <> t ->
            appends (stack s' t') = appends (stack s t'))
    by (intros t' Hne; rewrite Hother by assumption; reflexivity).
  destruct Hcases as [(f & -> & Ha & Htr & Hn)
                     | [(w & -> & Ha & Htr & Hn) | (Hsame & Ha & Htr & Hn)]].
  - (* Call_Schedule: a new address *)
    simpl in Hold.
    assert (Hrest : forall p, In p (appends rest) -> p < next s)
      by (intros p Hp; apply (F1 t); rewrite Hold; exact Hp).
    unfold fresh. rewrite Htr, Hn. repeat split.
    + intros t' p. destruct (Nat.eq_dec t' t) as [->|Hne].
      * rewrite Ha. intros [<- | Hp]; [lia|]. specialize (Hrest p Hp). lia.
      * rewrite Hstk' by assumption. intros Hp. specialize (F1 t' p Hp). lia.
    + intros w Hw. specialize (F2 w Hw). lia.
    + intros t'. destruct (Nat.eq_dec t' t) as [->|Hne].
      * rewrite Ha. constructor.
        -- intros Hin. specialize (Hrest _ Hin). lia.
        -- specialize (F3 t). rewrite Hold in F3. exact F3.
      * rewrite Hstk' by assumption. apply F3.
    + intros t1 t2 p Hne.
      destruct (Nat.eq_dec t1 t) as [->|H1]; destruct (Nat.eq_dec t2 t) as [->|H2];
        try contradiction.
      * rewrite Ha, Hstk' by assumption. intros [<- | Hp] Hq.
        -- specialize (F1 t2 _ Hq). lia.
        -- apply (F4 t t2 p Hne); [rewrite Hold; exact Hp | exact Hq].
      * rewrite Ha, Hstk' by assumption. intros Hp [<- | Hq].
        -- specialize (F1 t1 _ Hp). lia.
        -- apply (F4 t1 t p Hne); [exact Hp | rewrite Hold; exact Hq].
      * rewrite !Hstk' by assumption. apply F4. exact Hne.
    + intros t' p. destruct (Nat.eq_dec t' t) as [->|Hne].
      * rewrite Ha. intros [<- | Hp] Hin.
        -- apply in_map_iff in Hin. destruct Hin as (w & Hw & Hin).
           specialize (F2 w Hin). lia.
        -- apply (F5 t p); [rewrite Hold; exact Hp | exact Hin].
      * rewrite Hstk' by assumption. apply F5.
    + exact F6.
  - (* Append: the address moves from the stack to the trace *)
    simpl in Hold.
    assert (Hw : ~ In (ptr w) (appends rest)).
    { specialize (F3 t). rewrite Hold in F3. inversion F3. assumption. }
    unfold fresh. rewrite Htr, Hn. repeat split.
    + intros t' p. destruct (Nat.eq_dec t' t) as [->|Hne].
      * rewrite Ha. intros Hp. apply (F1 t). rewrite Hold. right. exact Hp.
      * rewrite Hstk' by assumption. apply F1.
    + intros w' Hin. apply in_app_or in Hin. destruct Hin as [Hin | [<- | []]].
      * apply F2. exact Hin.
      * apply (F1 t). rewrite Hold. left. reflexivity.
    + intros t'. destruct (Nat.eq_dec t' t) as [->|Hne].
      * rewrite Ha. specialize (F3 t). rewrite Hold in F3. inversion F3.
        assumption.
      * rewrite Hstk' by assumption. apply F3.
    + intros t1 t2 p Hne.
      destruct (Nat.eq_dec t1 t) as [->|H1]; destruct (Nat.eq_dec t2 t) as [->|H2];
        try contradiction.
      * rewrite Ha, Hstk' by assumption. intros Hp.
        apply (F4 t t2 p Hne). rewrite Hold. right. exact Hp.
      * rewrite Ha, Hstk' by assumption. intros Hp Hq.
        apply (F4 t1 t p Hne); [exact Hp | rewrite Hold; right; exact Hq].
      * rewrite !Hstk' by assumption. apply F4. exact Hne.
    + intros t' p Hp. rewrite map_app. simpl. intros Hin.
      apply in_app_or in Hin.
      destruct (Nat.eq_dec t' t) as [->|Hne].
      * rewrite Ha in Hp. destruct Hin as [Hin | [<- | []]].
        -- apply (F5 t p); [rewrite Hold; right; exact Hp | exact Hin].
        -- exact (Hw Hp).
      * rewrite Hstk' in Hp by assumption. destruct Hin as [Hin | [<- | []]].
        -- exact (F5 t' p Hp Hin).
        -- apply (F4 t' t (ptr w) Hne Hp). rewrite Hold. left. reflexivity.
    + rewrite map_app. simpl. apply NoDup_snoc; [exact F6|].
      apply (F5 t). rewrite Hold. left. reflexivity.
  - (* any other step *)
    assert (Hnew : appends (stack s' t) = appends (stack s t))
      by (rewrite Ha, Hold, Hsame; reflexivity).
    assert (Hall : forall t', appends (stack s' t') = appends (stack s t')).
    { intros t'. destruct (Nat.eq_dec t' t) as [->|Hne];
        [exact Hnew | apply Hstk'; exact Hne]. }
    unfold fresh. rewrite Htr. repeat split.
    + intros t' p. rewrite Hall. intros Hp. specialize (F1 t' p Hp). lia.
    + intros w Hw. specialize (F2 w Hw). lia.
    + intros t'. rewrite Hall. apply F3.
    + intros t1 t2 p. rewrite !Hall. apply F4.
    + intros t' p. rewrite Hall. apply F5.
    + exact F6.
Qed.

Lemma one_drain_inflight (r : list instr) :
  one_drain true r = true -> inflight r = [].
Proof.
  induction r as [|i r IH]; simpl; [reflexivity|].
  destruct i; simpl; try exact IH. discriminate.
Qed.

Lemma one_drain_weaken (r : list instr) :
  one_drain true r = true -> one_drain false r = true.
Proof.
  induction r as [|i r IH]; simpl; [reflexivity|].
  destruct i; simpl; try exact IH; try tauto. discriminate.
Qed.

Lemma one_drain_call (b : bool) (f : closure) (r : list instr) :
  one_drain b (call f ++ r) = one_drain b r.
Proof.
  destruct f as [n posts]. simpl.
  induction posts as [|g posts IH]; simpl; [reflexivity | exact IH].
Qed.

Lemma one_drain_body (b : bool) (w : work) (r : list instr) :
  one_drain b (body w ++ r) = one_drain b r.
Proof.
  destruct w as [f | f k]; simpl; [apply one_drain_call|].
  unfold lambda. rewrite <- app_assoc, one_drain_call. reflexivity.
Qed.

(** A stack has at most one element taken and not yet called. *)
Lemma single_drain (s : system) :
  reachable s -> forall t, one_drain false (stack s t) = true.
Proof.
  induction 1 as [|s s' a Hs IH Hstep]; intros t'; [reflexivity|].
  action_inv Hstep t i rest Hstk;
    pose proof (IH t) as IHt; pose proof (IH t') as IHt';
    try rewrite Hstk in IHt; simpl in *; unfold upd;
    destruct (Nat.eqb_spec t' t); subst; try assumption; try reflexivity;
    rewrite ?one_drain_body; try assumption.
  apply one_drain_weaken. assumption.
Qed.

(** What a step does to the queue and to the elements on their way. *)
Lemma exec_queue (t : tid) (i : instr) (rest : list instr) (s s' : system) :
  exec t i rest s = Some s' ->
  (exists w, i = Append w
     /\ pending_ (context s') = pending_ (context s) ++ [w]
     /\ appended_of (trace s') = appended_of (trace s) ++ [w]
     /\ executing_of (trace s') = executing_of (trace s)
     /\ inflight (stack s' t) = inflight rest)
  \/ (exists w, i = While_pending
     /\ pending_ (context s) = w :: pending_ (context s')
     /\ appended_of (trace s') = appended_of (trace s)
     /\ executing_of (trace s') = executing_of (trace s)
     /\ inflight (stack s' t) = w :: inflight rest)
  \/ (exists w, i = Invoke w
     /\ pending_ (context s') = pending_ (context s)
     /\ appended_of (trace s') = appended_of (trace s)
     /\ executing_of (trace s') = executing_of (trace s) ++ [w]
     /\ inflight (stack s' t) = inflight rest)
  \/ (inflight (i :: rest) = inflight rest
     /\ pending_ (context s') = pending_ (context s)
     /\ appended_of (trace s') = appended_of (trace s)
     /\ executing_of (trace s') = executing_of (trace s)
     /\ inflight (stack s' t) = inflight rest).
Proof.
  intros H.
  exec_inv H; simpl; rewrite upd_same, appended_of_snoc, executing_of_snoc;
    simpl; rewrite ?app_nil_r, ?inflight_app, ?inflight_body;
    first [ left; eexists; repeat split; (reflexivity || eassumption)
          | right; left; eexists; repeat split; (reflexivity || eassumption)
          | right; right; left; eexists; repeat split; reflexivity
          | right; right; right; repeat split; auto ].
Qed.

(** The queue is what was appended and not yet taken, in the order of
    appending; what was taken is being called or has begun to be called. *)
Lemma queue_is_fifo (s : system) :
  reachable s ->
  appended_of (trace s)
  = executing_of (trace s) ++ inflight (stack s script_thread)
    ++ pending_ (context s).
Proof.
  induction 1 as [|s s' a Hs IH Hstep]; [reflexivity|].
  pose proof (only_script_drains Hs) as HD.
  pose proof (single_drain Hs) as HS.
  apply do_action_inv in Hstep.
  destruct Hstep as (t & [(i & rest & Hstk & Hexec)
                         | (i & h & Hstk & -> & Hi)]).
  2:{ simpl. unfold upd. destruct (Nat.eqb_spec script_thread t) as [<-|Hne];
        [|exact IH].
      rewrite Hstk in IH.
      destruct Hi as [(f & ->) | [(f & ->) | [-> _]]]; exact IH. }
  pose proof Hexec as Hx. apply exec_appends in Hx. destruct Hx as [Hother _].
  pose proof Hexec as Hq. apply exec_queue in Hq.
  destruct (Nat.eq_dec t script_thread) as [->|Hne].
  - rewrite Hstk in IH. specialize (HS script_thread). rewrite Hstk in HS.
    destruct Hq as [(w & -> & Hp & Ha & He & Hf)
                   | [(w & -> & Hp & Ha & He & Hf)
                     | [(w & -> & Hp & Ha & He & Hf)
                       | (Hsame & Hp & Ha & He & Hf)]]];
      rewrite Ha, He, Hf.
    + rewrite Hp, IH. simpl. rewrite !app_assoc. reflexivity.
    + rewrite Hp in IH. simpl in HS, IH.
      rewrite (one_drain_inflight _ HS) in *. simpl in *. exact IH.
    + rewrite Hp, IH. simpl. rewrite <- app_assoc. reflexivity.
    + rewrite Hp, IH, Hsame. reflexivity.
  - rewrite (Hother script_thread) by (intros Heq; apply Hne; symmetry; exact Heq).
    specialize (HD t Hne). rewrite Hstk in HD. simpl in HD.
    destruct Hq as [(w & -> & Hp & Ha & He & Hf)
                   | [(w & -> & Hp & Ha & He & Hf)
                     | [(w & -> & Hp & Ha & He & Hf)
                       | (Hsame & Hp & Ha & He & Hf)]]];
      try discriminate HD; rewrite Ha, He, Hp, IH.
    + rewrite !app_assoc. reflexivity.
    + reflexivity.
Qed.

Lemma owns_true (s : system) (t : tid) :
  owns s t = true -> mutex_ (context s) = Some t.
Proof.
  unfold owns. destruct (mutex_ (context s)) as [o|]; [|discriminate].
  intros H. apply Nat.eqb_eq in H. subst. reflexivity.
Qed.

Lemma owns_false (s : system) (t : tid) :
  owns s t = false -> mutex_ (context s) <> Some t.
Proof.
  unfold owns. destruct (mutex_ (context s)) as [o|]; [|discriminate].
  intros H Heq. injection Heq as ->. rewrite Nat.eqb_refl in H. discriminate.
Qed.

Lemma exec_trace (t : tid) (i : instr) (rest : list instr) (s s' : system) :
  exec t i rest s = Some s' ->
  exists e, trace s' = trace s ++ [e] /\ thread e = t
            /\ holder e = mutex_ (context s).
Proof.
  intros H. exec_inv H; simpl; eexists; repeat split; simpl; congruence.
Qed.

(** Every entry of a reachable trace agrees with the mutex and with the
    thread of the drain. *)
Lemma trace_entries_ok (s : system) :
  reachable s -> Forall entry_ok (trace s).
Proof.
  induction 1 as [|s s' a Hs IH Hstep]; [constructor|].
  pose proof (only_script_drains Hs) as HD.
  pose proof (lock_discipline Hs) as HW.
  apply do_action_inv in Hstep.
  destruct Hstep as (t & [(i & rest & Hstk & Hexec)
                         | (i & h & Hstk & -> & Hi)]); [|exact IH].
  specialize (HW t). rewrite Hstk in HW. simpl in HW.
  apply andb_prop in HW. destruct HW as [HW _].
  apply Bool.eqb_prop in HW.
  assert (Hscript : drain_instr i = true -> t = script_thread).
  { intros Hd. destruct (Nat.eq_dec t script_thread) as [->|Hne];
      [reflexivity|].
    specialize (HD t Hne). rewrite Hstk in HD. simpl in HD.
    rewrite Hd in HD. discriminate. }
  assert (Hheld : if fst (lock_class i)
                  then mutex_ (context s) = Some t
                  else mutex_ (context s) <> Some t).
  { destruct (fst (lock_class i)); [apply owns_true | apply owns_false];
      exact HW. }
  clear HW HD.
  exec_inv Hexec; simpl; apply Forall_app; (split; [exact IH|]);
    (apply Forall_cons; [|apply Forall_nil]); unfold entry_ok; simpl in *;
    (split; [assumption || congruence | try discriminate; auto]).
Qed.

(** *** An instruction that waits for another *)

Section Preceded.
Variable A : Type.
Variables need give : instr -> option A.

(** [preceded] carries over to a state where more is given or known. *)
Lemma preceded_transfer (ok ok' : A -> Prop) (stk : list instr) :
  forall seen seen',
  (forall x, In x (needs need stk) -> In x seen \/ ok x -> In x seen' \/ ok' x) ->
  preceded need give ok seen stk -> preceded need give ok' seen' stk.
Proof.
  induction stk as [|i r IH]; simpl; intros seen seen' Hx H; [exact I|].
  destruct H as [Hneed Hrest]. split.
  - destruct (need i) as [a|]; [|exact I]. apply Hx; [left; reflexivity|].
    exact Hneed.
  - apply IH with (seen := match give i with Some a => a :: seen | None => seen end);
      [|exact Hrest].
    intros x Hin Hor.
    assert (Hin' : In x (needs need (i :: r))).
    { simpl. destruct (need i); [right|]; exact Hin. }
    destruct (give i) as [g|]; [|exact (Hx x Hin' Hor)].
    destruct Hor as [[<- | Hs] | Hok].
    + left. left. reflexivity.
    + destruct (Hx x Hin' (or_introl Hs)) as [H1 | H2];
        [left; right; exact H1 | right; exact H2].
    + destruct (Hx x Hin' (or_intror Hok)) as [H1 | H2];
        [left; right; exact H1 | right; exact H2].
Qed.

(** Silent instructions in front change nothing. *)
Lemma preceded_skip (ok : A -> Prop) (seen : list A) (p r : list instr) :
  Forall (silent need give) p ->
  (preceded need give ok seen (p ++ r) <-> preceded need give ok seen r).
Proof.
  induction 1 as [|i p [Hn Hg] _ IH]; simpl; [tauto|].
  rewrite Hn, Hg. tauto.
Qed.

Hypothesis call_silent : forall f, silent need give (Call_Schedule f).

Lemma call_is_silent (f : closure) : Forall (silent need give) (call f).
Proof.
  destruct f as [n posts]. simpl.
  induction posts as [|g posts IH]; simpl; constructor;
    [apply call_silent | exact IH].
Qed.

End Preceded.

(** *** Facts about every step, read off the trace *)

Lemma trace_not_longer (l : list entry) (e : entry) : l <> l ++ [e].
Proof.
  intros H. apply (f_equal (@List.length entry)) in H.
  rewrite length_app in H. simpl in H. lia.
Qed.

(** If each step that records [e] does so in a trace [tr] with [R tr e],
    then every entry of a reachable trace stands in [R] to what precedes
    it. *)
Lemma trace_induction (R : list entry -> entry -> Prop) :
  (forall s s' a e, reachable s -> do_action a s = Some s' ->
                    trace s' = trace s ++ [e] -> R (trace s) e) ->
  forall s, reachable s ->
  forall a e b, trace s = a ++ e :: b -> R a e.
Proof.
  intros Hstep s Hs.
  induction Hs as [|s s' act Hs IH Hact]; intros a e b Htr.
  { destruct a; discriminate Htr. }
  pose proof Hact as Hact'. apply do_action_inv in Hact'.
  destruct Hact' as (t & [(i & rest & Hstk & Hexec)
                         | (i & h & Hstk & -> & Hi)]).
  - apply exec_trace in Hexec. destruct Hexec as (e0 & He0 & _).
    rewrite He0 in Htr. apply snoc_split in Htr.
    destruct Htr as [(-> & -> & ->) | (b' & -> & Htr)].
    + exact (Hstep s s' act e0 Hs Hact He0).
    + exact (IH a e b' Htr).
  - exact (IH a e b Htr).
Qed.

Tactic Notation "logged_step" hyp(Hact) hyp(Htr) ident(t) ident(i) ident(rest) ident(Hstk) :=
  apply do_action_inv in Hact;
  destruct Hact as (t & [(i & rest & Hstk & Hact) | (i & ? & Hstk & -> & ?)]);
  [ exec_inv Hact; simpl in Htr; apply app_inj_tail in Htr;
    destruct Htr as [_ <-]
  | exfalso; exact (@trace_not_longer _ _ Htr) ].

Lemma body_silent (A : Type) (need give : instr -> option A) (w : work)
  (ok : A -> Prop) (seen : list A) (rest : list instr) :
  (forall f, silent need give (Call_Schedule f)) ->
  preceded need give ok seen (body w ++ rest)
  <-> match w with
      | Plain _ => preceded need give ok seen rest
      | PerformLambda f k =>
          preceded need give ok seen
            ([Returned_f (k, f); LOCK; Set_finished (k, f); SIGNAL; UNLOCK]
             ++ rest)
      end.
Proof.
  intros Hs. destruct w as [f | f k]; simpl body.
  - apply preceded_skip. apply call_is_silent. exact Hs.
  - unfold lambda. rewrite <- app_assoc. apply preceded_skip.
    apply call_is_silent. exact Hs.
Qed.

Ltac transfer_from H :=
  eapply preceded_transfer; [|exact H];
  let x := fresh "x" in let Hor := fresh "Hor" in
  intros x _ Hor; simpl in *;
  rewrite ?appended_of_snoc; simpl; rewrite ?app_nil_r, ?in_app_iff;
  simpl; tauto.

(** In every stack the return of [Schedule] comes after the append. *)
Lemma append_before_return (s : system) :
  reachable s ->
  forall t, preceded need_appended give_appended
              (fun w => In w (appended_of (trace s))) [] (stack s t).
Proof.
  induction 1 as [|s s' a Hs IH Hstep]; intros t'; [exact I|].
  action_inv Hstep t i rest Hstk;
    pose proof (IH t) as IHt; pose proof (IH t') as IHt';
    try rewrite Hstk in IHt; simpl stack; unfold upd;
    destruct (Nat.eqb_spec t' t); subst;
    try (simpl trace; transfer_from IHt');
    try (simpl; tauto);
    simpl in IHt; destruct IHt as [IHneed IHrest];
    try (rewrite body_silent by (intros; split; reflexivity));
    repeat match goal with |- context [fn ?w] => destruct (fn w) end;
    simpl; repeat split; auto;
    try (simpl trace; transfer_from IHrest).
Qed.

Lemma NoDup_split_unique {A : Type} (x : A) (a : list A) :
  forall a' b b', NoDup (a ++ x :: b) -> a ++ x :: b = a' ++ x :: b' ->
  a = a' /\ b = b'.
Proof.
  induction a as [|y a IH]; intros a' b b' Hnd Heq.
  - destruct a' as [|y' a']; simpl in *.
    + injection Heq as ->. split; reflexivity.
    + injection Heq as <- ->. inversion Hnd as [|? ? Hni _]. exfalso.
      apply Hni. apply in_or_app. right. left. reflexivity.
  - destruct a' as [|y' a']; simpl in *.
    + injection Heq as -> <-. inversion Hnd as [|? ? Hni _]. exfalso.
      apply Hni. apply in_or_app. right. left. reflexivity.
    + injection Heq as <- Heq. inversion Hnd as [|? ? _ Hnd']; subst.
      destruct (IH a' b b' Hnd' Heq) as [-> ->]. split; reflexivity.
Qed.

(** In a list without repetition, the order of two elements of a prefix is
    their order in the list. *)
Lemma prefix_keeps_order {A : Type} (f g : A) (L P R X Y Z : list A) :
  NoDup L -> L = P ++ R -> In g P -> L = X ++ f :: Y ++ g :: Z ->
  exists P3, P = X ++ f :: Y ++ g :: P3.
Proof.
  intros Hnd HL Hg HX. apply in_split in Hg. destruct Hg as (Pa & Pb & ->).
  assert (H1 : L = Pa ++ g :: (Pb ++ R))
    by (rewrite HL, <- app_assoc; reflexivity).
  assert (H2 : L = (X ++ f :: Y) ++ g :: Z)
    by (rewrite HX, <- app_assoc; reflexivity).
  rewrite H1 in Hnd. rewrite H1 in H2.
  destruct (@NoDup_split_unique _ _ _ _ _ _ Hnd H2) as [-> _].
  exists Pb. rewrite <- app_assoc. reflexivity.
Qed.

(** An element among the called ones comes from an entry of the trace. *)
Lemma executing_of_split (tr : list entry) :
  forall X w Y, executing_of tr = X ++ w :: Y ->
  exists T1 e T2, tr = T1 ++ e :: T2 /\ what e = Executing w
                  /\ executing_of T1 = X /\ executing_of T2 = Y.
Proof.
  induction tr as [|e tr IH]; intros X w Y Heq.
  - destruct X; discriminate Heq.
  - change (executing_of (e :: tr))
      with (match what e with Executing w => [w] | _ => [] end
            ++ executing_of tr) in Heq.
    destruct (what e) eqn:He; simpl in Heq;
      try (destruct (IH X w Y Heq) as (T1 & e' & T2 & -> & Hw & H1 & H2);
           exists (e :: T1), e', T2; repeat split; try assumption;
           unfold executing_of in *; simpl; rewrite He; exact H1).
    destruct X as [|x X]; simpl in Heq.
    + injection Heq as -> Heq. exists [], e, tr. repeat split; assumption.
    + injection Heq as -> Heq.
      destruct (IH X w Y Heq) as (T1 & e' & T2 & -> & Hw & H1 & H2).
      exists (e :: T1), e', T2. repeat split; try assumption.
      unfold executing_of in *. simpl. rewrite He, H1. reflexivity.
Qed.

Lemma appended_of_app (a b : list entry) :
  appended_of (a ++ b) = appended_of a ++ appended_of b.
Proof. apply flat_map_app. Qed.

Lemma In_executing_of (tr : list entry) (w : item) :
  In w (executing_of tr) <-> In (Executing w) (events tr).
Proof.
  unfold executing_of, events. rewrite in_flat_map, in_map_iff. split.
  - intros (e & He & Hw). exists e. split; [|exact He].
    destruct (what e); simpl in Hw; try contradiction.
    destruct Hw as [-> | []]. reflexivity.
  - intros (e & Hw & He). exists e. split; [exact He|]. rewrite Hw.
    left. reflexivity.
Qed.

(** A [Schedule] call returns after its element was appended. *)
Lemma returns_after_append (s : system) :
  reachable s ->
  forall a e b w, trace s = a ++ e :: b -> what e = ScheduleEnd w ->
  In w (appended_of a).
Proof.
  intros Hs a e b w Htr. revert w.
  apply (trace_induction
           (fun tr e => forall w, what e = ScheduleEnd w -> In w (appended_of tr)))
    with (s := s) (b := b); [|exact Hs|exact Htr].
  clear. intros s s' act e Hs Hact Htr w Hw.
  pose proof (append_before_return Hs) as HP.
  logged_step Hact Htr t i rest Hstk; simpl in Hw; try discriminate Hw.
  injection Hw as <-. specialize (HP t). rewrite Hstk in HP. simpl in HP.
  destruct HP as [[[] | Hin] _]. exact Hin.
Qed.

(** A [Schedule] call begins with an address that nothing appended so far
    has. *)
Lemma begins_with_new_address (s : system) :
  reachable s ->
  forall a e b w, trace s = a ++ e :: b -> what e = ScheduleBegin w ->
  forall w', In w' (appended_of a) -> ptr w' < ptr w.
Proof.
  intros Hs a e b w Htr. revert w.
  apply (trace_induction
           (fun tr e => forall w, what e = ScheduleBegin w ->
                        forall w', In w' (appended_of tr) -> ptr w' < ptr w))
    with (s := s) (b := b); [|exact Hs|exact Htr].
  clear. intros s s' act e Hs Hact Htr w Hw w' Hin.
  destruct (fresh_items Hs) as (_ & F2 & _).
  logged_step Hact Htr t i rest Hstk; simpl in Hw; try discriminate Hw.
  injection Hw as <-. simpl. apply F2. exact Hin.
Qed.

(** Elements are called in the order of the [Schedule] calls. *)
Lemma fifo_order (s : system) (f g : item) :
  reachable s ->
  happens_before (did (ScheduleEnd f)) (did (ScheduleBegin g)) (trace s) ->
  In (Executing g) (events (trace s)) ->
  happens_before (did_on script_thread (Executing f))
                 (did_on script_thread (Executing g)) (trace s).
Proof.
  intros Hs (a & x & b & y & c & Htr & Hx & Hy) Hg.
  pose proof (@returns_after_append s Hs _ _ _ _ Htr Hx) as Hf.
  assert (Htr' : trace s = (a ++ x :: b) ++ y :: c)
    by (rewrite Htr, <- app_assoc; reflexivity).
  pose proof (@begins_with_new_address s Hs _ _ _ _ Htr' Hy) as Hnew.
  pose proof (queue_is_fifo Hs) as Hq.
  destruct (fresh_items Hs) as (_ & _ & _ & _ & _ & Hnd).
  apply NoDup_map_inv in Hnd.
  apply In_executing_of in Hg.
  assert (Hga : In g (appended_of (trace s)))
    by (rewrite Hq; apply in_or_app; left; exact Hg).
  rewrite Htr' in Hga. rewrite appended_of_app in Hga.
  apply in_app_or in Hga. destruct Hga as [Hga | Hga].
  { specialize (Hnew g Hga). lia. }
  apply in_split in Hf. destruct Hf as (A1 & A2 & HA).
  apply in_split in Hga. destruct Hga as (C1 & C2 & HC).
  assert (HL : appended_of (trace s)
               = A1 ++ f :: (A2 ++ appended_of (x :: b) ++ C1) ++ g :: C2).
  { rewrite Htr. change (a ++ x :: b ++ y :: c) with (a ++ (x :: b) ++ y :: c).
    rewrite !appended_of_app, HA, HC.
    repeat (rewrite <- app_assoc; simpl). reflexivity. }
  destruct (@prefix_keeps_order _ _ _ _ _ _ _ _ _ Hnd Hq Hg HL) as (P3 & HP).
  destruct (@executing_of_split _ _ _ _ HP) as (T1 & e1 & T2 & HT & He1 & _ & HT2).
  destruct (@executing_of_split _ _ _ _ HT2) as (T3 & e2 & T4 & -> & He2 & _ & _).
  pose proof (trace_entries_ok Hs) as Hok. rewrite Forall_forall in Hok.
  exists T1, e1, T3, e2, T4. split; [exact HT|].
  split; split; try assumption.
  - apply Hok; [rewrite HT; apply in_or_app; right; left; reflexivity|].
    rewrite He1. reflexivity.
  - apply Hok; [rewrite HT; apply in_or_app; right; right; apply in_or_app;
                right; left; reflexivity|].
    rewrite He2. reflexivity.
Qed.

Lemma events_snoc (tr : list entry) (e : entry) :
  events (tr ++ [e]) = events tr ++ [what e].
Proof. unfold events. rewrite map_app. reflexivity. Qed.

Lemma seen_by_snoc (tr : list entry) (e : entry) (t : tid) (k : flag) :
  seen_by tr t k -> seen_by (tr ++ [e]) t k.
Proof.
  intros (e' & Hin & Hw & Ht). exists e'. split; [|split; assumption].
  apply in_or_app. left. exact Hin.
Qed.

Lemma seen_by_last (tr : list entry) (t : tid) (k : flag) (h : option tid) :
  seen_by (tr ++ [{| thread := t; what := SeenFinished k; holder := h |}]) t k.
Proof.
  eexists. split; [apply in_or_app; right; left; reflexivity|].
  split; reflexivity.
Qed.

(** The lambda sets the flag after [f] returned. *)
Lemma returned_before_set (s : system) :
  reachable s ->
  forall t, preceded need_returned give_returned
              (fun k => In (FReturned k) (events (trace s))) [] (stack s t).
Proof.
  induction 1 as [|s s' a Hs IH Hstep]; intros t'; [exact I|].
  action_inv Hstep t i rest Hstk;
    pose proof (IH t) as IHt; pose proof (IH t') as IHt';
    try rewrite Hstk in IHt; simpl stack; unfold upd;
    destruct (Nat.eqb_spec t' t); subst;
    try (simpl trace; eapply preceded_transfer; [|exact IHt'];
         intros x _ Hor; rewrite events_snoc, in_app_iff; simpl in *; tauto);
    try (simpl; tauto);
    simpl in IHt; destruct IHt as [IHneed IHrest];
    try (rewrite body_silent by (intros; split; reflexivity));
    repeat match goal with |- context [fn ?w] => destruct (fn w) end;
    simpl; repeat split; auto;
    try (simpl trace; eapply preceded_transfer; [|exact IHrest];
         intros x _ Hor; rewrite events_snoc, in_app_iff; simpl in *;
         solve [ tauto | intuition (subst; auto) ]).
Qed.

(** [Perform] returns after its thread saw the flag set. *)
Lemma seen_before_return (s : system) :
  reachable s ->
  forall t, preceded need_seen give_seen (seen_by (trace s) t) [] (stack s t).
Proof.
  induction 1 as [|s s' a Hs IH Hstep]; intros t'; [exact I|].
  action_inv Hstep t i rest Hstk;
    pose proof (IH t) as IHt; pose proof (IH t') as IHt';
    try rewrite Hstk in IHt; simpl stack; unfold upd;
    destruct (Nat.eqb_spec t' t); subst;
    try (simpl trace; eapply preceded_transfer; [|exact IHt'];
         intros x _ [[]|Hor]; right; apply seen_by_snoc; exact Hor);
    try (simpl; tauto);
    simpl in IHt; destruct IHt as [IHneed IHrest];
    try (rewrite body_silent by (intros; split; reflexivity));
    repeat match goal with |- context [fn ?w] => destruct (fn w) end;
    simpl; repeat split; auto;
    try (simpl trace; eapply preceded_transfer; [|exact IHrest];
         intros x _ Hor; simpl in *;
         destruct Hor as [[<- | []] | Hor];
         solve [ right; apply seen_by_last
               | right; apply seen_by_snoc; exact Hor
               | left; left; reflexivity ]);
    try (simpl trace; eapply preceded_transfer; [|exact IHrest];
         intros x _ [Hor|Hor]; simpl in *;
         solve [ contradiction | right; apply seen_by_snoc; exact Hor ]).
Qed.

(** A flag that is set was set by the lambda. *)
Lemma set_flags_were_set (s : system) :
  reachable s ->
  forall k, finished s k = true -> In (FinishedSet k) (events (trace s)).
Proof.
  induction 1 as [|s s' a Hs IH Hstep]; intros k'; [discriminate|].
  action_inv Hstep t i rest Hstk; cbn [finished trace after start];
    try exact (IH k');
    rewrite events_snoc, in_app_iff;
    try (intros Hk; left; apply IH; exact Hk).
  - unfold set_flag. destruct (flag_eqb k' (next s, f)); [discriminate|].
    intros Hk; left; apply IH; exact Hk.
  - unfold set_flag. destruct (flag_eqb k' finished0) eqn:E.
    + apply flag_eqb_eq in E. subst. intros _. right. left. reflexivity.
    + intros Hk; left; apply IH; exact Hk.
Qed.

(** [Perform] returns after its thread saw the flag set. *)
Lemma return_after_seen (s : system) :
  reachable s ->
  forall a e b k, trace s = a ++ e :: b -> what e = PerformEnd k ->
  seen_by a (thread e) k.
Proof.
  intros Hs a e b k Htr. revert k.
  apply (trace_induction
           (fun tr e => forall k, what e = PerformEnd k -> seen_by tr (thread e) k))
    with (s := s) (b := b); [|exact Hs|exact Htr].
  clear. intros s s' act e Hs Hact Htr k Hw.
  pose proof (seen_before_return Hs) as HP.
  logged_step Hact Htr t i rest Hstk; simpl in Hw; try discriminate Hw.
  injection Hw as <-. specialize (HP t). rewrite Hstk in HP. simpl in HP.
  destruct HP as [[[] | Hseen] _]. exact Hseen.
Qed.

(** A thread sees the flag set after it was set. *)
Lemma seen_after_set (s : system) :
  reachable s ->
  forall a e b k, trace s = a ++ e :: b -> what e = SeenFinished k ->
  In (FinishedSet k) (events a).
Proof.
  intros Hs a e b k Htr. revert k.
  apply (trace_induction
           (fun tr e => forall k, what e = SeenFinished k ->
                        In (FinishedSet k) (events tr)))
    with (s := s) (b := b); [|exact Hs|exact Htr].
  clear. intros s s' act e Hs Hact Htr k Hw.
  pose proof (set_flags_were_set Hs) as HP.
  logged_step Hact Htr t i rest Hstk; simpl in Hw; try discriminate Hw.
  injection Hw as <-. apply HP. assumption.
Qed.

(** The flag is set after [f] returned. *)
Lemma set_after_returned (s : system) :
  reachable s ->
  forall a e b k, trace s = a ++ e :: b -> what e = FinishedSet k ->
  In (FReturned k) (events a).
Proof.
  intros Hs a e b k Htr. revert k.
  apply (trace_induction
           (fun tr e => forall k, what e = FinishedSet k ->
                        In (FReturned k) (events tr)))
    with (s := s) (b := b); [|exact Hs|exact Htr].
  clear. intros s s' act e Hs Hact Htr k Hw.
  pose proof (returned_before_set Hs) as HP.
  logged_step Hact Htr t i rest Hstk; simpl in Hw; try discriminate Hw.
  injection Hw as <-. specialize (HP t). rewrite Hstk in HP. simpl in HP.
  destruct HP as [[[] | Hin] _]. exact Hin.
Qed.

Lemma In_events (tr : list entry) (ev : event) :
  In ev (events tr) -> exists a e b, tr = a ++ e :: b /\ what e = ev.
Proof.
  unfold events. intros Hin. apply in_map_iff in Hin.
  destruct Hin as (e & Hw & Hin). apply in_split in Hin.
  destruct Hin as (a & b & ->). exists a, e, b. split; [reflexivity|exact Hw].
Qed.

(** What comes before the return of [Perform], from the setting of the flag
    on. *)
Lemma perform_chain (s : system) :
  reachable s ->
  forall a e b k, trace s = a ++ e :: b -> what e = PerformEnd k ->
  exists x1 e1 x2 e2 x3 e3 x4,
    a = x1 ++ e1 :: x2 ++ e2 :: x3 ++ e3 :: x4
    /\ did_on script_thread (FReturned k) e1
    /\ did_on script_thread (FinishedSet k) e2
    /\ holder e2 = Some script_thread
    /\ did_on (thread e) (SeenFinished k) e3
    /\ holder e3 = Some (thread e).
Proof.
  intros Hs a e b k Htr Hw.
  pose proof (trace_entries_ok Hs) as Hok. rewrite Forall_forall in Hok.
  destruct (@return_after_seen s Hs _ _ _ _ Htr Hw) as (e3 & Hin3 & Hw3 & Ht3).
  apply in_split in Hin3. destruct Hin3 as (a3 & x4 & ->).
  assert (Htr3 : trace s = a3 ++ e3 :: (x4 ++ e :: b))
    by (rewrite Htr, <- app_assoc; reflexivity).
  pose proof (@seen_after_set s Hs _ _ _ _ Htr3 Hw3) as Hin2.
  apply In_events in Hin2. destruct Hin2 as (a2 & e2 & x3 & -> & Hw2).
  assert (Htr2 : trace s = a2 ++ e2 :: (x3 ++ e3 :: x4 ++ e :: b))
    by (rewrite Htr3, <- app_assoc; reflexivity).
  pose proof (@set_after_returned s Hs _ _ _ _ Htr2 Hw2) as Hin1.
  apply In_events in Hin1. destruct Hin1 as (x1 & e1 & x2 & -> & Hw1).
  assert (H1 : In e1 (trace s))
    by (rewrite Htr2, <- app_assoc; apply in_or_app; right; left; reflexivity).
  assert (H2 : In e2 (trace s))
    by (rewrite Htr2; apply in_or_app; right; left; reflexivity).
  assert (H3 : In e3 (trace s))
    by (rewrite Htr3; apply in_or_app; right; left; reflexivity).
  destruct (Hok e1 H1) as [_ Hs1]. rewrite Hw1 in Hs1.
  destruct (Hok e2 H2) as [Hl2 Hs2]. rewrite Hw2 in Hl2, Hs2. simpl in Hl2.
  destruct (Hok e3 H3) as [Hl3 _]. rewrite Hw3 in Hl3. simpl in Hl3.
  exists x1, e1, x2, e2, x3, e3, x4.
  split; [repeat (rewrite <- app_assoc; simpl); reflexivity|].
  split; [split; [exact Hw1 | apply Hs1; reflexivity]|].
  split; [split; [exact Hw2 | apply Hs2; reflexivity]|].
  split; [rewrite Hl2, (Hs2 eq_refl); reflexivity|].
  split; [split; [exact Hw3 | exact Ht3]|].
  rewrite Hl3, Ht3. reflexivity.
Qed.

Lemma lambda_called_snoc (tr : list entry) (e : entry) (k : flag) :
  lambda_called tr k -> lambda_called (tr ++ [e]) k.
Proof.
  intros (w & Hw & Hin). exists w. split; [exact Hw|].
  rewrite events_snoc. apply in_or_app. left. exact Hin.
Qed.

(** In every stack the return of [f] comes after the call of the lambda. *)
Lemma called_before_returned (s : system) :
  reachable s ->
  forall t, preceded need_called give_nothing (lambda_called (trace s)) []
              (stack s t).
Proof.
  induction 1 as [|s s' a Hs IH Hstep]; intros t'; [exact I|].
  action_inv Hstep t i rest Hstk;
    pose proof (IH t) as IHt; pose proof (IH t') as IHt';
    try rewrite Hstk in IHt; simpl stack; unfold upd;
    destruct (Nat.eqb_spec t' t); subst;
    try (simpl trace; eapply preceded_transfer; [|exact IHt'];
         intros x _ [[]|Hor]; right; apply lambda_called_snoc; exact Hor);
    try (simpl; tauto);
    simpl in IHt; destruct IHt as [IHneed IHrest];
    try (rewrite body_silent by (intros; split; reflexivity));
    try (destruct (fn work0) as [f0 | f0 k0] eqn:Hfn);
    simpl; repeat split; auto;
    try (simpl trace; eapply preceded_transfer; [|exact IHrest];
         intros x _ [[]|Hor]; right; apply lambda_called_snoc; exact Hor).
  right. exists work0. split; [exact Hfn|].
  simpl trace. rewrite events_snoc. apply in_or_app. right. left. reflexivity.
Qed.

(** [f] returns in the lambda after the lambda was called. *)
Lemma returned_after_called (s : system) :
  reachable s ->
  forall a e b k, trace s = a ++ e :: b -> what e = FReturned k ->
  lambda_called a k.
Proof.
  intros Hs a e b k Htr. revert k.
  apply (trace_induction
           (fun tr e => forall k, what e = FReturned k -> lambda_called tr k))
    with (s := s) (b := b); [|exact Hs|exact Htr].
  clear. intros s s' act e Hs Hact Htr k Hw.
  pose proof (called_before_returned Hs) as HP.
  logged_step Hact Htr t i rest Hstk; simpl in Hw; try discriminate Hw.
  injection Hw as <-. specialize (HP t). rewrite Hstk in HP. simpl in HP.
  destruct HP as [[[] | Hin] _]. exact Hin.
Qed.

(** A step on the view is a step of the script thread. *)
Lemma local_step_sound (s : system) (v' : view) :
  local_step (view_of s) = Some v' ->
  exists s', do_action (Step script_thread) s = Some s' /\ view_of s' = v'.
Proof.
  unfold local_step, view_of. simpl.
  destruct (stack s script_thread) as [|i rest] eqn:Hstk; [discriminate|].
  destruct i; simpl; try discriminate;
    unfold owns;
    repeat match goal with
    | |- match ?x with _ => _ end = Some _ -> _ => destruct x eqn:?
    end; try discriminate;
    intros H; injection H as <-; eexists; (split; [reflexivity|]);
    unfold view_of, seen; simpl; rewrite ?upd_same, ?rev_unit;
    try reflexivity; congruence.
Qed.

Lemma local_steps_sound (n : nat) :
  forall s v', local_steps n (view_of s) = Some v' ->
  exists s', steps n script_thread s = Some s' /\ view_of s' = v'.
Proof.
  induction n as [|n IH]; intros s v' H; cbn [local_steps] in H; cbn [steps].
  - injection H as <-. exists s. split; reflexivity.
  - destruct (local_step (view_of s)) as [v1|] eqn:E; [|discriminate].
    apply local_step_sound in E. destruct E as (s1 & Hs1 & <-).
    rewrite Hs1. exact (IH s1 v' H).
Qed.

Lemma local_steps_app (n m : nat) :
  forall v v1 v2, local_steps n v = Some v1 -> local_steps m v1 = Some v2 ->
  local_steps (n + m) v = Some v2.
Proof.
  induction n as [|n IH]; simpl; intros v v1 v2 H1 H2.
  - injection H1 as <-. exact H2.
  - destruct (local_step v) as [v'|]; [|discriminate]. exact (IH v' v1 v2 H1 H2).
Qed.

Lemma size_Fn (n : nat) (posts : list closure) :
  size (Fn n posts) = S (sizes posts).
Proof.
  unfold sizes. cbn [size]. apply f_equal.
  induction posts as [|p ps IH]; cbn [fold_right]; [reflexivity|].
  rewrite <- IH. reflexivity.
Qed.

Lemma weight_app (q r : list item) : weight (q ++ r) = weight q + weight r.
Proof.
  induction q as [|w q IH]; simpl; [reflexivity|]. rewrite IH. lia.
Qed.

Lemma weight_posted (posts : list closure) :
  forall k, weight (posted posts k) = sizes posts.
Proof.
  induction posts as [|g posts IH]; simpl; intros k; [reflexivity|].
  rewrite IH. reflexivity.
Qed.

(** A [Schedule] call of the script thread, with the mutex free. *)
Lemma local_schedule (f : work) (rest : list instr) (q : list item) (k : nat)
  (log : list entry) :
  local_steps 6
    {| v_stack := Call_Schedule f :: rest; v_mutex := None; v_pending := q;
       v_next := k; v_log := log |}
  = Some {| v_stack := rest; v_mutex := None;
            v_pending := q ++ [{| ptr := k; fn := f |}]; v_next := S k;
            v_log := rev (spec_schedule {| ptr := k; fn := f |}) ++ log |}.
Proof. reflexivity. Qed.

(** The [Schedule] calls of a closure, one after the other. *)
Lemma local_call (posts : list closure) :
  forall rest q k log,
  local_steps (6 * List.length posts)
    {| v_stack := map (fun g => Call_Schedule (Plain g)) posts ++ rest;
       v_mutex := None; v_pending := q; v_next := k; v_log := log |}
  = Some {| v_stack := rest; v_mutex := None;
            v_pending := q ++ posted posts k;
            v_next := k + List.length posts;
            v_log := rev (flat_map spec_schedule (posted posts k)) ++ log |}.
Proof.
  induction posts as [|g posts IH]; intros rest q k log.
  - simpl. rewrite app_nil_r, Nat.add_0_r. reflexivity.
  - replace (6 * List.length (g :: posts)) with (6 + 6 * List.length posts)
      by (simpl; lia).
    eapply local_steps_app; [apply local_schedule|].
    rewrite IH. cbn [posted flat_map List.length].
    rewrite rev_app_distr, <- !app_assoc.
    replace (S k + List.length posts) with (k + S (List.length posts)) by lia.
    reflexivity.
Qed.

(** The call of a queue element. *)
Lemma local_execute (w : work) (rest : list instr) (q : list item) (k : nat)
  (log : list entry) :
  exists n,
    local_steps n {| v_stack := body w ++ rest; v_mutex := None;
                     v_pending := q; v_next := k; v_log := log |}
    = Some {| v_stack := rest; v_mutex := None;
              v_pending := q ++ posted (posts_of w) k;
              v_next := k + List.length (posts_of w);
              v_log := rev (spec_execute w k) ++ log |}.
Proof.
  destruct w as [[n posts] | [n posts] fin]; unfold spec_execute, posts_of;
    cbn [body call closure_of].
  - exists (6 * List.length posts). rewrite app_nil_r. apply local_call.
  - exists (6 * List.length posts + 5). unfold lambda. cbn [call].
    rewrite <- app_assoc.
    eapply local_steps_app; [apply local_call|].
    rewrite rev_app_distr, <- app_assoc. reflexivity.
Qed.

(** The loop runs to the empty queue, whatever the elements post, when
    they are of size [m] at most. *)
Lemma local_loop (m : nat) :
  forall q rest k log, weight q <= m ->
  exists n k',
    local_steps n {| v_stack := While_pending :: rest;
                     v_mutex := Some script_thread;
                     v_pending := q; v_next := k; v_log := log |}
    = Some {| v_stack := rest; v_mutex := Some script_thread;
              v_pending := []; v_next := k';
              v_log := rev (spec_loop (S m) q k) ++ log |}.
Proof.
  induction m as [|m IH]; intros q rest k log Hq.
  - destruct q as [|w q].
    + exists 1, k. reflexivity.
    + simpl in Hq. destruct (closure_of (fn w)) as [n posts].
      rewrite size_Fn in Hq. lia.
  - destruct q as [|w q].
    + exists 1, k. reflexivity.
    + assert (Hq' : weight (q ++ posted (posts_of (fn w)) k) <= m).
      { rewrite weight_app, weight_posted. simpl in Hq. unfold posts_of.
        destruct (closure_of (fn w)) as [n posts]. rewrite size_Fn in Hq.
        lia. }
      set (log1 := on_script false (Executing w) :: on_script true Unlocked
                   :: on_script true (Popped w) :: log).
      destruct (local_execute (fn w) (Delete w :: LOCK :: While_pending :: rest)
                  q k log1) as (nb & Hb).
      set (log2 := on_script false Locked :: on_script false (Executed w)
                   :: rev (spec_execute (fn w) k) ++ log1).
      destruct (IH _ rest (k + List.length (posts_of (fn w))) log2 Hq')
        as (nl & k' & Hl).
      exists (3 + (nb + (2 + nl))), k'.
      eapply local_steps_app; [reflexivity|].
      eapply local_steps_app; [exact Hb|].
      eapply local_steps_app; [reflexivity|].
      refine (eq_trans Hl _). apply f_equal. apply f_equal.
      cbn [spec_loop]. unfold log2, log1.
      repeat (rewrite rev_app_distr; simpl). rewrite <- !app_assoc.
      reflexivity.
Qed.

(** A whole drain. *)
Lemma local_ProcessPending (q : list item) (rest : list instr) (k : nat)
  (log : list entry) :
  exists n k',
    local_steps n {| v_stack := Call_ProcessPending :: rest; v_mutex := None;
                     v_pending := q; v_next := k; v_log := log |}
    = Some {| v_stack := rest; v_mutex := None; v_pending := [];
              v_next := k';
              v_log := rev (spec_ProcessPending q k) ++ log |}.
Proof.
  set (log1 := on_script false Locked :: on_script false ProcessPendingBegin
               :: log).
  destruct (@local_loop (weight q) q (UNLOCK :: Return_ProcessPending :: rest)
              k log1 (le_n _)) as (n & k' & Hl).
  exists (2 + (n + 2)), k'.
  eapply local_steps_app; [reflexivity|].
  eapply local_steps_app; [exact Hl|].
  unfold spec_ProcessPending, log1.
  repeat (rewrite rev_app_distr; simpl). rewrite <- !app_assoc. reflexivity.
Qed.

(** A run from a reachable state ends in one. *)
Lemma run_reachable (acts : list action) :
  forall s, reachable s -> reachable (run acts s).
Proof.
  induction acts as [|a acts IH]; simpl; intros s Hs; [exact Hs|].
  destruct (do_action a s) as [s1|] eqn:E; [|exact (IH s Hs)].
  exact (IH s1 (reachable_step a Hs E)).
Qed.

Lemma steps_reachable (n : nat) (t : tid) :
  forall s s', reachable s -> steps n t s = Some s' -> reachable s'.
Proof.
  induction n as [|n IH]; intros s s' Hs H; cbn [steps] in H.
  - injection H as <-. exact Hs.
  - destruct (do_action (Step t) s) as [s1|] eqn:E; [|discriminate].
    exact (IH s1 s' (reachable_step (Step t) Hs E) H).
Qed.

Lemma executing_of_app (a b : list entry) :
  executing_of (a ++ b) = executing_of a ++ executing_of b.
Proof. apply flat_map_app. Qed.

(** *** The closure of a lambda runs whole *)

Lemma lambda_free_app (p r : list instr) :
  lambda_free (p ++ r) = lambda_free p && lambda_free r.
Proof. apply forallb_app. Qed.

Lemma lambda_free_call (f : closure) : lambda_free (call f) = true.
Proof.
  destruct f as [n posts]. simpl.
  induction posts as [|g posts IH]; simpl; [reflexivity | exact IH].
Qed.













(** *** The three properties of the bridge *)



(** C5: an element is called on the script thread, which does not hold the
    mutex then; the queue is tested and its head taken with the mutex held;
    and a drain that starts with the mutex free, while no other thread
    moves, is never blocked and returns with the queue empty and the mutex
    free, after exactly the steps of the loop ([spec_ProcessPending]): it
    has called every element that was in the queue and every element
    appended during the drain, in that order. *)
Theorem ProcessPending_drains (s : system) :
  reachable s ->
  (forall e w, In e (trace s) -> what e = Executing w ->
     thread e = script_thread /\ holder e <> Some script_thread)
  /\ (forall e, In e (trace s) ->
        (exists w, what e = Popped w) \/ what e = QueueEmpty ->
        thread e = script_thread /\ holder e = Some script_thread)
  /\ (stack s script_thread = [Call_ProcessPending] ->
      mutex_ (context s) = None ->
      let drain := spec_ProcessPending (pending_ (context s)) (next s) in
      exists n s',
        steps n script_thread s = Some s'
        /\ trace s' = trace s ++ drain
        /\ stack s' script_thread = []
        /\ pending_ (context s') = []
        /\ mutex_ (context s') = None
        /\ executing_of drain = pending_ (context s) ++ appended_of drain).
Proof.
  intros Hs.
  pose proof (trace_entries_ok Hs) as Hok. rewrite Forall_forall in Hok.
  split; [|split].
  - intros e w Hin Hw. destruct (Hok e Hin) as [Hl Ht].
    rewrite Hw in Hl, Ht. simpl in Hl.
    specialize (Ht eq_refl). rewrite Ht in Hl. split; assumption.
  - intros e Hin Hw. destruct (Hok e Hin) as [Hl Ht].
    destruct Hw as [(w & Hw) | Hw]; rewrite Hw in Hl, Ht; simpl in Hl;
      specialize (Ht eq_refl); rewrite Ht in Hl; split; assumption.
  - intros Hstk Hm drain.
    destruct (local_ProcessPending (pending_ (context s)) [] (next s)
                (rev (trace s))) as (n & k' & Hl).
    assert (Hv : view_of s
                 = {| v_stack := [Call_ProcessPending]; v_mutex := None;
                      v_pending := pending_ (context s); v_next := next s;
                      v_log := rev (trace s) |})
      by (unfold view_of; rewrite Hstk, Hm; reflexivity).
    rewrite <- Hv in Hl. apply local_steps_sound in Hl.
    destruct Hl as (s' & Hsteps & Hv').
    pose proof (@steps_reachable _ _ _ _ Hs Hsteps) as Hs'.
    assert (Hstk' : stack s' script_thread = [])
      by (apply (f_equal v_stack) in Hv'; exact Hv').
    assert (Hp' : pending_ (context s') = [])
      by (apply (f_equal v_pending) in Hv'; exact Hv').
    assert (Hm' : mutex_ (context s') = None)
      by (apply (f_equal v_mutex) in Hv'; exact Hv').
    assert (Htr : trace s' = trace s ++ drain).
    { apply (f_equal v_log) in Hv'. cbn [v_log view_of] in Hv'.
      fold drain in Hv'. rewrite <- rev_app_distr in Hv'.
      apply (f_equal (@rev entry)) in Hv'. rewrite !rev_involutive in Hv'.
      exact Hv'. }
    exists n, s'. repeat split; try assumption.
    pose proof (queue_is_fifo Hs) as Hq.
    pose proof (queue_is_fifo Hs') as Hq'.
    rewrite Hstk in Hq. rewrite Hstk', Hp', Htr in Hq'. simpl in Hq, Hq'.
    rewrite app_nil_r, appended_of_app, executing_of_app, Hq in Hq'.
    rewrite <- app_assoc in Hq'. apply app_inv_head in Hq'.
    symmetry. exact Hq'.
Qed.

(** *** Concrete runs *)

(** Thread 1 calls [Perform] with a closure that posts another one; the
    loop dispatches; the script thread drains; thread 1 wakes up and
    returns. *)
Definition perform_demo : system :=
  run ([Enter 1 (api_Perform (Fn 7 [Fn 8 []]))] ++ repeat (Step 1) 9
       ++ [Dispatch] ++ repeat (Step script_thread) 26 ++ repeat (Step 1) 4)
      init.

Example perform_demo_events :
  events (trace perform_demo)
  = let f := Fn 7 [Fn 8 []] in
    let w1 := {| ptr := 1; fn := PerformLambda f 0 |} in
    let w2 := {| ptr := 2; fn := Plain (Fn 8 []) |} in
    [PerformBegin (0, f); ScheduleBegin w1; Locked; Appended w1; Unlocked;
     AsyncSent; ScheduleEnd w1; Locked; Waiting (0, f);
     ProcessPendingBegin; Locked; Popped w1; Unlocked; Executing w1;
     ScheduleBegin w2; Locked; Appended w2; Unlocked; AsyncSent;
     ScheduleEnd w2; FReturned (0, f); Locked; FinishedSet (0, f); Signalled;
     Unlocked; Executed w1; Locked; Popped w2; Unlocked; Executing w2;
     Executed w2; Locked; QueueEmpty; Unlocked; ProcessPendingEnd;
     Woken; SeenFinished (0, f); Unlocked; PerformEnd (0, f)].
Proof. vm_compute. reflexivity. Qed.

Definition no_entry : entry :=
  {| thread := 0; what := Locked; holder := None |}.


(** Thread 1 schedules [Fn 1 []], then thread 2 schedules [Fn 2 []]; the
    loop dispatches and the script thread drains. *)
Definition fifo_demo : system :=
  run ([Enter 1 (api_Schedule (Fn 1 []))] ++ repeat (Step 1) 6
       ++ [Enter 2 (api_Schedule (Fn 2 []))] ++ repeat (Step 2) 6
       ++ [Dispatch] ++ repeat (Step script_thread) 15)
      init.


(** Thread 1 schedules a closure that posts another one, and the loop
    dispatches: the script thread is about to drain. *)
Definition drain_demo : system :=
  run ([Enter 1 (api_Schedule (Fn 1 [Fn 2 []]))] ++ repeat (Step 1) 6
       ++ [Dispatch])
      init.

Lemma ProcessPending_drains_witness :
  let drain :=
    spec_ProcessPending (pending_ (context drain_demo)) (next drain_demo) in
  exists n s',
    steps n script_thread drain_demo = Some s'
    /\ trace s' = trace drain_demo ++ drain
    /\ stack s' script_thread = []
    /\ pending_ (context s') = []
    /\ mutex_ (context s') = None
    /\ executing_of drain = pending_ (context drain_demo) ++ appended_of drain.
Proof.
  apply (proj2 (proj2 (@ProcessPending_drains drain_demo
                         (run_reachable _ reachable_init)))).
  - reflexivity.
  - reflexivity.
Defined.

(** The re-entrant [Schedule]: the element posted by the running element is
    called in the same drain. *)
Example drain_demo_events :
  events (spec_ProcessPending (pending_ (context drain_demo)) (next drain_demo))
  = let w0 := {| ptr := 0; fn := Plain (Fn 1 [Fn 2 []]) |} in
    let w1 := {| ptr := 1; fn := Plain (Fn 2 []) |} in
    [ProcessPendingBegin; Locked; Popped w0; Unlocked; Executing w0;
     ScheduleBegin w1; Locked; Appended w1; Unlocked; AsyncSent;
     ScheduleEnd w1; Executed w0; Locked; Popped w1; Unlocked; Executing w1;
     Executed w1; Locked; QueueEmpty; Unlocked; ProcessPendingEnd].
Proof. vm_compute. reflexivity. Qed.

Example drain_demo_steps :
  option_map (fun s => (stack s script_thread, pending_ (context s),
                        mutex_ (context s)))
    (steps 21 script_thread drain_demo)
  = Some ([], [], None).
Proof. vm_compute. reflexivity. Qed.

(** *** More invariants of the threads: proofs *)

(** X1: the mutex is never misused.  A thread about to unlock holds the
    mutex; so does a thread about to test its flag and wait on the
    condition (lines 81-82); a thread about to lock, or to take the mutex
    back when it leaves [g_cond_wait], does not hold it, so that [Schedule]
    called from a running element does not lock a mutex its thread holds;
    and the thread that holds the mutex is inside a critical section, not
    about to lock. *)
Theorem mutex_is_never_misused (s : system) :
  reachable s ->
  (forall t rest, stack s t = UNLOCK :: rest -> mutex_ (context s) = Some t)
  /\ (forall t k rest, stack s t = While_not_finished k :: rest ->
                       mutex_ (context s) = Some t)
  /\ (forall t i rest, stack s t = i :: rest -> i = LOCK \/ i = WAKE ->
                       mutex_ (context s) <> Some t)
  /\ (forall o, mutex_ (context s) = Some o ->
        exists i rest, stack s o = i :: rest /\ i <> LOCK /\ i <> WAKE).
Proof.
  intros Hs.
  assert (Htop : forall t i rest, stack s t = i :: rest ->
                   owns s t = fst (lock_class i)).
  { intros t i rest Hstk. pose proof (lock_discipline Hs t) as HW.
    rewrite Hstk in HW. cbn [lock_ok] in HW. apply andb_prop in HW.
    destruct HW as [HW _]. apply Bool.eqb_prop in HW. exact HW. }
  split; [|split; [|split]].
  - intros t rest Hstk. apply owns_true. exact (Htop _ _ _ Hstk).
  - intros t k rest Hstk. apply owns_true. exact (Htop _ _ _ Hstk).
  - intros t i rest Hstk Hi. apply owns_false. rewrite (Htop _ _ _ Hstk).
    destruct Hi as [-> | ->]; reflexivity.
  - intros o Hm.
    assert (Ho : owns s o = true)
      by (unfold owns; rewrite Hm; apply Nat.eqb_refl).
    pose proof (lock_discipline Hs o) as HW. rewrite Ho in HW.
    destruct (stack s o) as [|i rest] eqn:Hstk; [discriminate HW|].
    exists i, rest. split; [reflexivity|].
    pose proof (Htop _ _ _ Hstk) as Hi. rewrite Ho in Hi.
    split; intros ->; discriminate Hi.
Qed.

(** X2: every element that has been called was appended by a [Schedule]
    before, and no element is called twice. *)
Theorem called_at_most_once (s : system) :
  reachable s ->
  NoDup (executing_of (trace s))
  /\ (forall w, In w (executing_of (trace s)) -> In w (appended_of (trace s))).
Proof.
  intros Hs.
  pose proof (queue_is_fifo Hs) as Hq.
  destruct (fresh_items Hs) as (_ & _ & _ & _ & _ & Hnd).
  apply NoDup_map_inv in Hnd. rewrite Hq in Hnd.
  apply NoDup_app_remove_r in Hnd.
  split; [exact Hnd|].
  intros w Hin. rewrite Hq. apply in_or_app. left. exact Hin.
Qed.

Lemma existsb_app_r {A : Type} (f : A -> bool) (p r : list A) :
  existsb f r = true -> existsb f (p ++ r) = true.
Proof. intros H. rewrite existsb_app, H. apply orb_true_r. Qed.

Lemma signals_after_append_call (f : closure) (rest : list instr) :
  signals_after_append (call f ++ rest) = signals_after_append rest.
Proof.
  destruct f as [n posts]. simpl.
  induction posts as [|g posts IH]; simpl; [reflexivity | exact IH].
Qed.

Lemma signals_after_append_body (w : work) (rest : list instr) :
  signals_after_append (body w ++ rest) = signals_after_append rest.
Proof.
  destruct w as [f | f k]; simpl; [apply signals_after_append_call|].
  unfold lambda. rewrite <- app_assoc, signals_after_append_call. reflexivity.
Qed.

Lemma append_is_signalled (s : system) :
  reachable s -> forall t, signals_after_append (stack s t) = true.
Proof.
  induction 1 as [|s s' a Hs IH Hstep]; intros t'; [reflexivity|].
  action_inv Hstep t i rest Hstk;
    pose proof (IH t) as IHt; pose proof (IH t') as IHt';
    try rewrite Hstk in IHt; simpl in *; unfold upd;
    destruct (Nat.eqb_spec t' t); subst; try assumption; try reflexivity;
    rewrite ?signals_after_append_body; try assumption.
  apply andb_prop in IHt. apply IHt.
Qed.


(** The three kinds of action. *)
Lemma do_action_cases (a : action) (s s' : system) :
  do_action a s = Some s' ->
  (exists t i rest, stack s t = i :: rest /\ exec t i rest s = Some s')
  \/ (exists t c, stack s t = []
        /\ s' = start s t (entry_point c) (async_ (context s)))
  \/ (stack s script_thread = [] /\ sent (async_ (context s)) = true
      /\ s' = start s script_thread Call_ProcessPending
                (uv_async_clear (async_ (context s)))).
Proof.
  destruct a as [t | t c | ]; simpl.
  - destruct (stack s t) as [|i rest] eqn:Hstk; [discriminate|].
    intros H. left. exists t, i, rest. split; [exact Hstk | exact H].
  - destruct (stack s t) eqn:Hstk; [|discriminate].
    intros H. injection H as <-. right. left. exists t, c.
    split; [exact Hstk | reflexivity].
  - destruct (stack s script_thread) eqn:Hstk; [|discriminate].
    destruct (sent (async_ (context s))) eqn:Hsent; [|discriminate].
    intros H. injection H as <-. right. right. repeat split.
Qed.

(** X3: no wake-up is lost.  Whenever the queue is not empty, the async
    handle is signalled, or the script thread is in a drain that still has
    a test of the queue before it, or some thread is about to signal the
    handle. *)
Theorem no_lost_wakeup (s : system) :
  reachable s ->
  pending_ (context s) <> [] ->
  sent (async_ (context s)) = true
  \/ existsb tests_queue (stack s script_thread) = true
  \/ exists t, In Async_send (stack s t).
Proof.
  induction 1 as [|s s' a Hs IH Hstep]; [intros H; contradiction H; reflexivity|].
  pose proof (append_is_signalled Hs) as HA.
  pose proof (only_script_drains Hs) as HD.
  apply do_action_cases in Hstep.
  destruct Hstep as [(t & i & rest & Hstk & Hexec)
                    | [(t & c & Hstk & ->) | (Hstk & Hsent & ->)]].
  3:{ intros _. right. left. reflexivity. }
  2:{ simpl. intros Hp. specialize (IH Hp).
      destruct IH as [IH | [IH | (t0 & IH)]]; [left; exact IH| |].
      - right. left. unfold upd.
        destruct (Nat.eqb_spec script_thread t) as [<-|Hne]; [|exact IH].
        rewrite Hstk in IH. discriminate IH.
      - right. right. exists t0. unfold upd.
        destruct (Nat.eqb_spec t0 t) as [->|Hne]; [|exact IH].
        rewrite Hstk in IH. destruct IH. }
  specialize (HA t). rewrite Hstk in HA.
  assert (Hscript : drain_instr i = true -> t = script_thread).
  { intros Hd. destruct (Nat.eq_dec t script_thread) as [->|Hne];
      [reflexivity|].
    specialize (HD t Hne). rewrite Hstk in HD. simpl in HD.
    rewrite Hd in HD. discriminate. }
  assert (Hkeep : forall p,
            pending_ (context s) <> [] ->
            is_Async_send i = false -> tests_queue i = false ->
            sent (async_ (context s)) = true
            \/ existsb tests_queue (upd (stack s) t (p ++ rest) script_thread)
               = true
            \/ exists t0, In Async_send (upd (stack s) t (p ++ rest) t0)).
  { intros p Hp Hi1 Hi2. specialize (IH Hp).
    destruct IH as [IH | [IH | (t0 & IH)]]; [left; exact IH| |].
    - right. left. unfold upd.
      destruct (Nat.eqb_spec script_thread t) as [<-|Hne]; [|exact IH].
      rewrite Hstk in IH. simpl in IH. rewrite Hi2 in IH.
      apply existsb_app_r. exact IH.
    - right. right. exists t0. unfold upd.
      destruct (Nat.eqb_spec t0 t) as [->|Hne]; [|exact IH].
      rewrite Hstk in IH. destruct IH as [Heq | IH]; [rewrite Heq in Hi1; discriminate Hi1|].
      apply in_or_app. right. exact IH. }
  exec_inv Hexec; simpl;
    try (intros Hp;
         first [ exact (Hkeep [] Hp eq_refl eq_refl)
               | exact (Hkeep (Schedule _) Hp eq_refl eq_refl)
               | exact (Hkeep (Perform _ _) Hp eq_refl eq_refl)
               | exact (Hkeep (body _) Hp eq_refl eq_refl)
               | exact (Hkeep [WAKE; While_not_finished _] Hp eq_refl eq_refl) ]).
  - intros _. right. left. rewrite (Hscript eq_refl), upd_same. reflexivity.
  - intros _. right. right. exists t. rewrite upd_same.
    simpl in HA. apply andb_prop in HA. destruct HA as [HA _].
    apply existsb_exists in HA. destruct HA as (x & Hin & Hx).
    destruct x; try discriminate Hx. exact Hin.
  - intros _. left. reflexivity.
  - intros Hp. contradiction.
  - intros _. right. left. rewrite (Hscript eq_refl), upd_same. reflexivity.
Qed.


Lemma perform_instr_call (f : closure) : existsb perform_instr (call f) = false.
Proof.
  destruct f as [n posts]. simpl.
  induction posts as [|g posts IH]; simpl; [reflexivity | exact IH].
Qed.

Lemma perform_instr_body (w : work) : existsb perform_instr (body w) = false.
Proof.
  destruct w as [f | f k]; simpl; [apply perform_instr_call|].
  unfold lambda. rewrite existsb_app, perform_instr_call. reflexivity.
Qed.

(** While the script thread is inside [Perform] it is not inside a drain. *)
Lemma perform_outside_drain (s : system) :
  reachable s ->
  existsb perform_instr (stack s script_thread) = true ->
  no_drain (stack s script_thread) = true.
Proof.
  induction 1 as [|s s' a Hs IH Hstep]; [discriminate|].
  action_inv Hstep t i rest Hstk; simpl; unfold upd;
    destruct (Nat.eqb_spec script_thread t) as [<-|Hne]; try exact IH;
    try rewrite Hstk in IH; simpl in *;
    try (intros _; reflexivity); try discriminate; try assumption;
    try (intros Hp; apply IH; rewrite ?Hp; reflexivity).
  all: rewrite ?existsb_app, ?perform_instr_body; simpl;
    intros Hp; specialize (IH Hp); discriminate IH.
Qed.

(** While the script thread is inside [Perform], the flag is not set. *)
Lemma script_flag_stays_unset (s : system) :
  reachable s ->
  forall k,
  In (While_not_finished k) (stack s script_thread)
  \/ In (Return_Perform k) (stack s script_thread) ->
  finished s k = false.
Proof.
  induction 1 as [|s s' a Hs IH Hstep]; intros k'; [intros [[]|[]]|].
  pose proof (perform_outside_drain Hs) as HP.
  pose proof (only_script_drains Hs) as HD.
  apply do_action_inv in Hstep.
  destruct Hstep as (t & [(i & rest & Hstk & Hexec)
                         | (i & h & Hstk & -> & Hi)]).
  2:{ simpl. unfold upd.
      destruct (Nat.eqb_spec script_thread t) as [<-|Hne]; [|apply IH].
      destruct Hi as [(f & ->) | [(f & ->) | [-> _]]]; simpl;
        intros [[H|[]]|[H|[]]]; discriminate H. }
  assert (Hscript : drain_instr i = true -> t = script_thread).
  { intros Hd. destruct (Nat.eq_dec t script_thread) as [->|Hne];
      [reflexivity|].
    specialize (HD t Hne). rewrite Hstk in HD. simpl in HD.
    rewrite Hd in HD. discriminate. }
  specialize (IH k').
  assert (Hperf : forall x l, (x = While_not_finished k' \/ x = Return_Perform k') ->
                  In x l -> existsb perform_instr l = true).
  { intros x l Hx Hin. apply existsb_exists. exists x. split; [exact Hin|].
    destruct Hx as [-> | ->]; reflexivity. }
  exec_inv Hexec; simpl; unfold upd;
    destruct (Nat.eqb_spec script_thread t) as [<-|Hne];
    try rewrite Hstk in IH, HP; simpl in IH, HP;
    try exact IH;
    try (intros Hin; apply IH; tauto);
    try (intros Hin; apply IH; intuition discriminate);
    try (exfalso; apply Hne; symmetry; apply Hscript; reflexivity);
    try (simpl In; intros Hin; apply IH; intuition discriminate).
  - simpl In. unfold set_flag. destruct (flag_eqb k' (next s, f)) eqn:E;
      [reflexivity|].
    assert (Hk : k' <> (next s, f)).
    { intros ->. rewrite (proj2 (flag_eqb_eq _ _) eq_refl) in E. discriminate. }
    intros Hin. apply IH. intuition (try discriminate; try congruence).
  - unfold set_flag. destruct (flag_eqb k' (next s, f)); [reflexivity|exact IH].
  - intros Hin. exfalso.
    assert (Hex : existsb perform_instr rest = true).
    { destruct Hin as [Hin | Hin]; apply in_app_or in Hin;
        (destruct Hin as [Hin | Hin]; [|eapply Hperf; [|exact Hin]; tauto]);
        (eapply Hperf in Hin; [|tauto]); rewrite perform_instr_body in Hin;
        discriminate Hin. }
    specialize (HP Hex). discriminate HP.
  - intros Hin. exfalso.
    assert (Hex : existsb perform_instr rest = true).
    { destruct Hin as [Hin | Hin]; (eapply Hperf; [|exact Hin]); tauto. }
    specialize (HP Hex). discriminate HP.
Qed.

(** On the script thread the loop of [Perform] never sees the flag set. *)
Lemma script_never_sees_flag (s : system) :
  reachable s ->
  forall a e b, trace s = a ++ e :: b -> thread e = script_thread ->
  forall k, what e <> SeenFinished k.
Proof.
  intros Hs a e b Htr.
  refine (@trace_induction
           (fun tr e => thread e = script_thread ->
                        forall k, what e <> SeenFinished k) _ s Hs a e b Htr).
  clear. intros s s' act e Hs Hact Htr Ht k Hw.
  pose proof (script_flag_stays_unset Hs) as HP.
  logged_step Hact Htr t i rest Hstk; simpl in Hw, Ht; try discriminate Hw.
  injection Hw as <-. subst t. specialize (HP finished0).
  rewrite Hstk in HP. simpl in HP.
  rewrite HP in *; [discriminate|]. left. left. reflexivity.
Qed.

(** X4: a [Perform] called on the script thread does not return: every
    return of [Perform] in a trace is a step of another thread. *)
Theorem perform_on_script_thread_never_returns (s : system) :
  reachable s ->
  forall e k, In e (trace s) -> what e = PerformEnd k ->
  thread e <> script_thread.
Proof.
  intros Hs e k Hin Hw Ht.
  apply in_split in Hin. destruct Hin as (a & b & Htr).
  destruct (@return_after_seen s Hs _ _ _ _ Htr Hw) as (e3 & Hin3 & Hw3 & Ht3).
  apply in_split in Hin3. destruct Hin3 as (a3 & x4 & ->).
  assert (Htr3 : trace s = a3 ++ e3 :: (x4 ++ e :: b))
    by (rewrite Htr, <- app_assoc; reflexivity).
  rewrite Ht in Ht3.
  exact (@script_never_sees_flag s Hs _ _ _ Htr3 Ht3 k Hw3).
Qed.


Lemma call_instrs (f : closure) (i : instr) : In i (call f) -> body_instr i.
Proof.
  destruct f as [n posts]. simpl. rewrite in_map_iff.
  intros (g & <- & _). exact I.
Qed.

Lemma body_instrs (w : work) (i : instr) : In i (body w) -> body_instr i.
Proof.
  destruct w as [f | f k]; simpl; [apply call_instrs|].
  unfold lambda. rewrite in_app_iff. intros [H | H]; [exact (call_instrs _ _ H)|].
  simpl in H. intuition (subst; exact I).
Qed.

Lemma announced_body (w : work) (i : instr) :
  In i (body w) -> announced i = None.
Proof.
  intros H. apply body_instrs in H. destruct i; try contradiction; try reflexivity.
  destruct f; [reflexivity|contradiction].
Qed.

Lemma stack_is_announced (s : system) :
  reachable s ->
  forall t i ev, In i (stack s t) -> announced i = Some ev ->
  In ev (events (trace s)).
Proof.
  induction 1 as [|s s' a Hs IH Hstep]; intros t' j ev; [intros []|].
  action_inv Hstep t i rest Hstk; simpl stack; unfold upd;
    destruct (Nat.eqb_spec t' t) as [->|Hne];
    try (simpl trace; rewrite events_snoc, in_app_iff);
    try (intros Hin Hj; left; exact (IH t' j ev Hin Hj));
    try (intros Hin Hj; exact (IH t' j ev Hin Hj));
    try (intros [<-|[]] Hj; discriminate Hj);
    try (intros Hin Hj; left; apply (IH t j ev); [rewrite Hstk; right; exact Hin|exact Hj]).
  all: assert (Hrest : In j rest -> announced j = Some ev ->
                       In ev (events (trace s)))
         by (intros Hin Hj; apply (IH t j ev); [rewrite Hstk; right; exact Hin
                                               |exact Hj]).
  1-5: simpl In; intros Hin Hj;
    repeat (destruct Hin as [<- | Hin]; [try discriminate Hj|]);
    try (left; exact (Hrest Hin Hj));
    injection Hj as <-; right; left; reflexivity.
  rewrite in_app_iff. intros [Hin | Hin] Hj.
  - rewrite (announced_body _ _ Hin) in Hj. discriminate Hj.
  - left. exact (Hrest Hin Hj).
Qed.

(** Activations of [Perform] in the trace have flags below [next]. *)
Lemma perform_flags_below_next (s : system) :
  reachable s ->
  forall k, In (PerformBegin k) (events (trace s)) -> fst k < next s.
Proof.
  induction 1 as [|s s' a Hs IH Hstep]; intros k'; [intros []|].
  action_inv Hstep t i rest Hstk; cbn [trace next after start];
    try exact (IH k');
    rewrite events_snoc, in_app_iff; simpl;
    (intros [Hin | [Heq | []]];
     [specialize (IH k' Hin); lia | try discriminate Heq]).
  injection Heq as <-. simpl. lia.
Qed.

(** An activation of [Perform] begins once. *)
Lemma perform_begins_once (s : system) :
  reachable s ->
  forall a e b k, trace s = a ++ e :: b -> what e = PerformBegin k ->
  ~ In (PerformBegin k) (events a).
Proof.
  intros Hs a e b k Htr. revert k.
  refine (@trace_induction
           (fun tr e => forall k, what e = PerformBegin k ->
                        ~ In (PerformBegin k) (events tr)) _ s Hs a e b Htr).
  clear. intros s s' act e Hs Hact Htr k Hw Hin.
  pose proof (perform_flags_below_next Hs _ Hin) as Hlt.
  logged_step Hact Htr t i rest Hstk; simpl in Hw; try discriminate Hw.
  injection Hw as <-. simpl in Hlt. lia.
Qed.

(** [Schedule] appends after it was entered. *)
Lemma appended_after_begin (s : system) :
  reachable s ->
  forall a e b w, trace s = a ++ e :: b -> what e = Appended w ->
  In (ScheduleBegin w) (events a).
Proof.
  intros Hs a e b w Htr. revert w.
  refine (@trace_induction
           (fun tr e => forall w, what e = Appended w ->
                        In (ScheduleBegin w) (events tr)) _ s Hs a e b Htr).
  clear. intros s s' act e Hs Hact Htr w Hw.
  pose proof (stack_is_announced Hs) as HP.
  logged_step Hact Htr t i rest Hstk; simpl in Hw; try discriminate Hw.
  injection Hw as <-. apply (HP t (Append work0)); [|reflexivity].
  rewrite Hstk. left. reflexivity.
Qed.

(** The lambda of [Perform] is scheduled after [Perform] was entered. *)
Lemma lambda_scheduled_after_begin (s : system) :
  reachable s ->
  forall a e b w f k, trace s = a ++ e :: b -> what e = ScheduleBegin w ->
  fn w = PerformLambda f k ->
  In (PerformBegin (k, f)) (events a).
Proof.
  intros Hs a e b w f k Htr. revert w f k.
  refine (@trace_induction
           (fun tr e => forall w f k, what e = ScheduleBegin w ->
                        fn w = PerformLambda f k ->
                        In (PerformBegin (k, f)) (events tr)) _ s Hs a e b Htr).
  clear. intros s s' act e Hs Hact Htr w f k Hw Hfn.
  pose proof (stack_is_announced Hs) as HP.
  logged_step Hact Htr t i rest Hstk; simpl in Hw; try discriminate Hw.
  injection Hw as <-. simpl in Hfn. subst.
  apply (HP t (Call_Schedule (PerformLambda f k))); [|reflexivity].
  rewrite Hstk. left. reflexivity.
Qed.



Lemma In_appended_of (tr : list entry) (w : item) :
  In w (appended_of tr) <-> In (Appended w) (events tr).
Proof.
  unfold appended_of, events. rewrite in_flat_map, in_map_iff. split.
  - intros (e & He & Hw). exists e. split; [|exact He].
    destruct (what e); simpl in Hw; try contradiction.
    destruct Hw as [-> | []]. reflexivity.
  - intros (e & Hw & He). exists e. split; [exact He|]. rewrite Hw.
    left. reflexivity.
Qed.

(** Two splits of a list at the first element with a property are one. *)
Lemma first_split_unique {A : Type} (P : A -> Prop) (u : list A) :
  forall e v u' e' v',
  u ++ e :: v = u' ++ e' :: v' -> P e -> P e' ->
  (forall z, In z u -> ~ P z) -> (forall z, In z u' -> ~ P z) -> u = u'.
Proof.
  induction u as [|x u IH]; intros e v u' e' v' Heq He He' Hu Hu'.
  - destruct u' as [|x' u']; [reflexivity|].
    simpl in Heq. injection Heq as <- _. exfalso.
    apply (Hu' e); [left; reflexivity | exact He].
  - destruct u' as [|x' u']; simpl in Heq.
    + injection Heq as -> _. exfalso.
      apply (Hu e'); [left; reflexivity | exact He'].
    + injection Heq as <- Heq. f_equal.
      apply (IH e v u' e' v' Heq He He');
        intros z Hz; [apply Hu | apply Hu']; right; exact Hz.
Qed.

(** X5: [Perform] is a barrier for the queue.  If a [Schedule] call for [g]
    returned before a [Perform] call began, and that [Perform] call has
    returned, then [g] was called on the script thread before the lambda
    that runs the closure of the [Perform]. *)
Theorem perform_is_a_barrier (s : system) (g : item) (k : nat) (f : closure) :
  reachable s ->
  happens_before (did (ScheduleEnd g)) (did (PerformBegin (k, f))) (trace s) ->
  In (PerformEnd (k, f)) (events (trace s)) ->
  exists w, fn w = PerformLambda f k
    /\ happens_before (did_on script_thread (Executing g))
                      (did_on script_thread (Executing w)) (trace s).
Proof.
  intros Hs (a1 & x & a2 & y & a3 & Htr & Hx & Hy) Hend.
  apply In_events in Hend. destruct Hend as (a & e & b & Htre & Hwe).
  destruct (@perform_chain s Hs a e b (k, f) Htre Hwe)
    as (y1 & e1 & x2 & e2 & x3 & e3 & x4 & Ha & H1 & _).
  assert (Htr1 : trace s = y1 ++ e1 :: (x2 ++ e2 :: x3 ++ e3 :: x4 ++ e :: b)).
  { rewrite Htre, Ha. repeat (rewrite <- app_assoc; simpl). reflexivity. }
  destruct (@returned_after_called s Hs _ _ _ _ Htr1 (proj1 H1))
    as (w & Hfn & Hin).
  simpl in Hfn. exists w. split; [exact Hfn|].
  assert (Hcalled : In (Executing w) (events (trace s))).
  { rewrite Htr1. unfold events in *. rewrite map_app. apply in_or_app.
    left. exact Hin. }
  apply fifo_order; [exact Hs| |exact Hcalled].
  assert (Happ' : In w (appended_of (trace s))).
  { rewrite (queue_is_fifo Hs). apply in_or_app. left.
    apply In_executing_of. exact Hcalled. }
  apply In_appended_of in Happ'. apply In_events in Happ'.
  destruct Happ' as (p & ea & q & Hp & Hwa).
  pose proof (@appended_after_begin s Hs _ _ _ _ Hp Hwa) as Hbeg.
  apply In_events in Hbeg. destruct Hbeg as (p1 & eb & p2 & -> & Hwb).
  assert (Hp' : trace s = p1 ++ eb :: (p2 ++ ea :: q))
    by (rewrite Hp, <- app_assoc; reflexivity).
  pose proof (@lambda_scheduled_after_begin s Hs _ _ _ _ _ _ Hp' Hwb Hfn) as Hpb.
  apply In_events in Hpb. destruct Hpb as (u & y' & v & -> & Hwy).
  assert (Hu : trace s = u ++ y' :: (v ++ eb :: p2 ++ ea :: q))
    by (rewrite Hp', <- app_assoc; reflexivity).
  assert (Hy' : trace s = (a1 ++ x :: a2) ++ y :: a3)
    by (rewrite Htr, <- app_assoc; reflexivity).
  assert (Hsame : u = a1 ++ x :: a2).
  { apply (@first_split_unique _ (did (PerformBegin (k, f))) u y'
             (v ++ eb :: p2 ++ ea :: q) (a1 ++ x :: a2) y a3).
    - rewrite <- Hu. exact Hy'.
    - exact Hwy.
    - exact Hy.
    - intros z Hz Hd. apply (@perform_begins_once s Hs _ _ _ _ Hu Hwy).
      unfold events. apply in_map_iff. exists z. split; [exact Hd|exact Hz].
    - intros z Hz Hd. apply (@perform_begins_once s Hs _ _ _ _ Hy' Hy).
      unfold events. apply in_map_iff. exists z. split; [exact Hd|exact Hz]. }
  exists a1, x, (a2 ++ y' :: v), eb, (p2 ++ ea :: q).
  split; [|split; [exact Hx | exact Hwb]].
  rewrite Hu, Hsame. repeat (rewrite <- app_assoc; simpl). reflexivity.
Qed.


Lemma executed_of_snoc (tr : list entry) (e : entry) :
  executed_of (tr ++ [e])
  = executed_of tr ++ match what e with Executed w => [w] | _ => [] end.
Proof.
  unfold executed_of. rewrite flat_map_app. simpl. rewrite app_nil_r.
  reflexivity.
Qed.

Lemma deletes_app (p r : list instr) : deletes (p ++ r) = deletes p ++ deletes r.
Proof. apply flat_map_app. Qed.

Lemma deletes_call (f : closure) : deletes (call f) = [].
Proof.
  destruct f as [n posts]. simpl.
  induction posts as [|g posts IH]; simpl; [reflexivity | exact IH].
Qed.

Lemma deletes_body (w : work) : deletes (body w) = [].
Proof.
  destruct w as [f | f k]; simpl; [apply deletes_call|].
  unfold lambda. rewrite deletes_app, deletes_call. reflexivity.
Qed.

Lemma In_executed_of (tr : list entry) (w : item) :
  In w (executed_of tr) <-> In (Executed w) (events tr).
Proof.
  unfold executed_of, events. rewrite in_flat_map, in_map_iff. split.
  - intros (e & He & Hw). exists e. split; [|exact He].
    destruct (what e); simpl in Hw; try contradiction.
    destruct Hw as [-> | []]. reflexivity.
  - intros (e & Hw & He). exists e. split; [exact He|]. rewrite Hw.
    left. reflexivity.
Qed.

(** In every stack the deletion of an element comes after its call. *)
Lemma call_before_delete (s : system) :
  reachable s ->
  forall t, preceded need_invoked give_invoked
              (fun w => In (Executing w) (events (trace s))) [] (stack s t).
Proof.
  induction 1 as [|s s' a Hs IH Hstep]; intros t'; [exact I|].
  action_inv Hstep t i rest Hstk;
    pose proof (IH t) as IHt; pose proof (IH t') as IHt';
    try rewrite Hstk in IHt; simpl stack; unfold upd;
    destruct (Nat.eqb_spec t' t); subst;
    try (simpl trace; eapply preceded_transfer; [|exact IHt'];
         intros x _ Hor; rewrite events_snoc, in_app_iff; simpl in *; tauto);
    try (simpl; tauto);
    simpl in IHt; destruct IHt as [IHneed IHrest];
    try (rewrite body_silent by (intros; split; reflexivity));
    repeat match goal with |- context [fn ?w] => destruct (fn w) end;
    simpl; repeat split; auto;
    try (simpl trace; eapply preceded_transfer; [|exact IHrest];
         intros x _ Hor; rewrite events_snoc, in_app_iff; simpl in *;
         solve [ tauto | intuition (subst; auto) ]).
Qed.

Lemma deleted_after_call (s : system) :
  reachable s ->
  forall a e b w, trace s = a ++ e :: b -> what e = Executed w ->
  In (Executing w) (events a).
Proof.
  intros Hs a e b w Htr. revert w.
  refine (@trace_induction
           (fun tr e => forall w, what e = Executed w ->
                        In (Executing w) (events tr)) _ s Hs a e b Htr).
  clear. intros s s' act e Hs Hact Htr w Hw.
  pose proof (call_before_delete Hs) as HP.
  logged_step Hact Htr t i rest Hstk; simpl in Hw; try discriminate Hw.
  injection Hw as <-. specialize (HP t). rewrite Hstk in HP. simpl in HP.
  destruct HP as [[[] | Hin] _]. exact Hin.
Qed.


(** What a step does to the elements deleted and still to delete. *)
Lemma exec_deletes (t : tid) (i : instr) (rest : list instr) (s s' : system) :
  exec t i rest s = Some s' ->
  (exists w, i = While_pending
     /\ executed_of (trace s') = executed_of (trace s)
     /\ deletes (stack s' t) = w :: deletes rest
     /\ pending_ (context s) = w :: pending_ (context s'))
  \/ (exists w, i = Delete w
     /\ executed_of (trace s') = executed_of (trace s) ++ [w]
     /\ deletes (stack s' t) = deletes rest)
  \/ (deletes (i :: rest) = deletes rest
     /\ executed_of (trace s') = executed_of (trace s)
     /\ deletes (stack s' t) = deletes rest).
Proof.
  intros H.
  exec_inv H; simpl; rewrite upd_same, executed_of_snoc;
    simpl; rewrite ?app_nil_r, ?deletes_app, ?deletes_body;
    first [ left; eexists; repeat split; (reflexivity || eassumption)
          | right; left; eexists; repeat split; reflexivity
          | right; right; repeat split; auto ].
Qed.

(** No element is deleted twice, or deleted without having been taken from
    the queue. *)
Lemma deleted_once (s : system) :
  reachable s ->
  NoDup (executed_of (trace s) ++ deletes (stack s script_thread))
  /\ incl (executed_of (trace s) ++ deletes (stack s script_thread))
          (executing_of (trace s) ++ inflight (stack s script_thread)).
Proof.
  induction 1 as [|s s' a Hs IH Hstep]; [split; [constructor|intros x []]|].
  pose proof (only_script_drains Hs) as HD.
  pose proof (queue_is_fifo Hs) as HQ.
  destruct (fresh_items Hs) as (_ & _ & _ & _ & _ & Hnd).
  apply NoDup_map_inv in Hnd. rewrite HQ in Hnd.
  apply do_action_inv in Hstep.
  destruct Hstep as (t & [(i & rest & Hstk & Hexec)
                         | (i & h & Hstk & -> & Hi)]).
  2:{ simpl. unfold upd. destruct (Nat.eqb_spec script_thread t) as [<-|Hne];
        [|exact IH].
      rewrite Hstk in IH.
      destruct Hi as [(f & ->) | [(f & ->) | [-> _]]]; exact IH. }
  pose proof Hexec as Hx. apply exec_appends in Hx. destruct Hx as [Hother _].
  pose proof Hexec as Hq. apply exec_queue in Hq.
  pose proof Hexec as Hd. apply exec_deletes in Hd.
  destruct IH as [IHn IHi].
  destruct (Nat.eq_dec t script_thread) as [->|Hne].
  - rewrite Hstk in IHn, IHi, Hnd.
    destruct Hd as [(w & -> & He & Hdel & Hpop)
                   | [(w & -> & He & Hdel)
                     | (Hsame & He & Hdel)]];
      rewrite He, Hdel.
    + destruct Hq as [(w' & Hi' & _) | [(w' & _ & Hp & _ & Hx & Hf)
                     | [(w' & Hi' & _) | (Hf' & Hp & _)]]];
        try discriminate Hi'.
      2:{ rewrite Hpop in Hp. exfalso. clear - Hp.
          apply (f_equal (@List.length item)) in Hp. simpl in Hp. lia. }
      rewrite Hx, Hf. rewrite Hpop in Hp. injection Hp as <-.
      simpl in IHn, IHi, Hnd. rewrite Hpop in Hnd. split.
      * apply (NoDup_Add (Add_app w (executed_of (trace s)) (deletes rest))).
        split; [exact IHn|].
        intros Hin. apply IHi in Hin.
        rewrite app_assoc in Hnd. apply NoDup_remove_2 in Hnd.
        apply Hnd. apply in_or_app. left. exact Hin.
      * intros x Hin. apply in_app_or in Hin.
        destruct Hin as [Hin | [<- | Hin]].
        -- assert (H1 : In x (executing_of (trace s) ++ inflight rest))
             by (apply IHi; apply in_or_app; left; exact Hin).
           apply in_app_or in H1. apply in_or_app.
           destruct H1; [left|right; right]; assumption.
        -- apply in_or_app. right. left. reflexivity.
        -- assert (H1 : In x (executing_of (trace s) ++ inflight rest))
             by (apply IHi; apply in_or_app; right; exact Hin).
           apply in_app_or in H1. apply in_or_app.
           destruct H1; [left|right; right]; assumption.
    + destruct Hq as [(w' & Hi' & _) | [(w' & Hi' & _)
                     | [(w' & Hi' & _) | (Hf' & _ & _ & Hx & Hf)]]];
        try discriminate Hi'.
      rewrite Hx, Hf. simpl in IHn, IHi.
      rewrite <- app_assoc. split; [exact IHn | exact IHi].
    + rewrite Hsame in IHn, IHi.
      split; [exact IHn|].
      destruct Hq as [(w' & -> & _ & _ & Hx & Hf) | [(w' & -> & _ & _ & Hx & Hf)
                     | [(w' & -> & _ & _ & Hx & Hf) | (Hf' & _ & _ & Hx & Hf)]]];
        rewrite Hx, Hf.
      * exact IHi.
      * intros x Hin. apply IHi in Hin. apply in_app_or in Hin. apply in_or_app.
        destruct Hin; [left|right; right]; assumption.
      * intros x Hin. apply IHi in Hin. rewrite <- app_assoc. exact Hin.
      * rewrite Hf' in IHi. exact IHi.
  - rewrite (Hother script_thread) by (intros Heq; apply Hne; symmetry; exact Heq).
    specialize (HD t Hne). rewrite Hstk in HD. simpl in HD.
    destruct Hd as [(w & -> & _) | [(w & -> & _) | (_ & He & _)]];
      try discriminate HD.
    destruct Hq as [(w' & -> & _ & _ & Hx & _) | [(w' & -> & _)
                   | [(w' & -> & _) | (_ & _ & _ & Hx & _)]]];
      try discriminate HD; rewrite He, Hx; split; assumption.
Qed.


Lemma executed_of_app (a b : list entry) :
  executed_of (a ++ b) = executed_of a ++ executed_of b.
Proof. apply flat_map_app. Qed.

(** X6: the copy of a closure made by [Schedule] is deleted once, after its
    call: before the deletion the element was called, and after it the
    element is neither called nor deleted again. *)
Theorem deleted_once_after_its_call (s : system) :
  reachable s ->
  forall a e b w, trace s = a ++ e :: b -> what e = Executed w ->
  In (Executing w) (events a)
  /\ ~ In (Executing w) (events b)
  /\ ~ In (Executed w) (events a)
  /\ ~ In (Executed w) (events b).
Proof.
  intros Hs a e b w Htr Hw.
  pose proof (@deleted_after_call s Hs a e b w Htr Hw) as Hcall.
  split; [exact Hcall|].
  pose proof (queue_is_fifo Hs) as HQ.
  destruct (fresh_items Hs) as (_ & _ & _ & _ & _ & Hnd).
  apply NoDup_map_inv in Hnd. rewrite HQ in Hnd.
  apply NoDup_app_remove_r in Hnd.
  destruct (deleted_once Hs) as [Hdel _]. apply NoDup_app_remove_r in Hdel.
  rewrite Htr in Hnd, Hdel.
  change (a ++ e :: b) with (a ++ [e] ++ b) in Hnd, Hdel.
  rewrite !executing_of_app in Hnd. rewrite !executed_of_app in Hdel.
  unfold executing_of at 2 in Hnd. unfold executed_of at 2 in Hdel.
  simpl in Hnd, Hdel. rewrite Hw in Hnd, Hdel. simpl in Hnd, Hdel.
  apply In_executing_of in Hcall.
  split; [|split].
  - intros Hin. apply In_executing_of in Hin.
    apply in_split in Hcall. destruct Hcall as (l1 & l2 & Hl).
    rewrite Hl, <- app_assoc in Hnd. simpl in Hnd.
    apply NoDup_remove_2 in Hnd. apply Hnd.
    apply in_or_app. right. apply in_or_app. right. exact Hin.
  - intros Hin. apply In_executed_of in Hin.
    apply NoDup_remove_2 in Hdel. apply Hdel. apply in_or_app. left. exact Hin.
  - intros Hin. apply In_executed_of in Hin.
    apply NoDup_remove_2 in Hdel. apply Hdel. apply in_or_app. right. exact Hin.
Qed.


(** Steps of one thread leave the stacks of the others alone. *)
Lemma steps_other_stack (n : nat) (u : tid) :
  forall s s', steps n u s = Some s' ->
  forall t, t <> u -> stack s' t = stack s t.
Proof.
  induction n as [|n IH]; intros s s' H t Hne; cbn [steps] in H.
  - injection H as <-. reflexivity.
  - destruct (do_action (Step u) s) as [s1|] eqn:E; [|discriminate].
    rewrite (IH s1 s' H t Hne). simpl in E.
    destruct (stack s u) as [|i rest]; [discriminate|].
    apply exec_appends in E. destruct E as [Hother _]. apply Hother. exact Hne.
Qed.

(** A drain, from a state where the script thread is about to run
    [ProcessPending] and the mutex is free. *)
Lemma drain_runs (s : system) :
  reachable s ->
  stack s script_thread = [Call_ProcessPending] ->
  mutex_ (context s) = None ->
  exists n s',
    steps n script_thread s = Some s'
    /\ trace s' = trace s ++ spec_ProcessPending (pending_ (context s)) (next s)
    /\ stack s' script_thread = []
    /\ pending_ (context s') = []
    /\ mutex_ (context s') = None
    /\ executing_of (spec_ProcessPending (pending_ (context s)) (next s))
       = pending_ (context s)
         ++ appended_of (spec_ProcessPending (pending_ (context s)) (next s)).
Proof.
  intros Hs Hstk Hm.
  destruct (local_ProcessPending (pending_ (context s)) [] (next s)
              (rev (trace s))) as (n & k' & Hl).
  assert (Hv : view_of s
               = {| v_stack := [Call_ProcessPending]; v_mutex := None;
                    v_pending := pending_ (context s); v_next := next s;
                    v_log := rev (trace s) |})
    by (unfold view_of; rewrite Hstk, Hm; reflexivity).
  rewrite <- Hv in Hl. apply local_steps_sound in Hl.
  destruct Hl as (s' & Hsteps & Hv').
  pose proof (@steps_reachable _ _ _ _ Hs Hsteps) as Hs'.
  assert (Hstk' : stack s' script_thread = [])
    by (apply (f_equal v_stack) in Hv'; exact Hv').
  assert (Hp' : pending_ (context s') = [])
    by (apply (f_equal v_pending) in Hv'; exact Hv').
  assert (Hm' : mutex_ (context s') = None)
    by (apply (f_equal v_mutex) in Hv'; exact Hv').
  assert (Htr : trace s'
                = trace s ++ spec_ProcessPending (pending_ (context s)) (next s)).
  { apply (f_equal v_log) in Hv'. cbn [v_log view_of] in Hv'.
    rewrite <- rev_app_distr in Hv'.
    apply (f_equal (@rev entry)) in Hv'. rewrite !rev_involutive in Hv'.
    exact Hv'. }
  exists n, s'. repeat split; try assumption.
  pose proof (queue_is_fifo Hs) as Hq.
  pose proof (queue_is_fifo Hs') as Hq'.
  rewrite Hstk in Hq. rewrite Hstk', Hp', Htr in Hq'. simpl in Hq, Hq'.
  rewrite app_nil_r, appended_of_app, executing_of_app, Hq in Hq'.
  rewrite <- app_assoc in Hq'. apply app_inv_head in Hq'.
  symmetry. exact Hq'.
Qed.

Lemma flag_eqb_refl (k : flag) : flag_eqb k k = true.
Proof. apply flag_eqb_eq. reflexivity. Qed.

Ltac thread_step :=
  cbn [steps]; unfold do_action at 1;
  cbn [stack after start context finished next trace];
  rewrite ?upd_same;
  cbn [exec Schedule Perform app stack after start context finished next trace
       mutex_ set_mutex set_pending set_async pending_ async_ owns];
  rewrite ?upd_same, ?Nat.eqb_refl;
  unfold set_flag; rewrite ?flag_eqb_refl.

(** The steps of [Perform] up to the wait. *)
Lemma perform_until_wait (s : system) (t : tid) (f : closure) :
  stack s t = [] -> mutex_ (context s) = None ->
  let k := (next s, f) in
  let w := {| ptr := S (next s); fn := PerformLambda f (next s) |} in
  exists s1 s2,
    do_action (Enter t (api_Perform f)) s = Some s1
    /\ steps 9 t s1 = Some s2
    /\ stack s2 t = [WAKE; While_not_finished k; UNLOCK; Return_Perform k]
    /\ (forall u, u <> t -> stack s2 u = stack s u)
    /\ mutex_ (context s2) = None
    /\ pending_ (context s2) = pending_ (context s) ++ [w]
    /\ sent (async_ (context s2)) = true
    /\ next s2 = S (S (next s))
    /\ finished s2 k = false
    /\ steps_of (trace s2)
       = steps_of (trace s)
         ++ map (pair t)
              [PerformBegin k; ScheduleBegin w; Locked; Appended w; Unlocked;
               AsyncSent; ScheduleEnd w; Locked; Waiting k].
Proof.
  intros Hstk Hm k w.
  eexists. eexists. split.
  { simpl. rewrite Hstk. reflexivity. }
  split.
  { do 3 thread_step. rewrite Hm. do 5 thread_step. thread_step.
    reflexivity. }
  cbn [stack after start context finished next trace mutex_ pending_ async_
       set_mutex set_pending set_async sent uv_async_send].
  split; [apply upd_same|].
  split; [intros u Hu; rewrite !upd_other by exact Hu; reflexivity|].
  split; [reflexivity|]. split; [reflexivity|]. split; [reflexivity|].
  split; [reflexivity|].
  split; [unfold set_flag; subst k; rewrite flag_eqb_refl; reflexivity|].
  unfold steps_of. rewrite !map_app. simpl. rewrite <- !app_assoc.
  reflexivity.
Qed.

(** The steps of [Perform] from the wake-up on, once the flag is set. *)
Lemma perform_after_wait (s : system) (t : tid) (k : flag) :
  stack s t = [WAKE; While_not_finished k; UNLOCK; Return_Perform k] ->
  mutex_ (context s) = None -> finished s k = true ->
  exists s',
    steps 4 t s = Some s'
    /\ stack s' t = []
    /\ (forall u, u <> t -> stack s' u = stack s u)
    /\ mutex_ (context s') = None
    /\ pending_ (context s') = pending_ (context s)
    /\ steps_of (trace s')
       = steps_of (trace s)
         ++ map (pair t) [Woken; SeenFinished k; Unlocked; PerformEnd k]
    /\ thread (last (trace s') {| thread := t; what := Woken; holder := None |})
       = t.
Proof.
  intros Hstk Hm Hk.
  eexists. split.
  { cbn [steps]. unfold do_action at 1. rewrite Hstk. cbn [exec]. rewrite Hm.
    thread_step. rewrite Hk. thread_step. thread_step. reflexivity. }
  cbn [stack after start context finished next trace mutex_ pending_ async_
       set_mutex set_pending set_async sent uv_async_send].
  split; [apply upd_same|].
  split; [intros u Hu; rewrite !upd_other by exact Hu; reflexivity|].
  split; [reflexivity|]. split; [reflexivity|].
  split.
  { unfold steps_of. rewrite !map_app. simpl. rewrite <- !app_assoc.
    reflexivity. }
  rewrite last_last. reflexivity.
Qed.

Lemma events_app (a b : list entry) : events (a ++ b) = events a ++ events b.
Proof. apply map_app. Qed.

(** A flag is set in an activation of [Perform] that has begun. *)
Lemma set_after_begin (s : system) :
  reachable s ->
  forall k, In (FinishedSet k) (events (trace s)) ->
  In (PerformBegin k) (events (trace s)).
Proof.
  intros Hs k Hset.
  apply In_events in Hset. destruct Hset as (a & e & b & Htr & Hw).
  pose proof (@set_after_returned s Hs _ _ _ _ Htr Hw) as Hret.
  apply In_events in Hret. destruct Hret as (a1 & e1 & b1 & -> & Hw1).
  assert (Htr1 : trace s = a1 ++ e1 :: (b1 ++ e :: b))
    by (rewrite Htr, <- app_assoc; reflexivity).
  destruct (@returned_after_called s Hs _ _ _ _ Htr1 Hw1) as (w & Hfn & Hin).
  assert (Hcalled : In (Executing w) (events (trace s))).
  { rewrite Htr1, events_app. apply in_or_app. left. exact Hin. }
  assert (Happ : In w (appended_of (trace s))).
  { rewrite (queue_is_fifo Hs). apply in_or_app. left.
    apply In_executing_of. exact Hcalled. }
  apply In_appended_of in Happ. apply In_events in Happ.
  destruct Happ as (p & ea & q & Hp & Hwa).
  pose proof (@appended_after_begin s Hs _ _ _ _ Hp Hwa) as Hbeg.
  apply In_events in Hbeg. destruct Hbeg as (p1 & eb & p2 & -> & Hwb).
  assert (Hp' : trace s = p1 ++ eb :: (p2 ++ ea :: q))
    by (rewrite Hp, <- app_assoc; reflexivity).
  pose proof (@lambda_scheduled_after_begin s Hs _ _ _ _ _ _ Hp' Hwb Hfn) as Hpb.
  rewrite Hp', events_app. apply in_or_app. left.
  destruct k as [k0 f0]. exact Hpb.
Qed.

(** A flag that was set stays set. *)
Lemma set_flags_stay (s : system) :
  reachable s ->
  forall k, In (FinishedSet k) (events (trace s)) -> finished s k = true.
Proof.
  induction 1 as [|s s' a Hs IH Hstep]; intros k'; [intros []|].
  pose proof (set_after_begin Hs) as HB.
  pose proof (perform_flags_below_next Hs) as HN.
  action_inv Hstep t i rest Hstk; cbn [finished trace after start];
    try exact (IH k');
    rewrite events_snoc, in_app_iff; simpl;
    try (intros [Hin | [Heq | []]]; [exact (IH k' Hin) | discriminate Heq]).
  - intros [Hin | [Heq | []]]; [|discriminate Heq].
    unfold set_flag. destruct (flag_eqb k' (next s, f)) eqn:E; [|exact (IH k' Hin)].
    apply flag_eqb_eq in E. subst k'.
    specialize (HN _ (HB _ Hin)). simpl in HN. lia.
  - unfold set_flag. intros [Hin | [Heq | []]].
    + destruct (flag_eqb k' finished0); [reflexivity | exact (IH k' Hin)].
    + injection Heq as ->. rewrite flag_eqb_refl. reflexivity.
Qed.

(** A lambda that was called has set its flag, or is still to set it. *)
Lemma lambda_sets_flag (s : system) :
  reachable s ->
  forall w f k, fn w = PerformLambda f k ->
  In (Executing w) (events (trace s)) ->
  In (FinishedSet (k, f)) (events (trace s))
  \/ In (Set_finished (k, f)) (stack s script_thread).
Proof.
  induction 1 as [|s s' a Hs IH Hstep]; intros w f k Hfn; [intros []|].
  pose proof (only_script_drains Hs) as HD.
  specialize (IH w f k Hfn).
  apply do_action_inv in Hstep.
  destruct Hstep as (t & [(i & rest & Hstk & Hexec)
                         | (i & h & Hstk & -> & Hi)]).
  2:{ simpl. intros Hin. destruct (IH Hin) as [H1 | H2]; [left; exact H1|].
      right. unfold upd.
      destruct (Nat.eqb_spec script_thread t) as [<-|Hne]; [|exact H2].
      rewrite Hstk in H2. destruct H2. }
  assert (Hscript : drain_instr i = true -> t = script_thread).
  { intros Hd. destruct (Nat.eq_dec t script_thread) as [->|Hne];
      [reflexivity|].
    specialize (HD t Hne). rewrite Hstk in HD. simpl in HD.
    rewrite Hd in HD. discriminate. }
  assert (Hkeep : forall p e c fl n,
            (i = Set_finished (k, f) -> e = FinishedSet (k, f)) ->
            In (Executing w) (events (trace s)) ->
            In (FinishedSet (k, f))
              (events (trace (after s t c fl (p ++ rest) n e)))
            \/ In (Set_finished (k, f))
                 (stack (after s t c fl (p ++ rest) n e) script_thread)).
  { intros p e c fl n He Hin. cbn [trace stack after].
    rewrite events_snoc, in_app_iff. simpl.
    destruct (IH Hin) as [H1 | H2]; [left; left; exact H1|].
    unfold upd. destruct (Nat.eqb_spec script_thread t) as [<-|Hne];
      [|right; exact H2].
    rewrite Hstk in H2. destruct H2 as [H2 | H2].
    - left. right. left. rewrite (He H2). reflexivity.
    - right. apply in_or_app. right. exact H2. }
  exec_inv Hexec;
    match goal with
    | |- In _ (events (trace (after _ _ _ _ _ _ (Executing _)))) -> _ => idtac
    | |- _ =>
        let Hin := fresh "Hin" in
        intros Hin; cbn [trace after] in Hin;
        rewrite events_snoc, in_app_iff in Hin; simpl in Hin;
        destruct Hin as [Hin | [Hin | []]]; [|discriminate Hin];
        first [ exact (Hkeep [] _ _ _ _ ltac:(discriminate) Hin)
              | exact (Hkeep (Schedule _) _ _ _ _ ltac:(discriminate) Hin)
              | exact (Hkeep (Perform _ _) _ _ _ _ ltac:(discriminate) Hin)
              | exact (Hkeep ProcessPending _ _ _ _ ltac:(discriminate) Hin)
              | exact (Hkeep (loop_body _) _ _ _ _ ltac:(discriminate) Hin)
              | exact (Hkeep [WAKE; While_not_finished _] _ _ _ _
                         ltac:(discriminate) Hin)
              | exact (Hkeep [] _ _ _ _
                         ltac:(intros Heq; injection Heq as ->; reflexivity) Hin) ]
    end.
  intros Hin. cbn [trace after] in Hin.
  rewrite events_snoc, in_app_iff in Hin. simpl in Hin.
  destruct Hin as [Hin | [Hin | []]].
  - exact (Hkeep (body (fn work0)) _ _ _ _ ltac:(discriminate) Hin).
  - injection Hin as ->. right. cbn [stack after].
    rewrite (Hscript eq_refl), upd_same, Hfn. simpl. unfold lambda.
    apply in_or_app. left. apply in_or_app. right. simpl. tauto.
Qed.


(** The condition variable over a run. *)

Lemma steps_of_app (a b : list entry) :
  steps_of (a ++ b) = steps_of a ++ steps_of b.
Proof. apply map_app. Qed.

Lemma cond_replay_no_waiter (l : list (tid * event)) :
  forall released,
  forallb no_wait l = true -> cond_replay [] released l = Some ([], released).
Proof.
  induction l as [|[t ev] l IH]; intros released H; [reflexivity|].
  simpl in H. apply andb_prop in H. destruct H as [Hev Hl].
  destruct ev; simpl in *; try discriminate Hev; apply IH; exact Hl.
Qed.

Lemma cond_replay_signal (l : list (tid * event)) (t : tid) :
  forallb no_wait l = true -> In Signalled (map snd l) ->
  cond_replay [t] [] l = Some ([], [t]).
Proof.
  induction l as [|[u ev] l IH]; intros H Hin; [destruct Hin|].
  simpl in H. apply andb_prop in H. destruct H as [Hev Hl].
  destruct ev; simpl in *; try discriminate Hev;
    try (destruct Hin as [Hin | Hin]; [discriminate Hin | exact (IH Hl Hin)]).
  apply cond_replay_no_waiter. exact Hl.
Qed.

Lemma cond_replay_app (a b : list (tid * event)) :
  forall parked released parked' released',
  cond_replay parked released a = Some (parked', released') ->
  cond_replay parked released (a ++ b) = cond_replay parked' released' b.
Proof.
  induction a as [|[t ev] a IH]; intros p r p' r' H; simpl in *.
  - injection H as <- <-. reflexivity.
  - destruct ev; try exact (IH _ _ _ _ H).
    + destruct p as [|u [|v p]]; exact (IH _ _ _ _ H).
    + destruct (existsb (Nat.eqb t) r); [exact (IH _ _ _ _ H) | discriminate H].
Qed.

(** The steps of a drain are steps of the script thread without a wait. *)
Lemma spec_schedule_no_wait (w : item) :
  forallb no_wait (steps_of (spec_schedule w)) = true.
Proof. reflexivity. Qed.

Lemma spec_execute_no_wait (w : work) (k : nat) :
  forallb no_wait (steps_of (spec_execute w k)) = true.
Proof.
  unfold spec_execute. rewrite steps_of_app, forallb_app. apply andb_true_intro.
  split.
  - generalize (posted (posts_of w) k). intros l.
    induction l as [|x l IH]; [reflexivity|]. cbn [flat_map].
    rewrite steps_of_app, forallb_app, IH, spec_schedule_no_wait. reflexivity.
  - destruct w; reflexivity.
Qed.

Lemma spec_loop_no_wait (fuel : nat) :
  forall q k, forallb no_wait (steps_of (spec_loop fuel q k)) = true.
Proof.
  induction fuel as [|fuel IH]; intros q k; [reflexivity|].
  destruct q as [|w q]; [reflexivity|]. cbn [spec_loop].
  rewrite !steps_of_app, !forallb_app, spec_execute_no_wait, IH. reflexivity.
Qed.

Lemma spec_ProcessPending_no_wait (q : list item) (k : nat) :
  forallb no_wait (steps_of (spec_ProcessPending q k)) = true.
Proof.
  unfold spec_ProcessPending.
  rewrite !steps_of_app, !forallb_app, spec_loop_no_wait. reflexivity.
Qed.

Lemma events_steps_of (tr : list entry) : map snd (steps_of tr) = events tr.
Proof. unfold steps_of, events. rewrite map_map. reflexivity. Qed.

(** In a drain the setting of a flag is followed by the signal. *)
Lemma spec_loop_signals (fuel : nat) :
  forall q k kk, In (FinishedSet kk) (events (spec_loop fuel q k)) ->
  In Signalled (events (spec_loop fuel q k)).
Proof.
  induction fuel as [|fuel IH]; intros q k kk H; [destruct H|].
  destruct q as [|w q]; [simpl in H; intuition discriminate|].
  cbn [spec_loop] in *. rewrite !events_app in *.
  simpl in H. destruct H as [H | [H | [H | H]]]; try discriminate H.
  apply in_app_or in H. simpl. right. right. right. apply in_or_app.
  destruct H as [H | H].
  - left. unfold spec_execute in *. rewrite events_app in *.
    apply in_app_or in H. apply in_or_app. destruct H as [H | H].
    + exfalso. revert H. generalize (posted (posts_of (fn w)) k). intros l.
      induction l as [|x l IHl]; [intros []|]. cbn [flat_map].
      rewrite events_app. intros H. apply in_app_or in H.
      destruct H as [H | H]; [|exact (IHl H)].
      simpl in H. intuition discriminate.
    + right. destruct (fn w); [destruct H|]. simpl in *. tauto.
  - right. simpl in H. destruct H as [H | [H | H]]; try discriminate H.
    simpl. right. right. exact (IH _ _ _ H).
Qed.

Lemma spec_ProcessPending_signals (q : list item) (k : nat) (kk : flag) :
  In (FinishedSet kk) (events (spec_ProcessPending q k)) ->
  In Signalled (events (spec_ProcessPending q k)).
Proof.
  unfold spec_ProcessPending. rewrite !events_app.
  intros H. apply in_app_or in H.
  destruct H as [H | H]; [simpl in H; intuition discriminate|].
  apply in_app_or in H. apply in_or_app. right. apply in_or_app.
  destruct H as [H | H]; [left; exact (spec_loop_signals _ _ _ _ H)|].
  simpl in H. intuition discriminate.
Qed.

(** The steps of a drain are steps of the script thread. *)
Lemma spec_loop_on_script (fuel : nat) :
  forall q k,
  Forall (fun st => fst st = script_thread) (steps_of (spec_loop fuel q k)).
Proof.
  induction fuel as [|fuel IH]; intros q k; [constructor|].
  destruct q as [|w q]; [repeat constructor|]. cbn [spec_loop].
  rewrite !steps_of_app. repeat (apply Forall_app; split).
  - repeat constructor.
  - unfold spec_execute. rewrite steps_of_app. apply Forall_app. split.
    + generalize (posted (posts_of (fn w)) k). intros l.
      induction l as [|x l IHl]; [constructor|]. cbn [flat_map].
      rewrite steps_of_app. apply Forall_app. split; [|exact IHl].
      repeat constructor.
    + destruct (fn w); repeat constructor.
  - repeat constructor.
  - apply IH.
Qed.

Lemma spec_ProcessPending_on_script (q : list item) (k : nat) :
  Forall (fun st => fst st = script_thread)
    (steps_of (spec_ProcessPending q k)).
Proof.
  unfold spec_ProcessPending. rewrite !steps_of_app.
  repeat (apply Forall_app; split);
    [repeat constructor | apply spec_loop_on_script | repeat constructor].
Qed.

(** X17: [Perform] comes back when its caller is the only thread that
    waits.  A thread other than the script thread calls [Perform] while the
    script thread is idle, the mutex is free and no thread is inside
    [g_cond_wait].  Then this run can be taken, no step of it blocked: the
    nine steps of the caller up to its wait, the dispatch of the async
    callback, the steps of the drain ([spec_ProcessPending] on the queue
    with the lambda at its tail), and four more steps of the caller, the
    last of which is the return.  The run is one the condition variable
    allows ([cond_replay]): the caller is the only thread inside
    [g_cond_wait] throughout the drain, the drain calls the lambda, sets
    the flag and signals, and the caller leaves [g_cond_wait] after that
    signal.  The run ends with both threads idle, the queue empty, the
    mutex free and no thread inside [g_cond_wait]. *)
Theorem perform_completes (s : system) (t : tid) (f : closure) :
  reachable s -> t <> script_thread ->
  stack s t = [] -> stack s script_thread = [] -> mutex_ (context s) = None ->
  (forall u, ~ In WAKE (stack s u)) ->
  let k := (next s, f) in
  let w := {| ptr := S (next s); fn := PerformLambda f (next s) |} in
  let drain :=
    spec_ProcessPending (pending_ (context s) ++ [w]) (S (S (next s))) in
  let run :=
    map (pair t)
      [PerformBegin k; ScheduleBegin w; Locked; Appended w; Unlocked;
       AsyncSent; ScheduleEnd w; Locked; Waiting k]
    ++ steps_of drain
    ++ map (pair t) [Woken; SeenFinished k; Unlocked; PerformEnd k] in
  exists n s1 s2 s3 s4 s5,
    do_action (Enter t (api_Perform f)) s = Some s1
    /\ steps 9 t s1 = Some s2
    /\ do_action Dispatch s2 = Some s3
    /\ steps n script_thread s3 = Some s4
    /\ steps 4 t s4 = Some s5
    /\ steps_of (trace s5) = steps_of (trace s) ++ run
    /\ cond_replay [] [] run = Some ([], [])
    /\ (forall u, In WAKE (stack s2 u) -> u = t)
    /\ (forall u, In WAKE (stack s4 u) -> u = t)
    /\ forallb no_wait (steps_of drain) = true
    /\ Forall (fun st => fst st = script_thread) (steps_of drain)
    /\ In (Executing w) (events drain)
    /\ In (FinishedSet k) (events drain)
    /\ In Signalled (events drain)
    /\ stack s5 t = [] /\ stack s5 script_thread = []
    /\ (forall u, ~ In WAKE (stack s5 u))
    /\ pending_ (context s5) = [] /\ mutex_ (context s5) = None.
Proof.
  intros Hs Ht Hstk Hscript Hm Hnow k w drain run.
  destruct (@perform_until_wait s t f Hstk Hm)
    as (s1 & s2 & H1 & H2 & Hstk2 & Hother2 & Hm2 & Hp2 & Hsent2 & Hn2 & Hf2
        & He2).
  fold k in Hstk2, He2, Hf2. fold w in Hp2, He2.
  pose proof (reachable_step _ Hs H1) as Hs1.
  pose proof (@steps_reachable _ _ _ _ Hs1 H2) as Hs2.
  assert (Hscript2 : stack s2 script_thread = []).
  { rewrite Hother2 by (intros Heq; apply Ht; symmetry; exact Heq).
    exact Hscript. }
  set (s3 := start s2 script_thread Call_ProcessPending
               (uv_async_clear (async_ (context s2)))).
  assert (H3 : do_action Dispatch s2 = Some s3).
  { simpl. rewrite Hscript2, Hsent2. reflexivity. }
  pose proof (reachable_step _ Hs2 H3) as Hs3.
  assert (Hstk3 : stack s3 script_thread = [Call_ProcessPending])
    by (simpl; apply upd_same).
  assert (Hm3 : mutex_ (context s3) = None) by exact Hm2.
  destruct (drain_runs Hs3 Hstk3 Hm3)
    as (n & s4 & H4 & Htr4 & Hstk4 & Hp4 & Hm4 & Hex).
  change (pending_ (context s3)) with (pending_ (context s2)) in Htr4, Hex.
  change (next s3) with (next s2) in Htr4, Hex.
  change (trace s3) with (trace s2) in Htr4.
  rewrite Hp2, Hn2 in Htr4, Hex. fold drain in Htr4, Hex.
  pose proof (@steps_reachable _ _ _ _ Hs3 H4) as Hs4.
  assert (Hcalled : In (Executing w) (events drain)).
  { apply In_executing_of. rewrite Hex. apply in_or_app. left.
    apply in_or_app. right. left. reflexivity. }
  assert (Hset : In (FinishedSet k) (events (trace s4))).
  { destruct (@lambda_sets_flag s4 Hs4 w f (next s) eq_refl) as [Hdone | Hleft].
    - rewrite Htr4, events_app. apply in_or_app. right. exact Hcalled.
    - exact Hdone.
    - rewrite Hstk4 in Hleft. destruct Hleft. }
  assert (Hstk4t : stack s4 t
                   = [WAKE; While_not_finished k; UNLOCK; Return_Perform k]).
  { rewrite (@steps_other_stack n script_thread s3 s4 H4 t Ht). simpl.
    rewrite upd_other by exact Ht. exact Hstk2. }
  destruct (@perform_after_wait s4 t k Hstk4t Hm4 (@set_flags_stay s4 Hs4 k Hset))
    as (s5 & H5 & Hstk5 & Hother5 & Hm5 & Hp5 & He5 & _).
  assert (Hset' : In (FinishedSet k) (events drain)).
  { assert (Hnot : ~ In (FinishedSet k) (events (trace s2))).
    { intros Hin. pose proof (@set_flags_stay s2 Hs2 k Hin) as Htrue.
      rewrite Hf2 in Htrue. discriminate Htrue. }
    rewrite Htr4, events_app in Hset. apply in_app_or in Hset.
    destruct Hset as [Hset | Hset]; [contradiction | exact Hset]. }
  pose proof (@spec_ProcessPending_signals _ _ _ Hset') as Hsig.
  fold drain in Hsig.
  assert (Hscript5 : stack s5 script_thread = []).
  { rewrite Hother5 by (intros Heq; apply Ht; symmetry; exact Heq).
    exact Hstk4. }
  assert (Hother4 : forall u, u <> t -> u <> script_thread ->
                              stack s4 u = stack s u).
  { intros u Hut Hus.
    rewrite (@steps_other_stack n script_thread s3 s4 H4 u Hus). simpl.
    rewrite upd_other by exact Hus. apply Hother2. exact Hut. }
  exists n, s1, s2, s3, s4, s5.
  repeat (split; [assumption|]).
  split.
  { rewrite He5, Htr4, steps_of_app, He2. unfold run.
    rewrite <- !app_assoc. reflexivity. }
  split.
  { unfold run.
    erewrite cond_replay_app by reflexivity.
    erewrite cond_replay_app
      by (apply cond_replay_signal;
          [apply spec_ProcessPending_no_wait
          | rewrite events_steps_of; exact Hsig]).
    simpl. rewrite Nat.eqb_refl. simpl.
    destruct (Nat.eq_dec t t) as [_|Hne]; [reflexivity|].
    exfalso. apply Hne. reflexivity. }
  split.
  { intros u Hin. destruct (Nat.eq_dec u t) as [Hut|Hut]; [exact Hut|].
    exfalso. rewrite Hother2 in Hin by exact Hut. exact (Hnow u Hin). }
  split.
  { intros u Hin. destruct (Nat.eq_dec u t) as [Hut|Hut]; [exact Hut|].
    exfalso. destruct (Nat.eq_dec u script_thread) as [Hus|Hus].
    - rewrite Hus, Hstk4 in Hin. destruct Hin.
    - rewrite (Hother4 u Hut Hus) in Hin. exact (Hnow u Hin). }
  split; [apply spec_ProcessPending_no_wait|].
  split; [apply spec_ProcessPending_on_script|].
  split; [exact Hcalled|]. split; [exact Hset'|]. split; [exact Hsig|].
  split; [exact Hstk5|]. split; [exact Hscript5|].
  split.
  { intros u Hin. destruct (Nat.eq_dec u t) as [Hut|Hut].
    - rewrite Hut, Hstk5 in Hin. destruct Hin.
    - rewrite Hother5 in Hin by exact Hut.
      destruct (Nat.eq_dec u script_thread) as [Hus|Hus].
      + rewrite Hus, Hstk4 in Hin. destruct Hin.
      + rewrite (Hother4 u Hut Hus) in Hin. exact (Hnow u Hin). }
  split; [rewrite Hp5; exact Hp4 | exact Hm5].
Qed.

(** X16: no call into the context keeps the mutex.  A thread that is not
    inside [Schedule], [Perform] or [ProcessPending] does not hold it, and
    the step that returns from one of them is taken without it. *)
Theorem returns_without_the_mutex (s : system) :
  reachable s ->
  (forall t, stack s t = [] -> mutex_ (context s) <> Some t)
  /\ (forall e, In e (trace s) ->
        (exists w, what e = ScheduleEnd w) \/ (exists k, what e = PerformEnd k)
        \/ what e = ProcessPendingEnd ->
        holder e <> Some (thread e)).
Proof.
  intros Hs. split.
  - intros t Hstk. apply owns_false.
    pose proof (lock_discipline Hs t) as HW. rewrite Hstk in HW. simpl in HW.
    destruct (owns s t); [discriminate HW | reflexivity].
  - pose proof (trace_entries_ok Hs) as Hok. rewrite Forall_forall in Hok.
    intros e Hin Hw. destruct (Hok e Hin) as [Hl _].
    destruct Hw as [(w & Hw) | [(k & Hw) | Hw]]; rewrite Hw in Hl; exact Hl.
Qed.

(** *** More concrete runs *)

(** Thread 1 is inside the critical section of [Schedule]; thread 2 has
    entered [Schedule] and is at its [LOCK]. *)
Definition contended_demo : system :=
  run [Enter 1 (api_Schedule (Fn 1 [])); Step 1; Step 1;
       Enter 2 (api_Schedule (Fn 2 [])); Step 2]
      init.

Lemma mutex_is_never_misused_witness :
  mutex_ (context contended_demo) = Some 1
  /\ mutex_ (context contended_demo) <> Some 2
  /\ exists i rest, stack contended_demo 1 = i :: rest
                    /\ i <> LOCK /\ i <> WAKE.
Proof.
  destruct (@mutex_is_never_misused contended_demo
              (run_reachable _ reachable_init)) as (_ & _ & Hlock & Hholder).
  split; [vm_compute; reflexivity|]. split.
  - apply (Hlock 2 LOCK (tl (stack contended_demo 2)));
      [vm_compute; reflexivity | left; reflexivity].
  - apply Hholder. vm_compute. reflexivity.
Defined.

Lemma called_at_most_once_witness :
  NoDup (executing_of (trace fifo_demo))
  /\ (forall w, In w (executing_of (trace fifo_demo)) ->
                In w (appended_of (trace fifo_demo))).
Proof.
  exact (@called_at_most_once fifo_demo (run_reachable _ reachable_init)).
Defined.

Lemma no_lost_wakeup_witness :
  pending_ (context drain_demo) <> []
  /\ (sent (async_ (context drain_demo)) = true
      \/ existsb tests_queue (stack drain_demo script_thread) = true
      \/ exists t, In Async_send (stack drain_demo t)).
Proof.
  assert (H : pending_ (context drain_demo) <> [])
    by (vm_compute; discriminate).
  split; [exact H|].
  exact (@no_lost_wakeup drain_demo (run_reachable _ reachable_init) H).
Defined.

Lemma perform_on_script_thread_never_returns_witness :
  what (last (trace perform_demo) no_entry)
  = PerformEnd (0, Fn 7 [Fn 8 []])
  /\ thread (last (trace perform_demo) no_entry) <> script_thread.
Proof.
  split; [vm_compute; reflexivity|].
  apply (@perform_on_script_thread_never_returns perform_demo
           (run_reachable _ reachable_init)
           (last (trace perform_demo) no_entry) (0, Fn 7 [Fn 8 []])).
  - vm_compute. repeat (first [left; reflexivity | right]).
  - vm_compute. reflexivity.
Defined.

(** Thread 1 schedules [Fn 1 []] and then calls [Perform] with [Fn 2 []];
    the loop dispatches, the script thread drains, and thread 1 returns. *)
Definition barrier_demo : system :=
  run ([Enter 1 (api_Schedule (Fn 1 []))] ++ repeat (Step 1) 6
       ++ [Enter 1 (api_Perform (Fn 2 []))] ++ repeat (Step 1) 9
       ++ [Dispatch] ++ repeat (Step script_thread) 20 ++ repeat (Step 1) 4)
      init.

Example barrier_demo_events :
  events (trace barrier_demo)
  = let w0 := {| ptr := 0; fn := Plain (Fn 1 []) |} in
    let k := (1, Fn 2 []) in
    let w2 := {| ptr := 2; fn := PerformLambda (Fn 2 []) 1 |} in
    [ScheduleBegin w0; Locked; Appended w0; Unlocked; AsyncSent;
     ScheduleEnd w0;
     PerformBegin k; ScheduleBegin w2; Locked; Appended w2; Unlocked;
     AsyncSent; ScheduleEnd w2; Locked; Waiting k;
     ProcessPendingBegin; Locked; Popped w0; Unlocked; Executing w0;
     Executed w0; Locked; Popped w2; Unlocked; Executing w2; FReturned k;
     Locked; FinishedSet k; Signalled; Unlocked; Executed w2; Locked;
     QueueEmpty; Unlocked; ProcessPendingEnd;
     Woken; SeenFinished k; Unlocked; PerformEnd k].
Proof. vm_compute. reflexivity. Qed.

Lemma perform_is_a_barrier_witness :
  exists w, fn w = PerformLambda (Fn 2 []) 1
    /\ happens_before
         (did_on script_thread (Executing {| ptr := 0; fn := Plain (Fn 1 []) |}))
         (did_on script_thread (Executing w)) (trace barrier_demo).
Proof.
  apply (@perform_is_a_barrier barrier_demo
           {| ptr := 0; fn := Plain (Fn 1 []) |} 1 (Fn 2 [])
           (run_reachable _ reachable_init)).
  - exists (firstn 5 (trace barrier_demo)),
      (nth 5 (trace barrier_demo) no_entry), [],
      (nth 6 (trace barrier_demo) no_entry), (skipn 7 (trace barrier_demo)).
    split; [vm_compute; reflexivity|]. split; vm_compute; reflexivity.
  - vm_compute. repeat (first [left; reflexivity | right]).
Defined.

Lemma deleted_once_after_its_call_witness :
  let w := {| ptr := 0; fn := Plain (Fn 1 []) |} in
  In (Executing w) (events (firstn 17 (trace fifo_demo)))
  /\ ~ In (Executing w) (events (skipn 18 (trace fifo_demo)))
  /\ ~ In (Executed w) (events (firstn 17 (trace fifo_demo)))
  /\ ~ In (Executed w) (events (skipn 18 (trace fifo_demo))).
Proof.
  apply (@deleted_once_after_its_call fifo_demo
           (run_reachable _ reachable_init)
           (firstn 17 (trace fifo_demo)) (nth 17 (trace fifo_demo) no_entry)
           (skipn 18 (trace fifo_demo))
           {| ptr := 0; fn := Plain (Fn 1 []) |}).
  - vm_compute. reflexivity.
  - vm_compute. reflexivity.
Defined.

Lemma returns_without_the_mutex_witness :
  what (last (trace perform_demo) no_entry) = PerformEnd (0, Fn 7 [Fn 8 []])
  /\ mutex_ (context perform_demo) <> Some 1
  /\ holder (last (trace perform_demo) no_entry)
     <> Some (thread (last (trace perform_demo) no_entry)).
Proof.
  destruct (@returns_without_the_mutex perform_demo
              (run_reachable _ reachable_init)) as [Hidle Hret].
  split; [vm_compute; reflexivity|]. split.
  - apply Hidle. vm_compute. reflexivity.
  - apply Hret.
    + vm_compute. repeat (first [left; reflexivity | right]).
    + right. left. exists (0, Fn 7 [Fn 8 []]). vm_compute. reflexivity.
Defined.

Lemma perform_completes_witness :
  let f := Fn 7 [Fn 8 []] in
  let k := (0, f) in
  let w := {| ptr := 1; fn := PerformLambda f 0 |} in
  let drain := spec_ProcessPending [w] 2 in
  let run :=
    map (pair 1)
      [PerformBegin k; ScheduleBegin w; Locked; Appended w; Unlocked;
       AsyncSent; ScheduleEnd w; Locked; Waiting k]
    ++ steps_of drain
    ++ map (pair 1) [Woken; SeenFinished k; Unlocked; PerformEnd k] in
  exists n s1 s2 s3 s4 s5,
    do_action (Enter 1 (api_Perform f)) init = Some s1
    /\ steps 9 1 s1 = Some s2
    /\ do_action Dispatch s2 = Some s3
    /\ steps n script_thread s3 = Some s4
    /\ steps 4 1 s4 = Some s5
    /\ steps_of (trace s5) = run
    /\ cond_replay [] [] run = Some ([], [])
    /\ (forall u, In WAKE (stack s2 u) -> u = 1)
    /\ (forall u, In WAKE (stack s4 u) -> u = 1)
    /\ forallb no_wait (steps_of drain) = true
    /\ Forall (fun st => fst st = script_thread) (steps_of drain)
    /\ In (Executing w) (events drain)
    /\ In (FinishedSet k) (events drain)
    /\ In Signalled (events drain)
    /\ stack s5 1 = [] /\ stack s5 script_thread = []
    /\ (forall u, ~ In WAKE (stack s5 u))
    /\ pending_ (context s5) = [] /\ mutex_ (context s5) = None.
Proof.
  refine (@perform_completes init 1 (Fn 7 [Fn 8 []]) reachable_init _
            eq_refl eq_refl eq_refl _).
  - discriminate.
  - intros u Hin. destruct Hin.
Defined.

End UVContext.
